(** * Snapshot-producing sorting generators (Project/algorithms.py)

    A shallow embedding of the five step generators [bubble_sort],
    [selection_sort], [insertion_sort], [merge_sort] and [quick_sort].

    Python values are modelled as follows.
    - A list object lives in a store ([heap]) and is named by a reference;
      [arr.copy()] allocates a new object, [a[i] = x] overwrites a cell of an
      existing one.  The caller's list and the generator's working list are
      therefore two different objects of one store.
    - Indices are Python ints ([Z]); [a[i]] follows Python's rules: a
      negative index counts from the end and an index outside the list raises
      [IndexError].
    - A generator is a computation that, run on a store, either raises, needs
      more fuel (only a [while] loop or a recursive call consumes fuel), or
      returns with the new store and the snapshots it yielded, in order.
    - The elements are compared through a numeric [key]; for the plain
      numbers of the source the key is the number itself.  Keeping the element
      apart from its key is what lets stability be stated.

    The script of Project/app.py, its [draw_snapshot] and [random_array] are
    embedded in the module [App] below; they work on plain numbers. *)

From Stdlib Require Import String DecimalString.
From Stdlib Require Import ZArith List Bool Lia.
From Stdlib Require Import Permutation Sorted.
Import ListNotations.
Open Scope Z_scope.

Set Implicit Arguments.

(** Splitting a conjunction into its parts, and nothing else. *)
Ltac splits := repeat match goal with |- _ /\ _ => split end.

(** ** Results, references, snapshots *)

Inductive Res (A : Type) : Type :=
| Ok (x : A)
| Raise          (* IndexError *)
| OutOfFuel.

Arguments Ok {A} x.
Arguments Raise {A}.
Arguments OutOfFuel {A}.

Definition ref := nat.

(** The info dict of a snapshot: ['active'] is always present, ['sorted'] and
    ['label'] are optional keys. *)
Record Info : Type := mkInfo {
  active : list Z;
  sorted : option (list Z);
  label : option string
}.

Definition info (act srt : list Z) : Info := mkInfo act (Some srt) None.
Definition info_label (act : list Z) (l : string) : Info := mkInfo act None (Some l).
Definition info_active (act : list Z) : Info := mkInfo act None None.

(** [range lo hi] is Python's [list(range(lo, hi))]. *)
Definition range (lo hi : Z) : list Z :=
  map (fun k => lo + Z.of_nat k) (seq 0 (Z.to_nat (hi - lo))).

(** [str(z)] as an f-string prints it. *)
Definition str (z : Z) : string := NilZero.string_of_int (Z.to_int z).

(** Overwrite position [k] of a list; out of range leaves it alone (the
    callers below check the range first and raise). *)
Fixpoint replace_nth {A : Type} (k : nat) (x : A) (l : list A) : list A :=
  match l, k with
  | [], _ => []
  | _ :: t, O => x :: t
  | y :: t, S k' => y :: replace_nth k' x t
  end.

(** Python's index normalisation for a list of length [n]. *)
Definition index (n : nat) (i : Z) : option nat :=
  if (0 <=? i) && (i <? Z.of_nat n) then Some (Z.to_nat i)
  else if (- Z.of_nat n <=? i) && (i <? 0) then Some (Z.to_nat (Z.of_nat n + i))
  else None.

(** Python's slice bound normalisation: negative bounds count from the end,
    and every bound is clamped to [0, n]. *)
Definition clamp (n : nat) (i : Z) : nat :=
  if i <? 0 then Z.to_nat (Z.max 0 (Z.of_nat n + i))
  else Z.to_nat (Z.min i (Z.of_nat n)).

Definition slice {A : Type} (l : list A) (lo hi : Z) : list A :=
  let lo' := clamp (length l) lo in
  let hi' := clamp (length l) hi in
  firstn (hi' - lo') (skipn lo' l).

(** * The Streamlit script (Project/app.py) and [random_array]

    One run of the script, top to bottom, as Streamlit performs it on every
    interaction: the widgets' values are the input, the session state is
    carried from run to run, and the charts shown in the placeholder, in
    order, are the output.

    - [random.randint] and [np.random.seed] are library calls with a state of
      their own; they are parameters here.  The two states are kept apart
      because the two libraries keep them apart.
    - [ALGORITHMS] is the table of generator functions.  A generator object
      is held as the frames it has still to yield: [next] takes the first
      one, and an exhausted generator raises [StopIteration].  The table is
      a parameter of this part and is instantiated with the generators of
      [algorithms.py] in the theorems.
    - [draw_snapshot] is modelled by what it puts on the chart: the title
      parts, the bar heights and the bar colours.  Two of its calls turn the
      values into machine numbers and raise [OverflowError] on an int that is
      too large: [ax.bar(range(len(arr)), arr, ...)] and
      [ax.set_ylim(0, max(1, max(arr) * 1.1))].  Which ints they take is
      matplotlib's and the float type's matter, so each is a parameter that
      says whether the call returns; the y-limit itself, a float, is not
      computed, but [max(arr)], which raises on an empty list, is.
    - [time.sleep] has no counterpart. *)

Module App.

Inductive Color : Type := skyblue | red | green.

Section Script.

Variables rng np_rng algo : Type.
Variable randint : Z -> Z -> rng -> Res (Z * rng).
Variable np_random_seed : Z -> np_rng -> Res np_rng.
Variable ALGORITHMS : algo -> list Z -> Res (list (list Z * Info)).
Variable ax_bar_ok : list Z -> bool.     (* on the heights: [ax.bar] returns *)
Variable set_ylim_ok : Z -> bool.        (* on [max(arr)]: [ax.set_ylim] returns *)

(** [[random.randint(low, high) for _ in range(n)]] *)
Fixpoint randints (l : list Z) (low high : Z) (g : rng) : Res (list Z * rng) :=
  match l with
  | [] => Ok ([], g)
  | _ :: l' =>
      match randint low high g with
      | Ok (x, g1) =>
          match randints l' low high g1 with
          | Ok (xs, g2) => Ok (x :: xs, g2)
          | Raise => Raise
          | OutOfFuel => OutOfFuel
          end
      | Raise => Raise
      | OutOfFuel => OutOfFuel
      end
  end.

Definition random_array (n low high : Z) (g : rng) : Res (list Z * rng) :=
  randints (range 0 n) low high g.

(** What [draw_snapshot] hands to [chart_placeholder.pyplot]. *)
Record Chart : Type := mkChart {
  chart_title : algo * string;      (* f"{algo_name} - {label}" *)
  bar_heights : list Z;
  bar_colors : list Color
}.

(** [if 0 <= idx < len(bars): bars[idx].set_color(c)] *)
Definition set_color (c : Color) (bars : list Color) (idx : Z) : list Color :=
  if (0 <=? idx) && (idx <? Z.of_nat (length bars))
  then replace_nth (Z.to_nat idx) c bars
  else bars.

(** [info.get('sorted', []) or []] *)
Definition sorted_or_empty (info : Info) : list Z :=
  match sorted info with Some l => l | None => [] end.

(** [max(arr)] of the list [x :: rest] *)
Definition list_max (x : Z) (rest : list Z) : Z := fold_left Z.max rest x.

Definition draw_snapshot (algo_name : algo) (snapshot : list Z * Info) : Res Chart :=
  let '(arr, info) := snapshot in
  let active := active info in
  let sorted_idx := sorted_or_empty info in
  let label := match label info with Some l => l | None => EmptyString end in
  if ax_bar_ok arr then
    let bars := map (fun _ => skyblue) arr in
    let bars := fold_left (set_color red) active bars in
    let bars := fold_left (set_color green) sorted_idx bars in
    match arr with
    | [] => Raise                   (* max(arr): ValueError *)
    | x :: rest =>
        if set_ylim_ok (list_max x rest)
        then Ok (mkChart (algo_name, label) arr bars)
        else Raise                  (* max(arr) * 1.1, set_ylim: OverflowError *)
    end
  else Raise.                       (* ax.bar: OverflowError *)

(** The widgets of the sidebar form. *)
Record Widgets : Type := mkWidgets {
  algo_name : algo;
  size : Z;
  speed : Z;
  seed : Z;
  randomize : bool;
  start : bool;
  stop : bool;
  step_btn : bool
}.

(** [st.session_state]; [generator] is [None] or a generator object.
    [last_snapshot] is set together with [array] and is never [None]. *)
Record Session : Type := mkSession {
  array : list Z;
  generator : option (list (list Z * Info));
  running : bool;
  last_snapshot : list Z * Info
}.

(** The states of the two random number generators. *)
Definition World : Type := (rng * np_rng)%type.

Definition Act (A : Type) : Type := World -> Res (A * World).

Definition act_ret {A} (x : A) : Act A := fun w => Ok (x, w).

Definition act_bind {A B} (m : Act A) (f : A -> Act B) : Act B :=
  fun w =>
    match m w with
    | Ok (x, w1) => f x w1
    | Raise => Raise
    | OutOfFuel => OutOfFuel
    end.

Definition act_lift {A} (r : Res A) : Act A :=
  fun w =>
    match r with
    | Ok x => Ok (x, w)
    | Raise => Raise
    | OutOfFuel => OutOfFuel
    end.

(** [array = random_array(size, 1, 100)] and the three assignments that
    follow it wherever it occurs. *)
Definition regenerate (size : Z) : Act Session :=
  fun '(g, np) =>
    match random_array size 1 100 g with
    | Ok (arr, g') => Ok (mkSession arr None false (arr, info [] []), (g', np))
    | Raise => Raise
    | OutOfFuel => OutOfFuel
    end.

(** [if seed != 0: np.random.seed(seed)] *)
Definition reseed (seed : Z) : Act unit :=
  fun '(g, np) =>
    if negb (seed =? 0) then
      match np_random_seed seed np with
      | Ok np' => Ok (tt, (g, np'))
      | Raise => Raise
      | OutOfFuel => OutOfFuel
      end
    else Ok (tt, (g, np)).

(** [if 'array' not in st.session_state: ...] *)
Definition init_session (w : Widgets) (st : option Session) : Act Session :=
  match st with
  | None => act_bind (reseed (seed w)) (fun _ => regenerate (size w))
  | Some s => act_ret s
  end.

(** [if randomize: ...] *)
Definition on_randomize (w : Widgets) (s : Session) : Act Session :=
  if randomize w then act_bind (reseed (seed w)) (fun _ => regenerate (size w))
  else act_ret s.

(** [if len(st.session_state.array) != size: ...] *)
Definition on_size_change (w : Widgets) (s : Session) : Act Session :=
  if negb (Z.of_nat (length (array s)) =? size w) then regenerate (size w)
  else act_ret s.

(** [if start: ...] *)
Definition on_start (w : Widgets) (s : Session) : Act Session :=
  if start w then
    act_bind (act_lift (ALGORITHMS (algo_name w) (array s))) (fun gen =>
    act_ret (mkSession (array s) (Some gen) true (last_snapshot s)))
  else act_ret s.

(** [if stop: ...] *)
Definition on_stop (w : Widgets) (s : Session) : Session :=
  if stop w then mkSession (array s) None false (last_snapshot s) else s.

(** [if step_btn: ...] *)
Definition on_step (w : Widgets) (s : Session) : Act Session :=
  if step_btn w then
    act_bind
      (match generator s with
       | None => act_lift (ALGORITHMS (algo_name w) (array s))
       | Some gen => act_ret gen
       end) (fun gen =>
    match gen with
    | snapshot :: rest =>
        act_ret (mkSession (array s) (Some rest) (running s) snapshot)
    | [] =>                         (* StopIteration *)
        act_ret (mkSession (array s) None false (last_snapshot s))
    end)
  else act_ret s.

(** The [while True:] loop of the animation on the generator [gen] of the
    session: it ends with [StopIteration], or with [break] if [running] is
    found false after a frame. *)
Fixpoint animate (w : Widgets) (s : Session) (gen : list (list Z * Info))
    : Res (Session * list Chart) :=
  match gen with
  | [] => Ok (mkSession (array s) None false (last_snapshot s), [])
  | snapshot :: rest =>
      let s := mkSession (array s) (Some rest) (running s) snapshot in
      match draw_snapshot (algo_name w) snapshot with
      | Ok c =>
          if negb (running s) then Ok (s, [c])
          else
            match animate w s rest with
            | Ok (s', cs) => Ok (s', c :: cs)
            | Raise => Raise
            | OutOfFuel => OutOfFuel
            end
      | Raise => Raise
      | OutOfFuel => OutOfFuel
      end
  end.

(** [if st.session_state.running and st.session_state.generator is not None] *)
Definition on_running (w : Widgets) (s : Session) : Res (Session * list Chart) :=
  match running s, generator s with
  | true, Some gen => animate w s gen
  | _, _ => Ok (s, [])
  end.

(** One run of the script. *)
Definition script (w : Widgets) (st : option Session)
    : World -> Res (Session * list Chart * World) :=
  fun world =>
    match
      act_bind (init_session w st) (fun s =>
      act_bind (on_randomize w s) (fun s =>
      act_bind (on_size_change w s) (fun s =>
      act_bind (on_start w s) (fun s =>
      on_step w (on_stop w s))))) world
    with
    | Ok (s, world') =>
        match on_running w s with
        | Ok (s', charts) =>
            match draw_snapshot (algo_name w) (last_snapshot s') with
            | Ok c => Ok (s', charts ++ [c], world')
            | Raise => Raise
            | OutOfFuel => OutOfFuel
            end
        | Raise => Raise
        | OutOfFuel => OutOfFuel
        end
    | Raise => Raise
    | OutOfFuel => OutOfFuel
    end.

(** The same widget values submitted [k] times in a row: the session state
    and the random states go from one run to the next; the charts are those
    of the last run. *)
Fixpoint reruns (k : nat) (w : Widgets) (s : Session) (world : World)
    : Res (Session * list Chart * World) :=
  match k with
  | O => Ok (s, [], world)
  | Datatypes.S k' =>
      match reruns k' w s world with
      | Ok (s', _, world') => script w (Some s') world'
      | Raise => Raise
      | OutOfFuel => OutOfFuel
      end
  end.

(** What the script keeps true of the session state from run to run: the
    array is not empty, its values are those [random_array(size, 1, 100)]
    can give, the last snapshot shows as many bars as the array has, with
    heights in the same range, and a generator held in the session was made
    by one of the [ALGORITHMS] from the session's array and has yielded some
    of its frames. *)
Definition session_ok (s : Session) : Prop :=
  array s <> [] /\
  Forall (fun x => 1 <= x <= 100) (array s) /\
  length (fst (last_snapshot s)) = length (array s) /\
  Forall (fun x => 1 <= x <= 100) (fst (last_snapshot s)) /\
  forall gen, generator s = Some gen ->
    exists name pre, ALGORITHMS name (array s) = Ok (pre ++ gen).

(** [m] returns, whatever the random states, with a result that satisfies
    [Q]. *)
Definition returns {A : Type} (m : Act A) (Q : A -> Prop) : Prop :=
  forall world, exists x world', m world = Ok (x, world') /\ Q x.

(** [m0] does from any state of numpy's generator, and without touching it,
    what [m] does. *)
Definition np_sim {A : Type} (m m0 : Act A) : Prop :=
  forall g np x g' np', m (g, np) = Ok (x, (g', np')) ->
    forall np0, m0 (g, np0) = Ok (x, (g', np0)).

End Script.

(** An instance of the two library calls on which the script can be run: a
    linear congruential generator for [random.randint], which raises when the
    range is empty, and a seeding function that accepts the seeds of 32 bits
    and keeps the last one. *)
Definition lcg_randint (lo hi : Z) (g : Z) : Res (Z * Z) :=
  if lo <=? hi then
    Ok (lo + g mod (hi - lo + 1), (1103515245 * g + 12345) mod 2147483648)
  else Raise.

Definition seed_32bit (s : Z) (np : Z) : Res Z :=
  if (0 <=? s) && (s <? 4294967296) then Ok s else Raise.

(** An instance of the two conversions of [draw_snapshot]: heights that fit
    a signed 64-bit integer, and a maximum within the range of a float. *)
Definition fits_int64 (arr : list Z) : bool :=
  forallb (fun x => (- 2 ^ 63 <=? x) && (x <? 2 ^ 63)) arr.

Definition fits_float (m : Z) : bool := Z.abs m <? 2 ^ 1024.

End App.

Section Engine.

Context {elt : Type}.
Variable key : elt -> Z.

Record Snapshot : Type := mkSnapshot {
  snap_ref : ref;          (* the list object that was yielded *)
  snap_arr : list elt;     (* its contents when it was yielded *)
  snap_info : Info
}.

Definition heap := list (list elt).

(** ** The generator monad *)

Definition Gen (A : Type) : Type := heap -> Res (A * heap * list Snapshot).

Definition ret {A} (x : A) : Gen A := fun h => Ok (x, h, []).

Definition bind {A B} (m : Gen A) (f : A -> Gen B) : Gen B :=
  fun h =>
    match m h with
    | Ok (x, h1, t1) =>
        match f x h1 with
        | Ok (y, h2, t2) => Ok (y, h2, t1 ++ t2)
        | Raise => Raise
        | OutOfFuel => OutOfFuel
        end
    | Raise => Raise
    | OutOfFuel => OutOfFuel
    end.

Definition raise {A} : Gen A := fun _ => Raise.
Definition out_of_fuel {A} : Gen A := fun _ => OutOfFuel.

Notation "x <- m ;; k" := (bind m (fun x => k))
  (at level 61, m at next level, right associativity).
Notation "m ;; k" := (bind m (fun _ => k))
  (at level 61, right associativity).
Notation "' pat <- m ;; k" := (bind m (fun x => match x with pat => k end))
  (at level 61, pat pattern, m at next level, right associativity).

(** ** Primitive operations on list objects *)

(** [len(a)] *)
Definition len (a : ref) : Gen Z := fun h =>
  match nth_error h a with
  | Some v => Ok (Z.of_nat (length v), h, [])
  | None => Raise
  end.

(** [a.copy()]: a new object with the same contents. *)
Definition list_copy (a : ref) : Gen ref := fun h =>
  match nth_error h a with
  | Some v => Ok (length h, h ++ [v], [])
  | None => Raise
  end.

(** [a[i]] *)
Definition getitem (a : ref) (i : Z) : Gen elt := fun h =>
  match nth_error h a with
  | Some v =>
      match index (length v) i with
      | Some k => match nth_error v k with
                  | Some x => Ok (x, h, [])
                  | None => Raise
                  end
      | None => Raise
      end
  | None => Raise
  end.

(** [a[i] = x] *)
Definition setitem (a : ref) (i : Z) (x : elt) : Gen unit := fun h =>
  match nth_error h a with
  | Some v =>
      match index (length v) i with
      | Some k => Ok (tt, replace_nth a (replace_nth k x v) h, [])
      | None => Raise
      end
  | None => Raise
  end.

(** [a[lo:hi]]: the slice is a local list that is only read, a value here. *)
Definition getslice (a : ref) (lo hi : Z) : Gen (list elt) := fun h =>
  match nth_error h a with
  | Some v => Ok (slice v lo hi, h, [])
  | None => Raise
  end.

(** [L[i]] on a local list. *)
Definition item (L : list elt) (i : Z) : Gen elt :=
  match index (length L) i with
  | Some k => match nth_error L k with
              | Some x => ret x
              | None => raise
              end
  | None => raise
  end.

(** [yield r, info]: the consumer receives the object [r] itself. *)
Definition yield (r : ref) (i : Info) : Gen unit := fun h =>
  match nth_error h r with
  | Some v => Ok (tt, h, [mkSnapshot r v i])
  | None => Raise
  end.

(** [yield a.copy(), info] *)
Definition yield_copy (a : ref) (i : Info) : Gen unit :=
  c <- list_copy a ;; yield c i.

(** [a[p], a[q] = a[q], a[p]]: the right-hand side is evaluated first. *)
Definition swap (a : ref) (p q : Z) : Gen unit :=
  x <- getitem a q ;;
  y <- getitem a p ;;
  setitem a p x ;;
  setitem a q y.

(** ** Loops *)

(** [for j in l: s = body(j, s)] with the loop-carried locals in [s]. *)
Fixpoint for_fold {S : Type} (l : list Z) (s : S) (body : Z -> S -> Gen S) : Gen S :=
  match l with
  | [] => ret s
  | j :: l' => s' <- body j s ;; for_fold l' s' body
  end.

Definition for_each (l : list Z) (body : Z -> Gen unit) : Gen unit :=
  for_fold l tt (fun j _ => body j).

(** A [for] loop whose body may [break]: the body returns [true] to break. *)
Fixpoint for_break (l : list Z) (body : Z -> Gen bool) : Gen unit :=
  match l with
  | [] => ret tt
  | j :: l' => b <- body j ;; if b then ret tt else for_break l' body
  end.

(** [while cond(s): s = body(s)]; every iteration consumes one unit of fuel. *)
Fixpoint while {S : Type} (fuel : nat) (cond : S -> Gen bool) (body : S -> Gen S)
    (s : S) : Gen S :=
  match fuel with
  | O => out_of_fuel
  | Datatypes.S fuel' =>
      b <- cond s ;;
      if b then s' <- body s ;; while fuel' cond body s' else ret s
  end.

(** ** The five generators

    A comparison of two elements ([a[j] > a[j + 1]], [a[j] < a[min_idx]],
    [L[i] <= R[j]], ...) compares their keys.  Local variables that a loop
    updates ([swapped], [min_idx], [i], [j], [k], the stack) are the state
    the loop carries. *)

(** [bubble_sort]: passes over adjacent pairs, with an early exit after a
    pass without a swap ([break] when [not swapped]). *)
Definition bubble_sort (arr : ref) : Gen unit :=
  a <- list_copy arr ;;
  n <- len a ;;
  if n =? 0 then
    yield a (info [] [])
  else
    yield_copy a (info [] []) ;;
    for_break (range 0 n) (fun i =>
      swapped <- for_fold (range 0 (n - i - 1)) false (fun j swapped =>
        yield_copy a (info [j; j + 1] (range (n - i) n)) ;;
        x <- getitem a j ;;
        y <- getitem a (j + 1) ;;
        if key x >? key y then
          swap a j (j + 1) ;;
          yield_copy a (info [j; j + 1] (range (n - i) n)) ;;
          ret true
        else ret swapped) ;;
      ret (negb swapped)) ;;
    yield_copy a (info [] (range 0 n)).

(** [selection_sort]: no guard for the empty list; the before-frame and the
    final frame are yielded whatever the length. *)
Definition selection_sort (arr : ref) : Gen unit :=
  a <- list_copy arr ;;
  n <- len a ;;
  yield_copy a (info [] []) ;;
  for_each (range 0 n) (fun i =>
    min_idx <- for_fold (range (i + 1) n) i (fun j min_idx =>
      yield_copy a (info [min_idx; j] (range 0 i)) ;;
      x <- getitem a j ;;
      y <- getitem a min_idx ;;
      if key x <? key y then
        yield_copy a (info [j] (range 0 i)) ;;
        ret j
      else ret min_idx) ;;
    if negb (i =? min_idx) then
      swap a i min_idx ;;
      yield_copy a (info [i; min_idx] (range 0 (i + 1)))
    else ret tt) ;;
  yield_copy a (info [] (range 0 n)).

(** [insertion_sort]: shifts the greater elements one cell to the right
    ([a[j + 1] = a[j]]), yielding before and after each shift, then writes
    the held [key] (here [keyv]) into the hole. *)
Definition insertion_sort (fuel : nat) (arr : ref) : Gen unit :=
  a <- list_copy arr ;;
  n <- len a ;;
  yield_copy a (info [] []) ;;
  for_each (range 1 n) (fun i =>
    keyv <- getitem a i ;;
    j <- while fuel
           (fun j => if j >=? 0 then x <- getitem a j ;; ret (key x >? key keyv)
                     else ret false)
           (fun j =>
              yield_copy a (info [j; j + 1] (range (i + 1) n)) ;;
              x <- getitem a j ;;
              setitem a (j + 1) x ;;
              let j := j - 1 in
              yield_copy a (info [j + 1] (range (i + 1) n)) ;;
              ret j)
           (i - 1) ;;
    setitem a (j + 1) keyv ;;
    yield_copy a (info [j + 1] (range (i + 1) n))) ;;
  yield_copy a (info [] (range 0 n)).

Definition merging_label (left mid right : Z) : string :=
  ("merging " ++ str left ++ ":" ++ str mid ++ " + " ++ str mid ++ ":" ++ str right)%string.

(** [merge], the nested function of [merge_sort]: merges [a[left:mid]] and
    [a[mid:right]] back into [a] from position [left] on. *)
Definition merge (fuel : nat) (a : ref) (left mid right : Z) : Gen unit :=
  L <- getslice a left mid ;;
  R <- getslice a mid right ;;
  let lenL := Z.of_nat (length L) in
  let lenR := Z.of_nat (length R) in
  '(i, j, k) <- while fuel
      (fun '(i, j, k) => ret ((i <? lenL) && (j <? lenR)))
      (fun '(i, j, k) =>
         yield_copy a (info_label [k] (merging_label left mid right)) ;;
         x <- item L i ;;
         y <- item R j ;;
         '(i, j) <- (if key x <=? key y
                     then setitem a k x ;; ret (i + 1, j)
                     else setitem a k y ;; ret (i, j + 1)) ;;
         let k := k + 1 in
         yield_copy a (info_label [k - 1] "after write") ;;
         ret (i, j, k))
      (0, 0, left) ;;
  '(i, k) <- while fuel
      (fun '(i, k) => ret (i <? lenL))
      (fun '(i, k) =>
         x <- item L i ;;
         setitem a k x ;;
         let i := i + 1 in
         let k := k + 1 in
         yield_copy a (info_active [k - 1]) ;;
         ret (i, k))
      (i, k) ;;
  '(j, k) <- while fuel
      (fun '(j, k) => ret (j <? lenR))
      (fun '(j, k) =>
         y <- item R j ;;
         setitem a k y ;;
         let j := j + 1 in
         let k := k + 1 in
         yield_copy a (info_active [k - 1]) ;;
         ret (j, k))
      (j, k) ;;
  ret tt.

(** [sort_rec], the other nested function: [depth] bounds the recursion,
    [fuel] the [while] loops of [merge]. *)
Fixpoint sort_rec (fuel depth : nat) (a : ref) (left right : Z) : Gen unit :=
  match depth with
  | O => out_of_fuel
  | Datatypes.S depth' =>
      if right - left <=? 1 then ret tt
      else
        let mid := (left + right) / 2 in
        sort_rec fuel depth' a left mid ;;
        sort_rec fuel depth' a mid right ;;
        merge fuel a left mid right
  end.

Definition merge_sort (fuel : nat) (arr : ref) : Gen unit :=
  a <- list_copy arr ;;
  n <- len a ;;
  if n =? 0 then
    yield a (info [] [])
  else
    yield_copy a (info [] []) ;;
    sort_rec fuel fuel a 0 n ;;
    yield_copy a (info [] (range 0 n)).

(** One iteration of the [while stack:] loop of [quick_sort]: pop a range,
    skip it when [low >= high], else partition it (Lomuto, pivot [a[high]])
    and push the two sides.  The stack is a local list of pairs; its head is
    the top ([pop] takes the head, [append] conses).  The nested functions
    [partition] and [quick_rec] of the source are never called; they are
    embedded on their own further down. *)
Definition quick_step (a : ref) (stack : list (Z * Z)) : Gen (list (Z * Z)) :=
  match stack with
  | [] => raise  (* pop from empty list *)
  | (low, high) :: stack =>
      if low >=? high then ret stack
      else
        pivot <- getitem a high ;;
        i <- for_fold (range low high) low (fun j i =>
          yield_copy a (info_label [j; high] "compare to pivot") ;;
          x <- getitem a j ;;
          if key x <? key pivot then
            swap a i j ;;
            yield_copy a (info_label [i; j] "swap smaller") ;;
            ret (i + 1)
          else ret i) ;;
        swap a i high ;;
        yield_copy a (info_label [i; high] "pivot placed") ;;
        ret ((i + 1, high) :: (low, i - 1) :: stack)
  end.

Definition nonempty {A : Type} (l : list A) : bool :=
  match l with [] => false | _ => true end.

Definition quick_loop (fuel : nat) (a : ref) (stack : list (Z * Z)) : Gen (list (Z * Z)) :=
  while fuel (fun stack => ret (nonempty stack)) (quick_step a) stack.

Definition quick_sort (fuel : nat) (arr : ref) : Gen unit :=
  a <- list_copy arr ;;
  n <- len a ;;
  if n =? 0 then
    yield a (info [] [])
  else
    yield_copy a (info [] []) ;;
    quick_loop fuel a [(0, n - 1)] ;;
    yield_copy a (info [] (range 0 n)).

(** The table of generators the application offers (ALGORITHMS in app.py);
    [fuel] is handed to the generators that loop with [while] or recurse. *)
Inductive algorithm : Type := Bubble | Selection | Insertion | Merge | Quick.

Definition generator (alg : algorithm) (fuel : nat) : ref -> Gen unit :=
  match alg with
  | Bubble => bubble_sort
  | Selection => selection_sort
  | Insertion => insertion_sort fuel
  | Merge => merge_sort fuel
  | Quick => quick_sort fuel
  end.

(** What a consumer sees of a snapshot: the array and the info dict. *)
Abbreviation Frame := (list elt * Info)%type.

Definition frames (tr : list Snapshot) : list Frame :=
  map (fun s => (snap_arr s, snap_info s)) tr.

(** Running a generator to exhaustion on a store whose only object is the
    caller's list. *)
Definition run (g : ref -> Gen unit) (input : list elt) : Res (list Frame) :=
  match g 0%nat [input] with
  | Ok (_, _, tr) => Ok (frames tr)
  | Raise => Raise
  | OutOfFuel => OutOfFuel
  end.

(** [ALGORITHMS[name](arr)] as the application uses it: the frames the new
    generator object will yield.  The fuel is an amount that the loops of
    none of the five generators exhaust on a list of this length. *)
Definition new_generator (alg : algorithm) (arr : list elt) : Res (list Frame) :=
  run (generator alg (2 * length arr + 2)) arr.

(** ** Specification vocabulary *)

(** The key at position [i] (0 outside the list). *)
Definition kget (v : list elt) (i : Z) : Z :=
  match nth_error v (Z.to_nat i) with
  | Some x => key x
  | None => 0
  end.

Definition upd (v : list elt) (i : Z) (x : elt) : list elt :=
  replace_nth (Z.to_nat i) x v.

(** The list after [a[p], a[q] = a[q], a[p]]. *)
Definition vswap (v : list elt) (p q : Z) : list elt :=
  match nth_error v (Z.to_nat p), nth_error v (Z.to_nat q) with
  | Some y, Some x => upd (upd v p x) q y
  | _, _ => v
  end.

Definition le_key (x y : elt) : Prop := key x <= key y.

(** Positions [lo, hi) hold non-decreasing keys. *)
Definition sorted_on (v : list elt) (lo hi : Z) : Prop :=
  forall i j, lo <= i -> i <= j -> j < hi -> kget v i <= kget v j.

Definition in_range (n : Z) (i : Z) : Prop := 0 <= i < n.

(** Objects of the old store other than [a] are untouched. *)
Definition frame_cond (a : ref) (h h' : heap) : Prop :=
  (length h <= length h')%nat /\
  forall r, (r < length h)%nat -> r <> a -> nth_error h' r = nth_error h r.

(** Total correctness of a computation that works on the list object [a],
    whose contents are [v]: it returns, and the result, the new contents of
    [a] and the frames yielded satisfy [Q]. *)
Definition spec {A : Type} (a : ref) (v : list elt) (m : Gen A)
    (Q : A -> list elt -> list Frame -> Prop) : Prop :=
  forall h, nth_error h a = Some v ->
    exists x v' h' tr,
      m h = Ok (x, h', tr) /\ nth_error h' a = Some v' /\
      frame_cond a h h' /\ Q x v' (frames tr).

(** What every frame of a run over a list of length [n] must satisfy: the
    array has length [n], the active indices are valid, and the array is
    related to the input by [R]. *)
Definition frame_ok (n : Z) (R : list elt -> Prop) (f : Frame) : Prop :=
  Z.of_nat (length (fst f)) = n /\
  Forall (in_range n) (active (snd f)) /\
  R (fst f).

(** The working list is a rearrangement of the input [v0]. *)
Definition state_ok (v0 v : list elt) : Prop :=
  length v = length v0 /\ Permutation v v0.

(** Positions [m, n) are sorted and dominate positions [0, m). *)
Definition tail_ok (n : Z) (v : list elt) (m : Z) : Prop :=
  sorted_on v m n /\
  forall p q, 0 <= p < m -> m <= q < n -> kget v p <= kget v q.

Definition perm_of (v0 arr : list elt) : Prop := Permutation arr v0.

(** The contract of a generator called on the list object [arr] whose
    contents are [v0]: it returns, every object of the caller's store is
    left as it was, and the frames yielded satisfy [Q]. *)
Definition gen_spec (g : ref -> Gen unit) (v0 : list elt) (Q : list Frame -> Prop) : Prop :=
  forall h arr, nth_error h arr = Some v0 ->
    exists h' tr,
      g arr h = Ok (tt, h', tr) /\
      (forall r, (r < length h)%nat -> nth_error h' r = nth_error h r) /\
      Q (frames tr).

(** The shape of a whole run: an optional "before" frame showing the input
    (always there when the input is not empty), the frames of the steps, and
    the final frame, which shows a sorted rearrangement of the input, marks
    every index as sorted and none as active. *)
Definition sort_post (R : list elt -> Prop) (v0 : list elt) (fs : list Frame) : Prop :=
  let n := Z.of_nat (length v0) in
  exists pre mid vf,
    fs = pre ++ mid ++ [(vf, info [] (range 0 n))] /\
    (pre = [] \/ pre = [(v0, info [] [])]) /\
    (v0 <> [] -> pre = [(v0, info [] [])]) /\
    Forall (frame_ok n R) mid /\
    Permutation vf v0 /\
    StronglySorted le_key vf.

(** Invariants of [bubble_sort]: of the pass over [j] during outer iteration
    [i] (with [m = n - i]), of the outer loop, and the state after [break]. *)
Definition bubble_inner_inv (v0 : list elt) (n m j : Z) (swapped : bool)
    (v : list elt) (t : list Frame) : Prop :=
  state_ok v0 v /\ tail_ok n v m /\
  (forall p, 0 <= p <= j -> kget v p <= kget v j) /\
  (swapped = false -> sorted_on v 0 (j + 1)) /\
  Forall (frame_ok n (perm_of v0)) t.

Definition bubble_outer_inv (v0 : list elt) (n i : Z) (v : list elt) (t : list Frame) : Prop :=
  state_ok v0 v /\ tail_ok n v (n - i) /\ Forall (frame_ok n (perm_of v0)) t.

Definition bubble_done (v0 : list elt) (n : Z) (v : list elt) (t : list Frame) : Prop :=
  state_ok v0 v /\ sorted_on v 0 n /\ Forall (frame_ok n (perm_of v0)) t.

(** Invariants of [selection_sort]: positions [0, i) are sorted and
    dominated by the rest; during the scan [m] is the position of a least key
    of [i, j). *)
Definition sel_outer (v0 : list elt) (n i : Z) (v : list elt) : Prop :=
  state_ok v0 v /\ sorted_on v 0 i /\
  forall p q, 0 <= p < i -> i <= q < n -> kget v p <= kget v q.

Definition sel_inner (n i j m : Z) (v : list elt) : Prop :=
  i <= m < j /\ m < n /\ forall p, i <= p < j -> kget v m <= kget v p.

(** Every value of the array occurs in the input. *)
Definition incl_of (v0 arr : list elt) : Prop := incl arr v0.

(** Invariants of [insertion_sort]: positions [0, i) are sorted; during the
    shifting, position [j + 1] is a hole waiting for [keyv]: with [keyv] put
    there the list is a rearrangement of the input, the other positions up
    to [i] are sorted, and those right of the hole are greater than [keyv]. *)
Definition ins_outer (v0 : list elt) (i : Z) (v : list elt) : Prop :=
  state_ok v0 v /\ sorted_on v 0 i.

Definition ins_hole (v0 : list elt) (i : Z) (keyv : elt) (j : Z) (w : list elt) : Prop :=
  -1 <= j < i /\ length w = length v0 /\
  Permutation (upd w (j + 1) keyv) v0 /\ incl w v0 /\ In keyv v0 /\
  (forall p q, 0 <= p -> p <= q -> q <= i -> p <> j + 1 -> q <> j + 1 ->
     kget w p <= kget w q) /\
  (forall q, j + 2 <= q <= i -> key keyv < kget w q).

(** [quick_sort]: [w] differs from [v] only by a rearrangement of the keys
    at positions [low .. high]. *)
Definition within (v w : list elt) (low high : Z) : Prop :=
  (forall p, 0 <= p -> p < low \/ high < p -> kget w p = kget v p) /\
  (forall q, low <= q <= high ->
     exists q', low <= q' <= high /\ kget w q = kget v q').

(** The pivot sits at [i]: smaller keys left of it within the range, keys
    greater than or equal to it right of it. *)
Definition partitioned (w : list elt) (low i high : Z) : Prop :=
  low <= i <= high /\
  (forall p, low <= p < i -> kget w p < kget w i) /\
  (forall p, i <= p <= high -> kget w i <= kget w p).

(** Invariant of the partition scan at column [j], boundary [i], pivot key
    [pk]. *)
Definition scan_inv (v0 v : list elt) (low high pk j i : Z) (w : list elt) : Prop :=
  low <= i <= j /\ state_ok v0 w /\ within v w low high /\
  kget w high = pk /\
  (forall p, low <= p < i -> kget w p < pk) /\
  (forall p, i <= p < j -> pk <= kget w p).

(** The pending ranges of the stack. *)
Definition covered (st : list (Z * Z)) (p q : Z) : Prop :=
  exists lo hi, In (lo, hi) st /\ lo <= p /\ q <= hi.

Fixpoint disjoint_ranges (st : list (Z * Z)) : Prop :=
  match st with
  | [] => True
  | (lo, hi) :: rest =>
      (forall lo' hi' p, In (lo', hi') rest -> lo <= p <= hi -> ~ (lo' <= p <= hi')) /\
      disjoint_ranges rest
  end.

(** Invariant of the [while stack:] loop: two positions are in order unless
    one pending range holds them both. *)
Definition quick_inv (v0 : list elt) (n : Z) (st : list (Z * Z)) (w : list elt) : Prop :=
  state_ok v0 w /\
  (forall lo hi, In (lo, hi) st -> 0 <= lo /\ hi < n) /\
  disjoint_ranges st /\
  (forall p q, 0 <= p -> p < q -> q < n -> kget w p <= kget w q \/ covered st p q).

(** The variant of the loop: a range of [s] positions costs [2 * s + 1]. *)
Fixpoint stack_measure (st : list (Z * Z)) : nat :=
  match st with
  | [] => 0
  | (lo, hi) :: rest => (2 * Z.to_nat (hi - lo + 1) + 1 + stack_measure rest)%nat
  end.

(** ** A reference for stability

    [stable_sort] is insertion sort on lists, which keeps elements of equal
    key in their order; [merge_lists] is the merge of two lists that takes
    from the left one on a tie, as the first loop of [merge] does. *)
Fixpoint insert (x : elt) (l : list elt) : list elt :=
  match l with
  | [] => [x]
  | y :: l' => if key x <=? key y then x :: y :: l' else y :: insert x l'
  end.

Fixpoint stable_sort (l : list elt) : list elt :=
  match l with
  | [] => []
  | x :: l' => insert x (stable_sort l')
  end.

Fixpoint merge_lists (L R : list elt) {struct L} : list elt :=
  let fix merge_right (R : list elt) {struct R} : list elt :=
    match L, R with
    | [], _ => R
    | _, [] => L
    | x :: L', y :: R' =>
        if key x <=? key y then x :: merge_lists L' R else y :: merge_right R'
    end
  in merge_right R.

(** The elements of key [k], in their order. *)
Definition key_filter (k : Z) (l : list elt) : list elt :=
  filter (fun x => key x =? k) l.

(** Invariant of the three loops of [merge] on the list
    [pre ++ L ++ R ++ post]: the first [i + j] cells of the range hold the
    merge so far ([out]), the rest of the range is still as it was. *)
Definition merge_inv (v0 pre L R post : list elt) (i j k : Z) (w : list elt) : Prop :=
  0 <= i <= Z.of_nat (length L) /\ 0 <= j <= Z.of_nat (length R) /\
  k = Z.of_nat (length pre) + i + j /\
  length w = length v0 /\ incl w v0 /\
  exists out,
    length out = Z.to_nat (i + j) /\
    w = pre ++ out ++ skipn (Z.to_nat (i + j)) (L ++ R) ++ post /\
    out ++ merge_lists (skipn (Z.to_nat i) L) (skipn (Z.to_nat j) R) = merge_lists L R.

(** The final frame shows the stable sort of the input. *)
Definition stable_post (v0 : list elt) (fs : list Frame) : Prop :=
  exists t, fs = t ++ [(stable_sort v0, info [] (range 0 (Z.of_nat (length v0))))].

(** How the frames of each generator relate to the input: the three that
    only swap show rearrangements of it, the two that overwrite cells show
    arrays of its values. *)
Definition frame_rel (alg : algorithm) (v0 : list elt) : list elt -> Prop :=
  match alg with
  | Bubble | Selection | Quick => perm_of v0
  | Insertion | Merge => incl_of v0
  end.

(** The states of the [while stack:] loop of [quick_sort] that a run can
    reach from the store [h0] in which the loop starts on a list of length
    [n]: the stack and the store before each evaluation of the condition. *)
Inductive quick_reach (a : ref) (n : Z) (h0 : heap) : list (Z * Z) -> heap -> Prop :=
| reach_start : quick_reach a n h0 [(0, n - 1)] h0
| reach_next (st st' : list (Z * Z)) (h h' : heap) (tr : list Snapshot) :
    quick_reach a n h0 st h ->
    nonempty st = true ->
    quick_step a st h = Ok (st', h', tr) ->
    quick_reach a n h0 st' h'.

(** [m'] returns whatever [m] returns (it may return where [m] runs out of
    fuel). *)
Definition extends {A : Type} (m m' : Gen A) : Prop :=
  forall h r, m h = Ok r -> m' h = Ok r.

(** ** Snapshots as objects

    [ascending lo tr]: the snapshots of [tr] are objects numbered from [lo]
    upwards, each later than the one before. *)
Fixpoint ascending (lo : nat) (tr : list Snapshot) : Prop :=
  match tr with
  | [] => True
  | s :: tr' => (lo <= snap_ref s)%nat /\ ascending (Datatypes.S (snap_ref s)) tr'
  end.

(** The snapshot object still holds in [h] what it showed when yielded. *)
Definition retained (h : heap) (s : Snapshot) : Prop :=
  nth_error h (snap_ref s) = Some (snap_arr s).

(** A computation on the working list [a] that yields copies only: each
    snapshot is an object allocated during the run, in order, that is not
    written afterwards; objects older than the run, [a] apart, are not
    written either. *)
Definition yields_copies {A : Type} (a : ref) (m : Gen A) : Prop :=
  forall h x h' tr, (a < length h)%nat -> m h = Ok (x, h', tr) ->
    (length h <= length h')%nat /\
    (forall r, (r < length h)%nat -> r <> a -> nth_error h' r = nth_error h r) /\
    ascending (length h) tr /\
    Forall (fun s => (snap_ref s < length h')%nat /\ retained h' s) tr.

(** ** What the frames mark as sorted

    [filt_eq v0 v]: for each key, [v] holds the elements of that key that
    [v0] holds, in the same order. *)
Definition filt_eq (v0 v : list elt) : Prop :=
  forall k, key_filter k v = key_filter k v0.

(** A frame of [bubble_sort]: the sorted set is a tail [range m n] of the
    indices, and that tail of the array is sorted and dominates the rest. *)
Definition bubble_mark (v0 : list elt) (n : Z) (f : Frame) : Prop :=
  filt_eq v0 (fst f) /\ Permutation (fst f) v0 /\
  exists m, 0 <= m <= n /\ sorted (snd f) = Some (range m n) /\
            tail_ok n (fst f) m.

(** A frame of [selection_sort]: the sorted set is a prefix [range 0 m] of
    the indices, and that prefix of the array is sorted and dominated by the
    rest. *)
Definition sel_mark (v0 : list elt) (n : Z) (f : Frame) : Prop :=
  Permutation (fst f) v0 /\
  exists m, 0 <= m <= n /\ sorted (snd f) = Some (range 0 m) /\
            sorted_on (fst f) 0 m /\
            forall p q, 0 <= p < m -> m <= q < n -> kget (fst f) p <= kget (fst f) q.

(** A frame of [insertion_sort] before the last: the sorted set is a tail
    [range m n] of the indices, whose cells are those of the input. *)
Definition ins_mark (v0 : list elt) (n : Z) (f : Frame) : Prop :=
  exists m, 0 <= m /\ sorted (snd f) = Some (range m n) /\
    forall p, m <= p < n ->
      nth_error (fst f) (Z.to_nat p) = nth_error v0 (Z.to_nat p).

(** Cells from position [i] on are those of [v0]. *)
Definition untouched (v0 : list elt) (i : Z) (v : list elt) : Prop :=
  forall p, i <= p -> nth_error v (Z.to_nat p) = nth_error v0 (Z.to_nat p).

(** ** The nested functions of [quick_sort] that are never called

    [partition(low, high)] and [quick_rec(low, high)] close over the working
    list [a].  [partition] is the Lomuto scan of the loop above with its own
    label for the last frame, and it returns the pivot's index.  [quick_rec]
    forwards the frames of one [partition] ([for item in gen: yield item]),
    reads [a[low:high + 1][-(1)]] and ends in [pass]: it neither uses the
    pivot's index nor calls itself. *)
Definition partition (a : ref) (low high : Z) : Gen Z :=
  pivot <- getitem a high ;;
  i <- for_fold (range low high) low (fun j i =>
    yield_copy a (info_label [j; high] "compare to pivot") ;;
    x <- getitem a j ;;
    if key x <? key pivot then
      swap a i j ;;
      yield_copy a (info_label [i; j] "swap smaller") ;;
      ret (i + 1)
    else ret i) ;;
  swap a i high ;;
  yield_copy a (info_label [i; high] "pivot swap") ;;
  ret i.

Definition quick_rec (a : ref) (low high : Z) : Gen unit :=
  if low <? high then
    partition a low high ;;
    s <- getslice a low (high + 1) ;;
    pivot_val <- item s (-1) ;;
    ret tt
  else ret tt.


(** ** Frames that are not rearrangements of the input

    [insertion_sort] and [merge_sort] overwrite cells and yield between the
    writes.  A frame is [garbled] when its array is not a rearrangement of
    the input, though it has the input's length and holds only values of the
    input. *)
Definition rearranged (v0 : list elt) (f : Frame) : Prop :=
  Permutation (fst f) v0.

Definition garbled (v0 : list elt) (f : Frame) : Prop :=
  ~ Permutation (fst f) v0 /\ length (fst f) = length v0 /\ incl (fst f) v0.

(** The frames of one insertion by [insertion_sort], that of the element at
    position [i] of a list of length [n].  If nothing is shifted there is
    one frame, yielded after [a[j + 1] = key].  Otherwise the first frame,
    the comparison at [i - 1] and [i] before the first shift, and the last
    one, after [a[j + 1] = key], show rearrangements of the input, and the
    frames between the two, from the first shift to the last, are garbled. *)
Definition insertion_frames (v0 : list elt) (n i : Z) (e : list Frame) : Prop :=
  Forall (fun f => sorted (snd f) = Some (range (i + 1) n)) e /\
  exists placed,
    rearranged v0 placed /\
    (e = [placed] \/
     exists cmp mid,
       e = cmp :: mid ++ [placed] /\ mid <> [] /\
       rearranged v0 cmp /\ active (snd cmp) = [i - 1; i] /\
       Forall (garbled v0) mid).

(** The frames of one call of [merge(left, mid, right)] in [merge_sort]: the
    first ones, beginning with the first 'merging' frame, show
    rearrangements of the input (nothing of the right run has been written);
    then come garbled frames (from the first write of an element of the
    right run until the last element of the left run is written); the last
    ones show rearrangements of the input again. *)
Definition merge_frames (v0 : list elt) (e : list Frame) : Prop :=
  exists left mid right first init garb fin,
    e = (first :: init) ++ garb ++ fin /\ fin <> [] /\
    snd first = info_label [left] (merging_label left mid right) /\
    Forall (rearranged v0) (first :: init) /\
    Forall (garbled v0) garb /\
    Forall (rearranged v0) fin.

(** The frames of a call of [merge] so far, with [i] elements of the left
    run [L] and [j] elements of the right run [R] written: while [j = 0] the
    list is still the one the call began with ([w0]); with [0 < j] and
    [i < len(L)] it is garbled; with [0 < j] and [i = len(L)] it is a
    rearrangement again.  [lbl] is the info of the first frame. *)
Definition merge_trace (v0 L R w0 : list elt) (lbl : Info) (i j : Z) (w : list elt)
    (sh : list Frame) : Prop :=
  (j = 0 /\ w = w0 /\ Forall (rearranged v0) sh /\
   ((i = 0 /\ sh = []) \/ exists first init, sh = first :: init /\ snd first = lbl))
  \/
  (0 < j /\ i < Z.of_nat (length L) /\
   (forall q, 0 <= q < j -> kget R q < kget L i) /\
   exists first init garb,
     sh = (first :: init) ++ garb /\ snd first = lbl /\
     Forall (rearranged v0) (first :: init) /\ Forall (garbled v0) garb)
  \/
  (0 < j /\ i = Z.of_nat (length L) /\
   exists first init garb fin,
     sh = (first :: init) ++ garb ++ fin /\ fin <> [] /\ snd first = lbl /\
     Forall (rearranged v0) (first :: init) /\ Forall (garbled v0) garb /\
     Forall (rearranged v0) fin).


(** ** Lists overwritten at a position *)

Lemma length_replace_nth (A : Type) (k : nat) (x : A) (l : list A) :
  length (replace_nth k x l) = length l.
Proof.
  revert k; induction l as [|y t IH]; intros [|k]; simpl; auto.
Qed.

Lemma nth_error_replace_nth_eq (A : Type) (k : nat) (x : A) (l : list A) :
  (k < length l)%nat -> nth_error (replace_nth k x l) k = Some x.
Proof.
  revert k; induction l as [|y t IH]; intros [|k] Hk; simpl in *; try lia; auto.
  apply IH; lia.
Qed.

Lemma nth_error_replace_nth_neq (A : Type) (k k' : nat) (x : A) (l : list A) :
  k <> k' -> nth_error (replace_nth k x l) k' = nth_error l k'.
Proof.
  revert k k'; induction l as [|y t IH]; intros [|k] [|k'] Hk; simpl in *;
    try congruence; auto.
Qed.

Lemma replace_nth_same (A : Type) (k : nat) (x : A) (l : list A) :
  nth_error l k = Some x -> replace_nth k x l = l.
Proof.
  revert k; induction l as [|y t IH]; intros [|k] Hk; simpl in *; try congruence.
  f_equal; auto.
Qed.

Lemma replace_nth_twice (A : Type) (k : nat) (x y : A) (l : list A) :
  replace_nth k x (replace_nth k y l) = replace_nth k x l.
Proof.
  revert k; induction l as [|z t IH]; intros [|k]; simpl; auto. now rewrite IH.
Qed.

Lemma incl_replace_nth (k : nat) (x : elt) (w v0 : list elt) :
  incl w v0 -> In x v0 -> incl (replace_nth k x w) v0.
Proof.
  revert k; induction w as [|z t IH]; intros [|k] Hw Hx; simpl; auto.
  - apply incl_cons; auto. eapply incl_cons_inv; eauto.
  - apply incl_cons_inv in Hw as [Hz Ht]. apply incl_cons; auto.
Qed.

Lemma index_in_range (n : nat) (i : Z) :
  0 <= i < Z.of_nat n -> index n i = Some (Z.to_nat i).
Proof.
  intros Hi; unfold index.
  destruct (Z.leb_spec 0 i); try lia.
  destruct (Z.ltb_spec i (Z.of_nat n)); try lia.
  reflexivity.
Qed.

Lemma nth_error_in_range (A : Type) (l : list A) (i : Z) :
  0 <= i < Z.of_nat (length l) -> exists x, nth_error l (Z.to_nat i) = Some x.
Proof.
  intros Hi. destruct (nth_error l (Z.to_nat i)) eqn:E; eauto.
  apply nth_error_None in E; lia.
Qed.

Lemma range_nil (lo hi : Z) : hi <= lo -> range lo hi = [].
Proof.
  intros H; unfold range. replace (Z.to_nat (hi - lo)) with 0%nat by lia. reflexivity.
Qed.

Lemma range_cons (lo hi : Z) : lo < hi -> range lo hi = lo :: range (lo + 1) hi.
Proof.
  intros H; unfold range.
  replace (Z.to_nat (hi - lo)) with (S (Z.to_nat (hi - (lo + 1)))) by lia.
  simpl. f_equal; [lia|].
  rewrite <- seq_shift, map_map. apply map_ext; intros; lia.
Qed.

Lemma in_range_iff (lo hi j : Z) : In j (range lo hi) <-> lo <= j < hi.
Proof.
  unfold range; rewrite in_map_iff; split.
  - intros (k & <- & Hk). apply in_seq in Hk. lia.
  - intros Hj. exists (Z.to_nat (j - lo)); split; [lia|]. apply in_seq; lia.
Qed.

Lemma length_range (lo hi : Z) : length (range lo hi) = Z.to_nat (hi - lo).
Proof. unfold range. now rewrite length_map, length_seq. Qed.

(** ** Rules for [spec] *)

Lemma frame_cond_refl (a : ref) (h : heap) : frame_cond a h h.
Proof. split; auto. Qed.

Lemma frame_cond_trans (a : ref) (h1 h2 h3 : heap) :
  frame_cond a h1 h2 -> frame_cond a h2 h3 -> frame_cond a h1 h3.
Proof.
  intros [L1 F1] [L2 F2]; split; [lia|].
  intros r Hr Ha. rewrite F2 by (auto; lia). auto.
Qed.

Lemma frames_app (t1 t2 : list Snapshot) : frames (t1 ++ t2) = frames t1 ++ frames t2.
Proof. apply map_app. Qed.

Lemma spec_ret (A : Type) (a : ref) (v : list elt) (x : A) Q :
  Q x v [] -> spec a v (ret x) Q.
Proof.
  intros HQ h Hh. exists x, v, h, []. repeat split; auto.
Qed.

Lemma spec_bind (A B : Type) (a : ref) (v : list elt) (m : Gen A) (f : A -> Gen B) Q :
  spec a v m (fun x v1 t1 => spec a v1 (f x) (fun y v2 t2 => Q y v2 (t1 ++ t2))) ->
  spec a v (bind m f) Q.
Proof.
  intros Hm h Hh.
  destruct (Hm h Hh) as (x & v1 & h1 & t1 & E1 & Hv1 & F1 & Hf).
  destruct (Hf h1 Hv1) as (y & v2 & h2 & t2 & E2 & Hv2 & F2 & HQ).
  exists y, v2, h2, (t1 ++ t2). unfold bind. rewrite E1, E2.
  repeat split; auto; try apply (frame_cond_trans F1 F2).
  now rewrite frames_app.
Qed.

Lemma spec_weaken (A : Type) (a : ref) (v : list elt) (m : Gen A) (Q Q' : A -> list elt -> list Frame -> Prop) :
  spec a v m Q -> (forall x v' t, Q x v' t -> Q' x v' t) -> spec a v m Q'.
Proof.
  intros Hm HQ h Hh.
  destruct (Hm h Hh) as (x & v1 & h1 & t1 & E1 & Hv1 & F1 & H1).
  exists x, v1, h1, t1; auto.
Qed.

Lemma spec_len (a : ref) (v : list elt) Q :
  Q (Z.of_nat (length v)) v [] -> spec a v (len a) Q.
Proof.
  intros HQ h Hh. exists (Z.of_nat (length v)), v, h, [].
  unfold len; rewrite Hh. repeat split; auto.
Qed.

Lemma spec_getitem (a : ref) (v : list elt) (i : Z) Q :
  0 <= i < Z.of_nat (length v) ->
  (forall x, nth_error v (Z.to_nat i) = Some x -> Q x v []) ->
  spec a v (getitem a i) Q.
Proof.
  intros Hi HQ h Hh.
  destruct (nth_error_in_range v Hi) as [x Hx].
  exists x, v, h, []. unfold getitem.
  rewrite Hh, (index_in_range _ Hi), Hx. repeat split; auto.
Qed.

Lemma spec_item (a : ref) (v L : list elt) (i : Z) Q :
  0 <= i < Z.of_nat (length L) ->
  (forall x, nth_error L (Z.to_nat i) = Some x -> Q x v []) ->
  spec a v (item L i) Q.
Proof.
  intros Hi HQ.
  destruct (nth_error_in_range L Hi) as [x Hx].
  unfold item. rewrite (index_in_range _ Hi), Hx. apply spec_ret; auto.
Qed.

Lemma spec_setitem (a : ref) (v : list elt) (i : Z) (x : elt) Q :
  0 <= i < Z.of_nat (length v) ->
  Q tt (upd v i x) [] ->
  spec a v (setitem a i x) Q.
Proof.
  intros Hi HQ h Hh.
  assert (Ha : (a < length h)%nat) by (apply nth_error_Some; congruence).
  exists tt, (upd v i x), (replace_nth a (upd v i x) h), [].
  unfold setitem. rewrite Hh, (index_in_range _ Hi).
  repeat split; auto.
  - now apply nth_error_replace_nth_eq.
  - rewrite length_replace_nth; lia.
  - intros r _ Hr. apply nth_error_replace_nth_neq; auto.
Qed.

Lemma spec_getslice (a : ref) (v : list elt) (lo hi : Z) Q :
  Q (slice v lo hi) v [] -> spec a v (getslice a lo hi) Q.
Proof.
  intros HQ h Hh. exists (slice v lo hi), v, h, [].
  unfold getslice; rewrite Hh. repeat split; auto.
Qed.

Lemma spec_yield_copy (a : ref) (v : list elt) (i : Info) Q :
  Q tt v [(v, i)] -> spec a v (yield_copy a i) Q.
Proof.
  intros HQ h Hh.
  assert (Ha : (a < length h)%nat) by (apply nth_error_Some; congruence).
  exists tt, v, (h ++ [v]), [mkSnapshot (length h) v i].
  unfold yield_copy, bind, list_copy, yield. rewrite Hh.
  rewrite nth_error_app2, Nat.sub_diag by lia. simpl.
  repeat split; auto.
  - rewrite nth_error_app1; auto.
  - rewrite length_app; simpl; lia.
  - intros r Hr _. now rewrite nth_error_app1.
Qed.

Lemma spec_swap (a : ref) (v : list elt) (p q : Z) Q :
  0 <= p < Z.of_nat (length v) -> 0 <= q < Z.of_nat (length v) ->
  Q tt (vswap v p q) [] ->
  spec a v (swap a p q) Q.
Proof.
  intros Hp Hq HQ. unfold swap.
  apply spec_bind, spec_getitem; auto. intros x Hx.
  apply spec_bind, spec_getitem; auto. intros y Hy.
  apply spec_bind, spec_setitem; auto.
  apply spec_setitem.
  - unfold upd; rewrite length_replace_nth; auto.
  - unfold vswap in HQ. rewrite Hx, Hy in HQ. exact HQ.
Qed.

(** A [for] loop over [range lo hi] with an invariant on the loop index, the
    loop-carried locals, the list and the frames yielded so far. *)
Lemma spec_for_fold (S : Type) (a : ref) (I : Z -> S -> list elt -> list Frame -> Prop)
    (body : Z -> S -> Gen S) (lo0 hi : Z) :
  (forall j s v t, lo0 <= j < hi -> I j s v t ->
     spec a v (body j s) (fun s' v' t' => I (j + 1) s' v' (t ++ t'))) ->
  forall (k : nat) lo s v t, k = Z.to_nat (hi - lo) -> lo0 <= lo <= hi ->
    I lo s v t ->
    spec a v (for_fold (range lo hi) s body) (fun s' v' t' => I hi s' v' (t ++ t')).
Proof.
  intros Hbody k; induction k as [|k IH]; intros lo s v t Hk Hlo HI.
  - rewrite range_nil by lia. simpl. apply spec_ret.
    rewrite app_nil_r. replace hi with lo by lia. exact HI.
  - rewrite range_cons by lia. simpl.
    apply spec_bind. eapply spec_weaken; [apply (Hbody lo s v t); [lia|exact HI]|].
    intros s' v' t' HI'. simpl in HI'.
    eapply spec_weaken; [apply (IH (lo + 1) s' v' (t ++ t')); [lia|lia|exact HI']|].
    intros s2 v2 t2 H2. simpl in H2. now rewrite app_assoc.
Qed.

Lemma spec_for_each (a : ref) (I : Z -> list elt -> list Frame -> Prop)
    (body : Z -> Gen unit) (lo hi : Z) :
  (forall j v t, lo <= j < hi -> I j v t ->
     spec a v (body j) (fun _ v' t' => I (j + 1) v' (t ++ t'))) ->
  forall v t, lo <= hi -> I lo v t ->
    spec a v (for_each (range lo hi) body) (fun _ v' t' => I hi v' (t ++ t')).
Proof.
  intros Hbody v t Hlo HI. unfold for_each.
  apply (@spec_for_fold unit a (fun j _ => I j) (fun j _ => body j) lo hi)
    with (k := Z.to_nat (hi - lo)); auto; try lia.
Qed.

(** A [for] loop that may [break]: [D] holds on leaving through [break]. *)
Lemma spec_for_break (a : ref) (I : Z -> list elt -> list Frame -> Prop)
    (D : list elt -> list Frame -> Prop) (body : Z -> Gen bool) (lo0 hi : Z) :
  (forall j v t, lo0 <= j < hi -> I j v t ->
     spec a v (body j) (fun b v' t' =>
       if b : bool then D v' (t ++ t') else I (j + 1) v' (t ++ t'))) ->
  forall (k : nat) lo v t, k = Z.to_nat (hi - lo) -> lo0 <= lo <= hi ->
    I lo v t ->
    spec a v (for_break (range lo hi) body)
      (fun _ v' t' => D v' (t ++ t') \/ I hi v' (t ++ t')).
Proof.
  intros Hbody k; induction k as [|k IH]; intros lo v t Hk Hlo HI.
  - rewrite range_nil by lia. simpl. apply spec_ret.
    rewrite app_nil_r. replace hi with lo by lia. now right.
  - rewrite range_cons by lia. simpl.
    apply spec_bind. eapply spec_weaken; [apply (Hbody lo v t); [lia|exact HI]|].
    intros [|] v' t' HI'; simpl in HI'.
    + apply spec_ret. rewrite app_nil_r. now left.
    + eapply spec_weaken; [apply (IH (lo + 1) v' (t ++ t')); [lia|lia|exact HI']|].
      intros s2 v2 t2 H2. simpl in H2. now rewrite app_assoc.
Qed.

(** A [while] loop with an invariant [I] and a variant [mu]: with more fuel
    than the variant, the loop returns in a state where the condition is
    false.  The condition only reads. *)
Lemma spec_while (S : Type) (a : ref) (I : S -> list elt -> list Frame -> Prop)
    (mu : S -> nat) (Q : S -> list elt -> list Frame -> Prop)
    (cond : S -> Gen bool) (body : S -> Gen S) :
  (forall s v t, I s v t ->
     spec a v (cond s) (fun b v' t' => v' = v /\ t' = [] /\
       if b : bool
       then spec a v (body s) (fun s' v2 t2 => I s' v2 (t ++ t2) /\ (mu s' < mu s)%nat)
       else Q s v t)) ->
  forall (fuel : nat) s v t, (mu s < fuel)%nat -> I s v t ->
    spec a v (while fuel cond body s) (fun s' v' t' => Q s' v' (t ++ t')).
Proof.
  intros Hstep fuel; induction fuel as [|fuel IH]; intros s v t Hmu HI; [lia|].
  simpl. apply spec_bind.
  eapply spec_weaken; [apply (Hstep s v t HI)|].
  intros b v' t' (-> & -> & Hb). destruct b.
  - apply spec_bind. eapply spec_weaken; [exact Hb|].
    intros s' v2 t2 [HI' Hlt]. simpl.
    eapply spec_weaken; [apply (IH s' v2 (t ++ t2)); [lia|exact HI']|].
    intros s3 v3 t3 H3. simpl in H3. now rewrite app_assoc.
  - apply spec_ret. simpl. now rewrite app_nil_r.
Qed.

(** ** Arrays: keys, updates and swaps *)

Lemma length_upd (v : list elt) (i : Z) (x : elt) : length (upd v i x) = length v.
Proof. apply length_replace_nth. Qed.

Lemma nth_kget (v : list elt) (i : Z) (x : elt) :
  nth_error v (Z.to_nat i) = Some x -> kget v i = key x.
Proof. intros H; unfold kget; now rewrite H. Qed.

Lemma kget_upd_eq (v : list elt) (i : Z) (x : elt) :
  0 <= i < Z.of_nat (length v) -> kget (upd v i x) i = key x.
Proof.
  intros Hi; unfold kget, upd. rewrite nth_error_replace_nth_eq by lia. reflexivity.
Qed.

Lemma kget_upd_neq (v : list elt) (i j : Z) (x : elt) :
  0 <= i -> 0 <= j -> i <> j -> kget (upd v i x) j = kget v j.
Proof.
  intros Hi Hj Hij; unfold kget, upd. rewrite nth_error_replace_nth_neq by lia.
  reflexivity.
Qed.

Lemma length_vswap (v : list elt) (p q : Z) : length (vswap v p q) = length v.
Proof.
  unfold vswap. destruct (nth_error v (Z.to_nat p)), (nth_error v (Z.to_nat q)); auto.
  now rewrite !length_upd.
Qed.

Lemma kget_vswap (v : list elt) (p q r : Z) :
  0 <= p < Z.of_nat (length v) -> 0 <= q < Z.of_nat (length v) -> 0 <= r ->
  kget (vswap v p q) r =
    if r =? q then kget v p else if r =? p then kget v q else kget v r.
Proof.
  intros Hp Hq Hr. unfold vswap.
  destruct (nth_error_in_range v Hp) as [y Hy].
  destruct (nth_error_in_range v Hq) as [x Hx].
  rewrite Hy, Hx.
  destruct (Z.eqb_spec r q) as [->|Hrq].
  - rewrite kget_upd_eq by (rewrite length_upd; lia). symmetry; now apply nth_kget.
  - rewrite kget_upd_neq by lia.
    destruct (Z.eqb_spec r p) as [->|Hrp].
    + rewrite kget_upd_eq by lia. symmetry; now apply nth_kget.
    + now rewrite kget_upd_neq by lia.
Qed.

Lemma Permutation_replace_nth (x a : elt) (t : list elt) (q : nat) :
  nth_error t q = Some x -> Permutation (x :: replace_nth q a t) (a :: t).
Proof.
  revert q; induction t as [|b t IH]; intros [|q] Hq; simpl in *; try discriminate.
  - injection Hq as ->. apply perm_swap.
  - eapply perm_trans; [apply perm_swap|].
    eapply perm_trans; [apply perm_skip, (IH q Hq)|]. apply perm_swap.
Qed.

Lemma Permutation_swap_nth (v : list elt) (p q : nat) (x y : elt) :
  nth_error v p = Some y -> nth_error v q = Some x ->
  Permutation (replace_nth q y (replace_nth p x v)) v.
Proof.
  revert p q; induction v as [|a t IH]; intros [|p] [|q] Hp Hq; simpl in *;
    try discriminate.
  - injection Hp as ->. injection Hq as ->. reflexivity.
  - injection Hp as ->. now apply Permutation_replace_nth.
  - injection Hq as ->. now apply Permutation_replace_nth.
  - apply perm_skip. now apply IH.
Qed.

Lemma Permutation_vswap (v : list elt) (p q : Z) : Permutation (vswap v p q) v.
Proof.
  unfold vswap.
  destruct (nth_error v (Z.to_nat p)) as [y|] eqn:Hy; auto.
  destruct (nth_error v (Z.to_nat q)) as [x|] eqn:Hx; auto.
  now apply Permutation_swap_nth.
Qed.

Lemma state_ok_refl (v0 : list elt) : state_ok v0 v0.
Proof. split; auto. Qed.

Lemma state_ok_vswap (v0 v : list elt) (p q : Z) :
  state_ok v0 v -> state_ok v0 (vswap v p q).
Proof.
  intros [L P]; split.
  - now rewrite length_vswap.
  - eapply perm_trans; [apply Permutation_vswap|exact P].
Qed.

(** Index-sortedness of the whole list is sortedness in the usual sense. *)
Lemma kget_cons (x : elt) (v : list elt) (i : Z) :
  0 <= i -> kget (x :: v) (i + 1) = kget v i.
Proof.
  intros Hi; unfold kget. replace (Z.to_nat (i + 1)) with (S (Z.to_nat i)) by lia.
  reflexivity.
Qed.

Lemma kget_In (v : list elt) (y : elt) :
  In y v -> exists i, 0 <= i < Z.of_nat (length v) /\ kget v i = key y.
Proof.
  intros Hy. apply In_nth_error in Hy as [k Hk].
  exists (Z.of_nat k). split.
  - assert (k < length v)%nat by (apply nth_error_Some; congruence). lia.
  - unfold kget. now rewrite Nat2Z.id, Hk.
Qed.

Lemma sorted_on_StronglySorted (v : list elt) :
  sorted_on v 0 (Z.of_nat (length v)) -> StronglySorted le_key v.
Proof.
  induction v as [|x v IH]; intros Hs; constructor.
  - apply IH. intros i j Hi Hij Hj.
    rewrite <- (@kget_cons x v i), <- (@kget_cons x v j) by lia.
    apply Hs; simpl length in *; lia.
  - apply Forall_forall. intros y Hy.
    unfold le_key. destruct (kget_In _ _ Hy) as (i & Hi & <-).
    rewrite <- (@kget_cons x v i) by lia.
    change (key x) with (kget (x :: v) 0).
    apply Hs; simpl length in *; lia.
Qed.

Lemma spec_yield (a : ref) (v : list elt) (i : Info) Q :
  Q tt v [(v, i)] -> spec a v (yield a i) Q.
Proof.
  intros HQ h Hh. exists tt, v, h, [mkSnapshot a v i].
  unfold yield; rewrite Hh. repeat split; auto.
Qed.

(** Every generator starts with [a = arr.copy()]: the rest of its body works
    on the new object only. *)
Lemma gen_intro (rest : ref -> Gen unit) (v0 : list elt) (Q : list Frame -> Prop) :
  (forall a, spec a v0 (rest a) (fun _ _ t => Q t)) ->
  gen_spec (fun arr => a <- list_copy arr ;; rest a) v0 Q.
Proof.
  intros Hrest h arr Harr.
  assert (Hlt : (arr < length h)%nat) by (apply nth_error_Some; congruence).
  destruct (Hrest (length h) (h ++ [v0])) as (x & v' & h' & tr & E & _ & [FL F] & HQ).
  { rewrite nth_error_app2, Nat.sub_diag by lia. reflexivity. }
  exists h', tr. unfold bind, list_copy. rewrite Harr, E. destruct x.
  repeat split; auto.
  intros r Hr. rewrite F.
  - now apply nth_error_app1.
  - rewrite length_app; simpl; lia.
  - lia.
Qed.

(** Walking through straight-line code. *)
Ltac step :=
  lazymatch goal with
  | |- spec _ _ (bind (yield_copy _ _) _) _ => apply spec_bind, spec_yield_copy; cbv beta zeta
  | |- spec _ _ (bind (len _) _) _ => apply spec_bind, spec_len; cbv beta zeta
  | |- spec _ _ (bind (getslice _ _ _) _) _ => apply spec_bind, spec_getslice; cbv beta zeta
  | |- spec _ _ (bind (getitem _ _) _) _ =>
      apply spec_bind, spec_getitem; [|intros ? ?; cbv beta zeta]
  | |- spec _ _ (bind (item _ _) _) _ =>
      apply spec_bind, spec_item; [|intros ? ?; cbv beta zeta]
  | |- spec _ _ (getitem _ _) _ => apply spec_getitem; [|intros ? ?]
  | |- spec _ _ (bind (setitem _ _ _) _) _ =>
      apply spec_bind, spec_setitem; [|cbv beta zeta]
  | |- spec _ _ (bind (swap _ _ _) _) _ =>
      apply spec_bind, spec_swap; [| |cbv beta zeta]
  | |- spec _ _ (bind (ret _) _) _ => apply spec_bind, spec_ret; cbv beta zeta
  | |- spec _ _ (yield_copy _ _) _ => apply spec_yield_copy
  | |- spec _ _ (yield _ _) _ => apply spec_yield
  | |- spec _ _ (ret _) _ => apply spec_ret
  end.

Tactic Notation "step" "as" ident(x) ident(H) :=
  lazymatch goal with
  | |- spec _ _ (bind (getitem _ _) _) _ =>
      apply spec_bind, spec_getitem; [|intros x H; cbv beta zeta]
  | |- spec _ _ (bind (item _ _) _) _ =>
      apply spec_bind, spec_item; [|intros x H; cbv beta zeta]
  end.

Ltac frames_ok :=
  simpl; repeat constructor; simpl; unfold in_range, incl_of;
  rewrite ?length_vswap, ?length_upd; auto; try lia;
  try (unfold perm_of in *; eapply perm_trans; [apply Permutation_vswap|]; assumption);
  try (apply incl_replace_nth; auto).

Ltac forall_frames :=
  repeat match goal with
         | H : Forall _ (_ ++ _) |- _ => apply Forall_app in H; destruct H
         end;
  rewrite ?app_nil_r;
  repeat (apply Forall_app; split); auto; try frames_ok.

Lemma frame_ok_intro (n : Z) (R : list elt -> Prop) (v : list elt) (i : Info) :
  Z.of_nat (length v) = n -> Forall (in_range n) (active i) -> R v ->
  frame_ok n R (v, i).
Proof. intros; repeat split; auto. Qed.

(** ** bubble_sort *)

Lemma tail_ok_vswap (n m : Z) (v : list elt) (p q : Z) :
  Z.of_nat (length v) = n -> 0 <= p < m -> 0 <= q < m -> m <= n ->
  tail_ok n v m -> tail_ok n (vswap v p q) m.
Proof.
  intros Hn Hp Hq Hm [Hs Hd]; split.
  - intros i j Hi Hij Hj. rewrite !kget_vswap by lia.
    destruct (Z.eqb_spec i q), (Z.eqb_spec i p), (Z.eqb_spec j q), (Z.eqb_spec j p);
      try lia. apply Hs; lia.
  - intros i j Hi Hj. rewrite !kget_vswap by lia.
    destruct (Z.eqb_spec i q), (Z.eqb_spec i p), (Z.eqb_spec j q), (Z.eqb_spec j p);
      try lia; apply Hd; lia.
Qed.

Lemma bubble_inner_swap (v0 : list elt) (n m j : Z) (s : bool) (v : list elt) :
  Z.of_nat (length v0) = n -> 0 <= j -> j + 1 < m -> m <= n ->
  kget v j > kget v (j + 1) ->
  bubble_inner_inv v0 n m j s v [] ->
  bubble_inner_inv v0 n m (j + 1) true (vswap v j (j + 1)) [].
Proof.
  intros Hn Hj Hjm Hm Hgt (Hst & Ht & Hmax & _ & _).
  assert (Hl : Z.of_nat (length v) = n) by (destruct Hst as [-> _]; auto).
  unfold bubble_inner_inv; splits; auto.
  - now apply state_ok_vswap.
  - apply tail_ok_vswap; auto; lia.
  - intros p Hp. rewrite !kget_vswap by lia.
    destruct (Z.eqb_spec p (j + 1)), (Z.eqb_spec p j),
      (Z.eqb_spec (j + 1) (j + 1)); try lia.
    specialize (Hmax p). lia.
  - discriminate.
Qed.

Lemma bubble_inner_keep (v0 : list elt) (n m j : Z) (s : bool) (v : list elt) :
  0 <= j ->
  kget v j <= kget v (j + 1) ->
  bubble_inner_inv v0 n m j s v [] ->
  bubble_inner_inv v0 n m (j + 1) s v [].
Proof.
  intros Hj Hle (Hst & Ht & Hmax & Hs & _).
  unfold bubble_inner_inv; splits; auto.
  - intros p Hp. destruct (Z.eq_dec p (j + 1)) as [->|]; [lia|].
    specialize (Hmax p). lia.
  - intros E i k Hi Hik Hk. specialize (Hs E).
    destruct (Z.eq_dec k (j + 1)) as [->|].
    + destruct (Z.eq_dec i (j + 1)) as [->|]; [lia|].
      specialize (Hmax i). lia.
    + apply Hs; lia.
Qed.

Lemma bubble_inner_frames (v0 : list elt) (n m j : Z) (s : bool) (v : list elt)
    (t t' : list Frame) :
  bubble_inner_inv v0 n m j s v [] ->
  Forall (frame_ok n (perm_of v0)) t -> Forall (frame_ok n (perm_of v0)) t' ->
  bubble_inner_inv v0 n m j s v (t ++ t').
Proof.
  intros (Hst & Ht & Hmax & Hs & _) F F'. unfold bubble_inner_inv; splits; auto.
  apply Forall_app; auto.
Qed.

Lemma bubble_inner_drop (v0 : list elt) (n m j : Z) (s : bool) (v : list elt)
    (t : list Frame) :
  bubble_inner_inv v0 n m j s v t -> bubble_inner_inv v0 n m j s v [].
Proof.
  intros (Hst & Ht & Hmax & Hs & _). unfold bubble_inner_inv; splits; auto.
Qed.

(** After a pass: either nothing was swapped and the list is sorted, or the
    sorted tail has grown by one. *)
Lemma bubble_pass_end (v0 : list elt) (n i : Z) (s : bool) (v : list elt)
    (t : list Frame) :
  Z.of_nat (length v0) = n -> 0 <= i < n ->
  bubble_inner_inv v0 n (n - i) (n - i - 1) s v t ->
  if negb s then bubble_done v0 n v t else bubble_outer_inv v0 n (i + 1) v t.
Proof.
  intros Hn Hi (Hst & [Hts Htd] & Hmax & Hs & HF).
  destruct s; simpl.
  - unfold bubble_outer_inv, tail_ok; splits; auto.
    + intros p q Hp Hpq Hq.
      destruct (Z.eq_dec p (n - (i + 1))) as [->|].
      * destruct (Z.eq_dec q (n - (i + 1))) as [->|]; [lia|]. apply Htd; lia.
      * apply Hts; lia.
    + intros p q Hp Hq.
      destruct (Z.eq_dec q (n - (i + 1))) as [->|].
      * replace (n - (i + 1)) with (n - i - 1) by lia. apply Hmax; lia.
      * apply Htd; lia.
  - unfold bubble_done; splits; auto.
    specialize (Hs eq_refl). replace (n - i - 1 + 1) with (n - i) in Hs by lia.
    intros p q Hp Hpq Hq.
    destruct (Z_lt_dec q (n - i)).
    + apply Hs; lia.
    + destruct (Z_lt_dec p (n - i)).
      * apply Htd; lia.
      * apply Hts; lia.
Qed.

Lemma bubble_sort_spec (v0 : list elt) :
  gen_spec bubble_sort v0 (sort_post (perm_of v0) v0).
Proof.
  unfold bubble_sort. apply gen_intro. intros a.
  step. set (n := Z.of_nat (length v0)).
  destruct (Z.eqb_spec n 0) as [Hn0|Hn0].
  - assert (v0 = []) by (destruct v0; simpl in *; [auto|lia]). subst v0.
    step. exists [], [], []. simpl. splits; auto; [congruence|constructor].
  - step. apply spec_bind.
    eapply spec_weaken.
    { apply spec_for_break with (I := bubble_outer_inv v0 n) (D := bubble_done v0 n)
        (lo0 := 0) (k := Z.to_nat (n - 0)) (t := []); try lia.
      2:{ unfold bubble_outer_inv, tail_ok, sorted_on; splits; auto using state_ok_refl;
          intros; lia. }
      intros i v t Hi (Hst & Htl & HF).
      apply spec_bind. eapply spec_weaken.
      { apply spec_for_fold with (I := fun j s v t' => bubble_inner_inv v0 n (n - i) j s v t')
          (lo0 := 0) (k := Z.to_nat (n - i - 1 - 0)) (t := t); try lia.
        2:{ unfold bubble_inner_inv; splits; auto.
            - intros p Hp. replace p with 0 by lia. lia.
            - intros _ p q Hp Hpq Hq. replace p with 0 by lia. replace q with 0 by lia. lia. }
        intros j s w t1 Hj Hinv.
        assert (Hw : Z.of_nat (length w) = n)
          by (destruct Hinv as ([Hl _] & _); rewrite Hl; reflexivity).
        assert (HF1 : Forall (frame_ok n (perm_of v0)) t1) by apply Hinv.
        assert (Hpw : perm_of v0 w) by apply Hinv.
        apply bubble_inner_drop in Hinv.
        step. step as x Hx; [lia|]. step as y Hy; [lia|].
        apply nth_kget in Hx, Hy. rewrite <- Hx, <- Hy.
        destruct (Z.gtb_spec (kget w j) (kget w (j + 1))) as [Hgt|Hle].
        * step; [lia|lia|]. step. step.
          apply bubble_inner_frames; auto.
          -- apply bubble_inner_swap with (s := s); auto; lia.
          -- frames_ok.
        * step. apply bubble_inner_frames; auto.
          -- apply bubble_inner_keep; auto; lia.
          -- frames_ok. }
      intros s w t1 Hinv. cbv beta in Hinv. step.
      rewrite app_nil_r.
      replace (n - i - 1) with (n - i - 1) in Hinv by lia.
      apply (@bubble_pass_end v0 n i s w (t ++ t1)); auto. }
    intros [] v t HD. cbv beta in HD. step.
    assert (Hfin : bubble_done v0 n v t).
    { destruct HD as [HD|(Hst & [Hs _] & HF)]; auto.
      unfold bubble_done; splits; auto. now replace (n - n) with 0 in Hs by lia. }
    destruct Hfin as ([Hl HP] & Hs & HF).
    exists [(v0, info [] [])], t, v. splits; auto.
    apply sorted_on_StronglySorted. fold n in Hs |- *.
    rewrite Hl. exact Hs.
Qed.

(** ** selection_sort *)

Lemma vswap_same (v : list elt) (p : Z) : vswap v p p = v.
Proof.
  unfold vswap. destruct (nth_error v (Z.to_nat p)) as [x|] eqn:E; auto.
  unfold upd. now rewrite !(replace_nth_same _ _ E).
Qed.

Lemma sel_outer_next (v0 : list elt) (n i m : Z) (v : list elt) :
  Z.of_nat (length v0) = n -> 0 <= i < n ->
  sel_outer v0 n i v -> sel_inner n i n m v ->
  sel_outer v0 n (i + 1) (vswap v i m).
Proof.
  intros Hn Hi (Hst & Hs & Hd) (Hm & _ & Hmin).
  assert (Hl : Z.of_nat (length v) = n) by (destruct Hst as [-> _]; auto).
  unfold sel_outer; splits.
  - now apply state_ok_vswap.
  - intros p q Hp Hpq Hq. rewrite !kget_vswap by lia.
    destruct (Z.eqb_spec p m), (Z.eqb_spec p i), (Z.eqb_spec q m), (Z.eqb_spec q i);
      try lia; try (apply Hd; lia); apply Hs; lia.
  - intros p q Hp Hq. rewrite !kget_vswap by lia.
    destruct (Z.eqb_spec p m), (Z.eqb_spec p i), (Z.eqb_spec q m), (Z.eqb_spec q i);
      try lia; try (apply Hd; lia); try (apply Hmin; lia).
  replace i with m by lia. apply Hmin; lia.
Qed.

Lemma selection_sort_spec (v0 : list elt) :
  gen_spec selection_sort v0 (sort_post (perm_of v0) v0).
Proof.
  unfold selection_sort. apply gen_intro. intros a.
  step. set (n := Z.of_nat (length v0)).
  step. apply spec_bind. eapply spec_weaken.
  { apply spec_for_each with
      (I := fun i v t => sel_outer v0 n i v /\ Forall (frame_ok n (perm_of v0)) t)
      (lo := 0) (t := []); try lia.
    2:{ unfold sel_outer, sorted_on; splits; auto using state_ok_refl; intros; lia. }
    intros i v t Hi [Hout HF].
    assert (Hv : Z.of_nat (length v) = n)
      by (destruct Hout as ([Hl _] & _); rewrite Hl; reflexivity).
    assert (Hpv : perm_of v0 v) by apply Hout.
    apply spec_bind. eapply spec_weaken.
    { apply spec_for_fold with
        (I := fun j m w t' => w = v /\ sel_inner n i j m v /\
                              Forall (frame_ok n (perm_of v0)) t')
        (lo0 := i + 1) (k := Z.to_nat (n - (i + 1))) (t := t); try lia.
      2:{ unfold sel_inner; splits; auto; try lia.
          intros p Hp. replace p with i by lia. lia. }
      intros j m w t1 Hj (-> & (Hm & Hmn & Hmin) & HF1).
      step. step as x Hx; [lia|]. step as y Hy; [lia|].
      apply nth_kget in Hx, Hy. rewrite <- Hx, <- Hy.
      destruct (Z.ltb_spec (kget v j) (kget v m)) as [Hlt|Hge].
      - step. step. unfold sel_inner; splits; auto; try lia.
        + intros p Hp. destruct (Z.eq_dec p j) as [->|]; [lia|].
          specialize (Hmin p). lia.
        + apply Forall_app; split; auto. frames_ok.
      - step. unfold sel_inner; splits; auto; try lia.
        + intros p Hp. destruct (Z.eq_dec p j) as [->|]; [lia|].
          apply Hmin; lia.
        + forall_frames. }
    intros m w t1 (-> & Hin & HF1). cbv beta.
    destruct (Z.eqb_spec i m) as [<-|Him]; simpl.
    - step. rewrite app_nil_r. split; auto.
      rewrite <- (vswap_same v i). apply sel_outer_next; auto.
    - assert (Hmr : i <= m < n) by (destruct Hin as (? & ? & _); lia).
      step; [lia|lia|]. step. split.
      + apply sel_outer_next; auto.
      + forall_frames. }
  intros [] v t [(Hst & Hs & _) HF]. cbv beta. step.
  exists [(v0, info [] [])], t, v. splits; auto.
  - apply Hst.
  - apply sorted_on_StronglySorted. destruct Hst as [Hl _]. rewrite Hl. exact Hs.
Qed.

(** ** insertion_sort *)

Lemma ins_hole_init (v0 : list elt) (i : Z) (keyv : elt) (v : list elt) :
  1 <= i < Z.of_nat (length v0) ->
  ins_outer v0 i v -> nth_error v (Z.to_nat i) = Some keyv ->
  ins_hole v0 i keyv (i - 1) v.
Proof.
  intros Hi ([Hl HP] & Hs) Hk.
  assert (Hin : incl v v0) by (intros z Hz; eapply Permutation_in; eauto).
  unfold ins_hole; splits; auto; try lia.
  - unfold upd. replace (i - 1 + 1) with i by lia. now rewrite replace_nth_same.
  - apply Hin. eapply nth_error_In; eauto.
  - intros p q Hp Hpq Hq Hp' Hq'. apply Hs; lia.
Qed.

Lemma ins_hole_shift (v0 : list elt) (i : Z) (keyv x : elt) (j : Z) (w : list elt) :
  i < Z.of_nat (length v0) -> 0 <= j ->
  nth_error w (Z.to_nat j) = Some x -> key keyv < key x ->
  ins_hole v0 i keyv j w ->
  ins_hole v0 i keyv (j - 1) (upd w (j + 1) x).
Proof.
  intros Hi Hj Hx Hlt (Hji & Hl & HP & Hin & Hk & Hs & Hgt).
  assert (Hxj : kget w j = key x) by now apply nth_kget.
  assert (Hlen : Z.of_nat (length w) = Z.of_nat (length v0)) by now rewrite Hl.
  unfold ins_hole; splits; auto; try lia.
  - now rewrite length_upd.
  - replace (j - 1 + 1) with j by lia.
    eapply perm_trans; [|exact HP]. unfold upd.
    rewrite <- (replace_nth_twice (Z.to_nat (j + 1)) x keyv w).
    apply Permutation_swap_nth.
    + apply nth_error_replace_nth_eq. lia.
    + rewrite nth_error_replace_nth_neq by lia. exact Hx.
  - apply incl_replace_nth; auto. apply Hin. eapply nth_error_In; eauto.
  - intros p q Hp Hpq Hq Hp' Hq'.
    destruct (Z.eq_dec p (j + 1)) as [->|Hp1], (Z.eq_dec q (j + 1)) as [->|Hq1].
    + lia.
    + rewrite kget_upd_eq, kget_upd_neq by lia. rewrite <- Hxj. apply Hs; lia.
    + rewrite kget_upd_eq, kget_upd_neq by lia. rewrite <- Hxj. apply Hs; lia.
    + rewrite !kget_upd_neq by lia. apply Hs; lia.
  - intros q Hq. destruct (Z.eq_dec q (j + 1)) as [->|Hq1].
    + rewrite kget_upd_eq by lia. lia.
    + rewrite kget_upd_neq by lia. apply Hgt; lia.
Qed.

Lemma ins_hole_place (v0 : list elt) (i : Z) (keyv : elt) (j : Z) (w : list elt) :
  i < Z.of_nat (length v0) ->
  ins_hole v0 i keyv j w -> (j < 0 \/ kget w j <= key keyv) ->
  ins_outer v0 (i + 1) (upd w (j + 1) keyv).
Proof.
  intros Hi (Hji & Hl & HP & Hin & Hk & Hs & Hgt) Hex.
  assert (Hlen : Z.of_nat (length w) = Z.of_nat (length v0)) by now rewrite Hl.
  unfold ins_outer, state_ok; splits; auto.
  - now rewrite length_upd.
  - intros p q Hp Hpq Hq.
    destruct (Z.eq_dec p (j + 1)) as [->|Hp1], (Z.eq_dec q (j + 1)) as [->|Hq1].
    + lia.
    + rewrite kget_upd_eq, kget_upd_neq by lia. specialize (Hgt q). lia.
    + rewrite kget_upd_eq, kget_upd_neq by lia.
      destruct Hex as [Hex|Hex]; [lia|].
      specialize (Hs p j). lia.
    + rewrite !kget_upd_neq by lia. apply Hs; lia.
Qed.

Lemma ins_outer_incl (v0 : list elt) (i : Z) (v : list elt) :
  ins_outer v0 i v -> incl_of v0 v.
Proof.
  intros ([_ HP] & _) z Hz. eapply Permutation_in; eauto.
Qed.

Lemma insertion_sort_spec (v0 : list elt) (fuel : nat) :
  (length v0 <= fuel)%nat ->
  gen_spec (insertion_sort fuel) v0 (sort_post (incl_of v0) v0).
Proof.
  intros Hfuel. unfold insertion_sort. apply gen_intro. intros a.
  step. set (n := Z.of_nat (length v0)).
  step. apply spec_bind.
  assert (Hloop : spec a v0
    (for_each (range 1 n) (fun i =>
       keyv <- getitem a i ;;
       j <- while fuel
              (fun j => if j >=? 0 then x <- getitem a j ;; ret (key x >? key keyv)
                        else ret false)
              (fun j =>
                 yield_copy a (info [j; j + 1] (range (i + 1) n)) ;;
                 x <- getitem a j ;;
                 setitem a (j + 1) x ;;
                 let j := j - 1 in
                 yield_copy a (info [j + 1] (range (i + 1) n)) ;;
                 ret j)
              (i - 1) ;;
       setitem a (j + 1) keyv ;;
       yield_copy a (info [j + 1] (range (i + 1) n))))
    (fun _ v t => (ins_outer v0 n v \/ n = 0 /\ v = v0) /\
                  Forall (frame_ok n (incl_of v0)) t)).
  { destruct (Z_le_dec 1 n) as [Hn|Hn].
    2:{ rewrite range_nil by lia. unfold for_each; simpl. step. split; auto.
        right; split; auto. lia. }
    eapply spec_weaken.
    { apply spec_for_each with
        (I := fun i v t => ins_outer v0 i v /\ Forall (frame_ok n (incl_of v0)) t)
        (lo := 1) (t := []); try lia.
      2:{ unfold ins_outer, sorted_on; splits; auto using state_ok_refl.
          intros i j ? ? ?. replace i with 0 by lia. replace j with 0 by lia. lia. }
      intros i v t Hi [Hout HF].
      assert (Hv : Z.of_nat (length v) = n)
        by (destruct Hout as ([Hl _] & _); rewrite Hl; reflexivity).
      step as keyv Hk; [lia|].
      apply spec_bind. eapply spec_weaken.
      { apply spec_while with
          (I := fun j w t' => ins_hole v0 i keyv j w /\ Forall (frame_ok n (incl_of v0)) t')
          (mu := fun j => Z.to_nat (j + 1))
          (Q := fun j w t' => (ins_hole v0 i keyv j w /\ (j < 0 \/ kget w j <= key keyv)) /\
                              Forall (frame_ok n (incl_of v0)) t')
          (t := t); try lia.
        2:{ split; auto. apply ins_hole_init; auto. }
        intros j w t1 [Hh HF1].
        assert (Hw : Z.of_nat (length w) = n)
          by (destruct Hh as (_ & Hl & _); rewrite Hl; reflexivity).
        assert (Hjr : -1 <= j < i) by apply Hh.
        assert (Hiw : incl w v0) by apply Hh.
        destruct (Z.geb_spec j 0) as [Hj|Hj].
        - step as x Hx; [lia|]. step. splits; auto.
          destruct (Z.gtb_spec (key x) (key keyv)) as [Hgt|Hle].
          + step. step as x' Hx'; [lia|].
            assert (x' = x) by congruence. subst x'.
            step; [lia|]. step. step. split; [|lia]. split.
            * apply ins_hole_shift; auto; fold n; lia.
            * assert (In x v0) by (apply Hiw; eapply nth_error_In; eauto).
              forall_frames.
          + splits; auto. right. rewrite (nth_kget _ _ Hx). lia.
        - step. splits; auto. }
      intros j w t1 [[Hh Hex] HF1]. cbv beta.
      assert (Hjr : -1 <= j < i) by apply Hh.
      assert (Hw : Z.of_nat (length w) = n)
        by (destruct Hh as (_ & Hl & _); rewrite Hl; reflexivity).
      step; [lia|]. step. split.
      + apply ins_hole_place; auto. fold n; lia.
      + assert (incl w v0) by apply Hh. assert (In keyv v0) by apply Hh.
        forall_frames. }
    intros [] v t [Hout HF]. cbv beta. split; auto. }
  eapply spec_weaken; [exact Hloop|].
  intros [] v t [Hout HF]. cbv beta. step.
  exists [(v0, info [] [])], t, v. clear Hloop. splits; auto.
  - destruct Hout as [([_ HP] & _)|[_ ->]]; auto.
  - destruct Hout as [([Hl _] & Hs)|[Hn ->]].
    + apply sorted_on_StronglySorted. rewrite Hl. exact Hs.
    + destruct v0; [constructor|simpl length in n; lia].
Qed.

(** ** quick_sort *)

Lemma within_refl (v : list elt) (low high : Z) : within v v low high.
Proof. split; eauto. Qed.

Lemma within_vswap (v w : list elt) (low high p q : Z) :
  0 <= low -> high < Z.of_nat (length w) ->
  low <= p <= high -> low <= q <= high ->
  within v w low high -> within v (vswap w p q) low high.
Proof.
  intros Hl Hh Hp Hq [Ho Hi]; split.
  - intros r Hr Hout. rewrite kget_vswap by lia.
    destruct (Z.eqb_spec r q), (Z.eqb_spec r p); try lia. now apply Ho.
  - intros r Hr. rewrite kget_vswap by lia.
    destruct (Z.eqb_spec r q), (Z.eqb_spec r p); apply Hi; lia.
Qed.

Lemma scan_inv_swap (v0 v : list elt) (low high pk j i : Z) (w : list elt) :
  0 <= low -> high < Z.of_nat (length w) -> low <= j < high ->
  kget w j < pk ->
  scan_inv v0 v low high pk j i w ->
  scan_inv v0 v low high pk (j + 1) (i + 1) (vswap w i j).
Proof.
  intros Hl Hh Hj Hlt (Hi & Hst & Hw & Hp & Hlo & Hhi).
  unfold scan_inv; splits; try lia.
  - now apply state_ok_vswap.
  - apply within_vswap; auto; lia.
  - rewrite kget_vswap by lia.
    destruct (Z.eqb_spec high j), (Z.eqb_spec high i); lia.
  - intros p Hpr. rewrite kget_vswap by lia.
    destruct (Z.eqb_spec p j), (Z.eqb_spec p i); try lia.
    + replace i with j by lia. lia.
    + apply Hlo; lia.
  - intros p Hpr. rewrite kget_vswap by lia.
    destruct (Z.eqb_spec p j), (Z.eqb_spec p i); try lia; apply Hhi; lia.
Qed.

Lemma scan_inv_keep (v0 v : list elt) (low high pk j i : Z) (w : list elt) :
  pk <= kget w j ->
  scan_inv v0 v low high pk j i w ->
  scan_inv v0 v low high pk (j + 1) i w.
Proof.
  intros Hge (Hi & Hst & Hw & Hp & Hlo & Hhi).
  unfold scan_inv; splits; auto; try lia.
  intros p Hpr. destruct (Z.eq_dec p j) as [->|]; auto. apply Hhi; lia.
Qed.

Lemma scan_inv_done (v0 v : list elt) (low high pk i : Z) (w : list elt) :
  0 <= low -> high < Z.of_nat (length w) -> low <= high ->
  scan_inv v0 v low high pk high i w ->
  state_ok v0 (vswap w i high) /\ within v (vswap w i high) low high /\
  partitioned (vswap w i high) low i high.
Proof.
  intros Hl Hh Hlh (Hi & Hst & Hw & Hp & Hlo & Hhi). splits.
  - now apply state_ok_vswap.
  - apply within_vswap; auto; lia.
  - assert (Hpi : kget (vswap w i high) i = pk).
    { rewrite kget_vswap by lia.
      destruct (Z.eqb_spec i high) as [->|]; auto. now rewrite Z.eqb_refl. }
    unfold partitioned; splits; try lia; intros p Hpr; rewrite Hpi.
    + rewrite kget_vswap by lia.
      destruct (Z.eqb_spec p high), (Z.eqb_spec p i); try lia. apply Hlo; lia.
    + rewrite kget_vswap by lia.
      destruct (Z.eqb_spec p high), (Z.eqb_spec p i); try lia;
        try (apply Hhi; lia). replace i with high by lia. lia.
Qed.

Lemma quick_inv_skip (v0 : list elt) (n low high : Z) (rest : list (Z * Z))
    (v : list elt) :
  high <= low ->
  quick_inv v0 n ((low, high) :: rest) v -> quick_inv v0 n rest v.
Proof.
  intros Hlh (Hst & Hb & [_ Hd] & Hp).
  unfold quick_inv; splits; auto.
  - intros lo hi Hin. apply Hb. now right.
  - intros p q H0 Hpq Hq. destruct (Hp p q H0 Hpq Hq) as [Hle|(lo & hi & Hin & H1 & H2)].
    + now left.
    + destruct Hin as [E|Hin]; [injection E as <- <-; lia|].
      right. exists lo, hi. auto.
Qed.

Lemma quick_inv_step (v0 : list elt) (n low high i : Z) (rest : list (Z * Z))
    (v w : list elt) :
  low < high ->
  quick_inv v0 n ((low, high) :: rest) v ->
  state_ok v0 w -> within v w low high -> partitioned w low i high ->
  quick_inv v0 n ((i + 1, high) :: (low, i - 1) :: rest) w.
Proof.
  intros Hlh (Hst & Hb & [Hd1 Hd] & Hp) Hstw [Hout Hin] (Hi & Hlt & Hge).
  assert (Hr : 0 <= low /\ high < n) by (apply Hb; now left).
  unfold quick_inv; splits; auto.
  - intros lo hi [E|[E|Hr']].
    + injection E as <- <-. lia.
    + injection E as <- <-. lia.
    + apply Hb. now right.
  - simpl. splits; auto.
    + intros lo' hi' p [E|Hr'] Hpr.
      * injection E as <- <-. lia.
      * apply (Hd1 lo' hi' p Hr'). lia.
    + intros lo' hi' p Hr' Hpr. apply (Hd1 lo' hi' p Hr'). lia.
  - intros p q H0 Hpq Hq.
    destruct (Z_le_dec low p) as [Hlp|Hlp], (Z_le_dec q high) as [Hqh|Hqh].
    + (* both inside the range *)
      destruct (Z_le_dec q (i - 1)).
      { right. exists low, (i - 1). simpl; auto. }
      destruct (Z_le_dec (i + 1) p).
      { right. exists (i + 1), high. simpl; auto. }
      left. destruct (Z.eq_dec p i) as [->|].
      * apply Hge; lia.
      * specialize (Hlt p). specialize (Hge q). lia.
    + (* p inside, q beyond high *)
      destruct (Z_le_dec p high) as [Hph|Hph].
      * destruct (Hin p) as (p' & Hp' & ->); [lia|].
        rewrite (Hout q) by lia.
        destruct (Hp p' q) as [Hle|(lo & hi & Hc & H1 & H2)]; try lia; auto.
        destruct Hc as [E|Hc]; [injection E as <- <-; lia|].
        exfalso. apply (Hd1 lo hi p' Hc); lia.
      * rewrite (Hout p), (Hout q) by lia.
        destruct (Hp p q) as [Hle|(lo & hi & Hc & H1 & H2)]; try lia; auto.
        destruct Hc as [E|Hc]; [injection E as <- <-; lia|].
        right. exists lo, hi. simpl; auto.
    + (* p before low, q inside or before *)
      destruct (Z_le_dec low q) as [Hlq|Hlq].
      * destruct (Hin q) as (q' & Hq' & ->); [lia|].
        rewrite (Hout p) by lia.
        destruct (Hp p q') as [Hle|(lo & hi & Hc & H1 & H2)]; try lia; auto.
        destruct Hc as [E|Hc]; [injection E as <- <-; lia|].
        exfalso. apply (Hd1 lo hi q' Hc); lia.
      * rewrite (Hout p), (Hout q) by lia.
        destruct (Hp p q) as [Hle|(lo & hi & Hc & H1 & H2)]; try lia; auto.
        destruct Hc as [E|Hc]; [injection E as <- <-; lia|].
        right. exists lo, hi. simpl; auto.
    + (* p before low, q beyond high *)
      rewrite (Hout p), (Hout q) by lia.
      destruct (Hp p q) as [Hle|(lo & hi & Hc & H1 & H2)]; try lia; auto.
      destruct Hc as [E|Hc]; [injection E as <- <-; lia|].
      right. exists lo, hi. simpl; auto.
Qed.

Lemma quick_inv_init (v0 : list elt) (n : Z) :
  n = Z.of_nat (length v0) -> quick_inv v0 n [(0, n - 1)] v0.
Proof.
  intros Hn. unfold quick_inv; splits; auto using state_ok_refl.
  - intros lo hi [E|[]]. injection E as <- <-. lia.
  - simpl; auto.
  - intros p q H0 Hpq Hq. right. exists 0, (n - 1). simpl. splits; auto; lia.
Qed.

Lemma quick_inv_sorted (v0 : list elt) (n : Z) (w : list elt) :
  quick_inv v0 n [] w -> sorted_on w 0 n.
Proof.
  intros (_ & _ & _ & Hp) p q H0 Hpq Hq.
  destruct (Z.eq_dec p q) as [->|]; [lia|].
  destruct (Hp p q) as [Hle|(lo & hi & [] & _)]; auto; lia.
Qed.

(** One partition step on a proper range inside the list. *)
Lemma quick_step_spec (a : ref) (v0 v : list elt) (low high : Z) (rest : list (Z * Z)) :
  state_ok v0 v -> 0 <= low -> low < high -> high < Z.of_nat (length v0) ->
  spec a v (quick_step a ((low, high) :: rest))
    (fun st' w t => exists i t0,
       st' = (i + 1, high) :: (low, i - 1) :: rest /\
       t = t0 ++ [(w, info_label [i; high] "pivot placed")] /\
       Forall (frame_ok (Z.of_nat (length v0)) (perm_of v0)) t /\
       state_ok v0 w /\ within v w low high /\ partitioned w low i high).
Proof.
  intros Hst Hl Hlh Hh. set (n := Z.of_nat (length v0)) in *.
  assert (Hv : Z.of_nat (length v) = n) by (destruct Hst as [-> _]; auto).
  unfold quick_step. destruct (Z.geb_spec low high) as [Hge|_]; [lia|].
  step as pivot Hpiv; [lia|]. apply nth_kget in Hpiv.
  apply spec_bind. eapply spec_weaken.
  { apply spec_for_fold with
      (I := fun j i w t => scan_inv v0 v low high (key pivot) j i w /\
                           Forall (frame_ok n (perm_of v0)) t)
      (lo0 := low) (k := Z.to_nat (high - low)) (t := []); try lia.
    2:{ unfold scan_inv; splits; auto using within_refl; try lia; intros; lia. }
    intros j i w t Hj [Hsc HF].
    assert (Hw : Z.of_nat (length w) = n)
      by (destruct Hsc as (_ & [Hlw _] & _); rewrite Hlw; auto).
    assert (Hpw : perm_of v0 w) by apply Hsc.
    assert (Hij : low <= i <= j) by apply Hsc.
    step. step as x Hx; [lia|]. apply nth_kget in Hx. rewrite <- Hx.
    destruct (Z.ltb_spec (kget w j) (key pivot)) as [Hlt|Hge].
    - step; [lia|lia|]. step. step. split.
      + apply scan_inv_swap; auto; lia.
      + forall_frames.
    - step. split.
      + apply scan_inv_keep; auto.
      + forall_frames. }
  intros i w t [Hsc HF]. cbv beta.
  assert (Hw : Z.of_nat (length w) = n)
    by (destruct Hsc as (_ & [Hlw _] & _); rewrite Hlw; auto).
  assert (Hpw : perm_of v0 w) by apply Hsc.
  assert (Hij : low <= i <= high) by apply Hsc.
  destruct (scan_inv_done (v0 := v0) (v := v) (low := low) (high := high)
              (pk := key pivot) (i := i) (w := w)) as (Hst' & Hw' & Hpart); auto; try lia.
  step; [lia|lia|]. step. step.
  exists i, t. splits; auto.
  simpl in HF. forall_frames.
Qed.

Lemma stack_measure_skip (low high : Z) (rest : list (Z * Z)) :
  (stack_measure rest < stack_measure ((low, high) :: rest))%nat.
Proof. simpl. lia. Qed.

Lemma stack_measure_step (low high i : Z) (rest : list (Z * Z)) :
  low < high -> low <= i <= high ->
  (stack_measure (((i + 1)%Z, high) :: (low, (i - 1)%Z) :: rest)
   < stack_measure ((low, high) :: rest))%nat.
Proof. intros; simpl. lia. Qed.

(** The [while stack:] loop empties the stack and leaves the list sorted. *)
Lemma quick_loop_spec (a : ref) (v0 : list elt) (fuel : nat) :
  (2 * length v0 + 2 <= fuel)%nat ->
  spec a v0 (quick_loop fuel a [(0, Z.of_nat (length v0) - 1)])
    (fun st w t => st = [] /\ state_ok v0 w /\
       sorted_on w 0 (Z.of_nat (length v0)) /\
       Forall (frame_ok (Z.of_nat (length v0)) (perm_of v0)) t).
Proof.
  intros Hfuel. set (n := Z.of_nat (length v0)). unfold quick_loop.
  eapply spec_weaken.
  { apply spec_while with
      (I := fun st w t => quick_inv v0 n st w /\ Forall (frame_ok n (perm_of v0)) t)
      (mu := stack_measure)
      (Q := fun st w t => st = [] /\ quick_inv v0 n st w /\
                          Forall (frame_ok n (perm_of v0)) t)
      (t := []).
    - intros st w t [Hinv HF]. step. splits; auto.
      destruct st as [|[low high] rest]; simpl; [auto|].
      destruct (Z_lt_dec low high) as [Hlh|Hlh].
      + assert (Hr : 0 <= low /\ high < n) by (apply Hinv; now left).
        eapply spec_weaken.
        { apply quick_step_spec with (v0 := v0); try apply Hinv; try lia. }
        intros st' w' t' (i & t0 & -> & _ & HF' & Hst' & Hw' & Hpart). cbv beta.
        split; [split|].
        * eapply quick_inv_step; eauto.
        * forall_frames.
        * apply stack_measure_step; auto. apply Hpart.
      + unfold quick_step. destruct (Z.geb_spec low high) as [_|Hlt]; [|lia].
        step. split; [split|].
        * eapply quick_inv_skip; eauto. lia.
        * forall_frames.
        * apply stack_measure_skip.
    - simpl. unfold n. lia.
    - split; auto. now apply quick_inv_init. }
  intros st w t (-> & Hinv & HF). cbv beta. splits; auto.
  - apply Hinv.
  - eapply quick_inv_sorted; eauto.
Qed.

Lemma quick_sort_spec (v0 : list elt) (fuel : nat) :
  (2 * length v0 + 2 <= fuel)%nat ->
  gen_spec (quick_sort fuel) v0 (sort_post (perm_of v0) v0).
Proof.
  intros Hfuel. unfold quick_sort. apply gen_intro. intros a.
  step. set (n := Z.of_nat (length v0)).
  destruct (Z.eqb_spec n 0) as [Hn0|Hn0].
  - assert (v0 = []) by (destruct v0; simpl in *; [auto|lia]). subst v0.
    step. exists [], [], []. simpl. splits; auto; [congruence|constructor].
  - step. apply spec_bind. eapply spec_weaken; [apply quick_loop_spec; auto|].
    intros st w t (_ & [Hl HP] & Hs & HF). cbv beta. step.
    exists [(v0, info [] [])], t, w. splits; auto.
    apply sorted_on_StronglySorted. rewrite Hl. exact Hs.
Qed.

(** ** Stable sorting of lists *)

Lemma merge_lists_nil_l (R : list elt) : merge_lists [] R = R.
Proof. destruct R; reflexivity. Qed.

Lemma merge_lists_nil_r (L : list elt) : merge_lists L [] = L.
Proof. destruct L; reflexivity. Qed.

Lemma merge_lists_cons (x y : elt) (L R : list elt) :
  merge_lists (x :: L) (y :: R) =
    if key x <=? key y then x :: merge_lists L (y :: R)
    else y :: merge_lists (x :: L) R.
Proof. reflexivity. Qed.

Lemma key_filter_app (k : Z) (l1 l2 : list elt) :
  key_filter k (l1 ++ l2) = key_filter k l1 ++ key_filter k l2.
Proof. apply filter_app. Qed.

Lemma key_filter_cons (k : Z) (x : elt) (l : list elt) :
  key_filter k (x :: l) = if key x =? k then x :: key_filter k l else key_filter k l.
Proof. reflexivity. Qed.

Lemma key_filter_above (k : Z) (l : list elt) :
  Forall (fun y => k < key y) l -> key_filter k l = [].
Proof.
  induction 1 as [|y l Hy _ IH]; auto.
  rewrite key_filter_cons, IH. destruct (Z.eqb_spec (key y) k); auto; lia.
Qed.

Lemma insert_filter (k : Z) (x : elt) (l : list elt) :
  key_filter k (insert x l) = key_filter k (x :: l).
Proof.
  induction l as [|y l IH]; simpl; auto.
  destruct (Z.leb_spec (key x) (key y)) as [Hle|Hlt]; auto.
  rewrite key_filter_cons, IH, !key_filter_cons.
  destruct (Z.eqb_spec (key y) k), (Z.eqb_spec (key x) k); auto; lia.
Qed.

Lemma stable_sort_filter (k : Z) (l : list elt) :
  key_filter k (stable_sort l) = key_filter k l.
Proof.
  induction l as [|x l IH]; simpl; auto.
  now rewrite insert_filter, !key_filter_cons, IH.
Qed.

Lemma insert_perm (x : elt) (l : list elt) : Permutation (insert x l) (x :: l).
Proof.
  induction l as [|y l IH]; simpl; auto.
  destruct (key x <=? key y); auto.
  eapply perm_trans; [apply perm_skip, IH|apply perm_swap].
Qed.

Lemma stable_sort_perm (l : list elt) : Permutation (stable_sort l) l.
Proof.
  induction l as [|x l IH]; simpl; auto.
  eapply perm_trans; [apply insert_perm|now apply perm_skip].
Qed.

Lemma stable_sort_length (l : list elt) : length (stable_sort l) = length l.
Proof. apply Permutation_length, stable_sort_perm. Qed.

Lemma insert_sorted (x : elt) (l : list elt) :
  StronglySorted le_key l -> StronglySorted le_key (insert x l).
Proof.
  induction 1 as [|y l Hs IH Hy]; simpl.
  - repeat constructor.
  - destruct (Z.leb_spec (key x) (key y)) as [Hle|Hlt].
    + constructor; [constructor; auto|].
      constructor; auto. eapply Forall_impl; [|exact Hy].
      unfold le_key; intros; lia.
    + constructor; auto.
      eapply Permutation_Forall; [symmetry; apply insert_perm|].
      constructor; auto. unfold le_key; lia.
Qed.

Lemma stable_sort_sorted (l : list elt) : StronglySorted le_key (stable_sort l).
Proof.
  induction l as [|x l IH]; simpl; [constructor|now apply insert_sorted].
Qed.

Lemma merge_lists_perm (L R : list elt) : Permutation (merge_lists L R) (L ++ R).
Proof.
  revert R; induction L as [|x L IHL]; intros R.
  - now rewrite merge_lists_nil_l.
  - induction R as [|y R IHR].
    + now rewrite merge_lists_nil_r, app_nil_r.
    + rewrite merge_lists_cons. destruct (key x <=? key y).
      * simpl. apply perm_skip, IHL.
      * eapply perm_trans; [apply perm_skip, IHR|].
        change (Permutation (y :: (x :: L) ++ R) ((x :: L) ++ y :: R)).
        apply Permutation_middle.
Qed.

Lemma merge_lists_sorted (L R : list elt) :
  StronglySorted le_key L -> StronglySorted le_key R ->
  StronglySorted le_key (merge_lists L R).
Proof.
  revert R; induction L as [|x L IHL]; intros R HL HR.
  - now rewrite merge_lists_nil_l.
  - induction R as [|y R IHR].
    + now rewrite merge_lists_nil_r.
    + rewrite merge_lists_cons.
      inversion HL as [|? ? HL' HxL]; subst. inversion HR as [|? ? HR' HyR]; subst.
      destruct (Z.leb_spec (key x) (key y)) as [Hle|Hlt].
      * constructor; [apply IHL; auto|].
        eapply Permutation_Forall; [symmetry; apply merge_lists_perm|].
        apply Forall_app; split; auto. constructor; auto.
        eapply Forall_impl; [|exact HyR]. unfold le_key; intros; lia.
      * constructor; [apply IHR; auto|].
        eapply Permutation_Forall; [symmetry; apply merge_lists_perm|].
        apply Forall_app; split; auto. constructor; [unfold le_key; lia|].
        eapply Forall_impl; [|exact HxL]. unfold le_key; intros; lia.
Qed.

(** Taking from the left on ties keeps the elements of each key in the order
    "left list first". *)
Lemma merge_lists_filter (k : Z) (L R : list elt) :
  StronglySorted le_key L ->
  key_filter k (merge_lists L R) = key_filter k L ++ key_filter k R.
Proof.
  revert R; induction L as [|x L IHL]; intros R HL.
  - now rewrite merge_lists_nil_l.
  - induction R as [|y R IHR].
    + now rewrite merge_lists_nil_r, app_nil_r.
    + rewrite merge_lists_cons.
      inversion HL as [|? ? HL' HxL]; subst.
      destruct (Z.leb_spec (key x) (key y)) as [Hle|Hlt].
      * rewrite !key_filter_cons, IHL by auto. rewrite key_filter_cons.
        destruct (Z.eqb_spec (key x) k); auto.
      * rewrite key_filter_cons, IHR. rewrite (key_filter_cons k y R).
        destruct (Z.eqb_spec (key y) k) as [E|]; auto.
        rewrite key_filter_above; auto.
        constructor; [lia|].
        eapply Forall_impl; [|exact HxL]. unfold le_key; intros; lia.
Qed.

(** A sorted list is determined by its elements of each key, in order. *)
Lemma sorted_filter_unique (l1 l2 : list elt) :
  StronglySorted le_key l1 -> StronglySorted le_key l2 ->
  (forall k, key_filter k l1 = key_filter k l2) -> l1 = l2.
Proof.
  intros H1; revert l2; induction H1 as [|x l1 Hs1 IH Hx]; intros l2 H2 Hf.
  - destruct l2 as [|y l2]; auto.
    specialize (Hf (key y)). rewrite key_filter_cons, Z.eqb_refl in Hf. discriminate.
  - destruct H2 as [|y l2 Hs2 Hy].
    { specialize (Hf (key x)). rewrite key_filter_cons, Z.eqb_refl in Hf. discriminate. }
    assert (Hxy : key x = key y).
    { assert (In x (y :: l2)).
      { assert (In x (key_filter (key x) (y :: l2))).
        { rewrite <- Hf, key_filter_cons, Z.eqb_refl. now left. }
        unfold key_filter in *. apply filter_In in H. tauto. }
      assert (In y (x :: l1)).
      { assert (In y (key_filter (key y) (x :: l1))).
        { rewrite Hf, key_filter_cons, Z.eqb_refl. now left. }
        unfold key_filter in *. apply filter_In in H0. tauto. }
      rewrite Forall_forall in Hx, Hy. unfold le_key in *.
      destruct H as [->|Hin1]; auto. destruct H0 as [->|Hin2]; auto.
      specialize (Hx _ Hin2). specialize (Hy _ Hin1). lia. }
    assert (Hh := Hf (key x)).
    rewrite !key_filter_cons, Z.eqb_refl in Hh.
    rewrite <- Hxy, Z.eqb_refl in Hh. injection Hh as <- Ht.
    f_equal. apply IH; auto.
    intros k. specialize (Hf k). rewrite !key_filter_cons in Hf.
    destruct (Z.eqb_spec (key x) k); auto. congruence.
Qed.

Lemma merge_stable_sort (s1 s2 : list elt) :
  merge_lists (stable_sort s1) (stable_sort s2) = stable_sort (s1 ++ s2).
Proof.
  apply sorted_filter_unique.
  - apply merge_lists_sorted; apply stable_sort_sorted.
  - apply stable_sort_sorted.
  - intros k. rewrite merge_lists_filter by apply stable_sort_sorted.
    now rewrite !stable_sort_filter, key_filter_app.
Qed.

(** ** merge_sort *)

Lemma clamp_in_range (n : nat) (i : Z) : 0 <= i <= Z.of_nat n -> clamp n i = Z.to_nat i.
Proof.
  intros Hi; unfold clamp. destruct (Z.ltb_spec i 0); [lia|].
  rewrite Z.min_l by lia. reflexivity.
Qed.

Lemma slice_segment (pre seg post : list elt) (lo hi : Z) :
  lo = Z.of_nat (length pre) -> hi = lo + Z.of_nat (length seg) ->
  slice (pre ++ seg ++ post) lo hi = seg.
Proof.
  intros -> ->. unfold slice.
  rewrite !clamp_in_range by (rewrite !length_app; lia).
  replace (Z.to_nat (Z.of_nat (length pre) + Z.of_nat (length seg)) -
           Z.to_nat (Z.of_nat (length pre)))%nat with (length seg) by lia.
  rewrite Nat2Z.id, skipn_app, skipn_all, Nat.sub_diag. simpl.
  rewrite firstn_app, firstn_all, Nat.sub_diag. simpl. apply app_nil_r.
Qed.

Lemma replace_nth_app_r (A : Type) (l1 l2 : list A) (k : nat) (x : A) :
  replace_nth (length l1 + k) x (l1 ++ l2) = l1 ++ replace_nth k x l2.
Proof. induction l1 as [|y l1 IH]; simpl; auto. now rewrite IH. Qed.

Lemma skipn_nth_error (A : Type) (l : list A) (m : nat) (y : A) :
  nth_error l m = Some y -> skipn m l = y :: skipn (S m) l.
Proof.
  revert m; induction l as [|z l IH]; intros [|m] H; simpl in *; try discriminate.
  - now injection H as ->.
  - now apply IH.
Qed.

Lemma write_next (pre out seg post : list elt) (x : elt) :
  (length out < length seg)%nat ->
  replace_nth (length pre + length out) x
    (pre ++ out ++ skipn (length out) seg ++ post)
  = pre ++ (out ++ [x]) ++ skipn (S (length out)) seg ++ post.
Proof.
  intros Hlt.
  destruct (nth_error seg (length out)) as [y|] eqn:E;
    [|apply nth_error_None in E; lia].
  rewrite (skipn_nth_error _ _ E), replace_nth_app_r.
  rewrite <- (Nat.add_0_r (length out)) at 1. rewrite replace_nth_app_r.
  simpl. now rewrite <- !app_assoc.
Qed.

Lemma merge_inv_write (v0 pre L R post : list elt) (i j k i' j' : Z) (w : list elt)
    (x : elt) :
  merge_inv v0 pre L R post i j k w ->
  i + j < Z.of_nat (length L) + Z.of_nat (length R) ->
  i <= i' <= Z.of_nat (length L) -> j <= j' <= Z.of_nat (length R) ->
  i' + j' = i + j + 1 -> In x v0 ->
  merge_lists (skipn (Z.to_nat i) L) (skipn (Z.to_nat j) R)
    = x :: merge_lists (skipn (Z.to_nat i') L) (skipn (Z.to_nat j') R) ->
  merge_inv v0 pre L R post i' j' (k + 1) (upd w k x).
Proof.
  intros (Hi & Hj & Hk & Hl & Hin & out & Ho & Hw & Hm) Hlt Hi' Hj' Hij Hx Hstep.
  unfold merge_inv; splits; try lia.
  - now rewrite length_upd.
  - now apply incl_replace_nth.
  - exists (out ++ [x]). splits.
    + rewrite length_app, Ho. simpl. lia.
    + unfold upd. subst k w.
      replace (Z.to_nat (Z.of_nat (length pre) + i + j))
        with (length pre + length out)%nat by lia.
      rewrite <- Ho, write_next by (rewrite length_app; lia).
      now replace (Z.to_nat (i' + j')) with (S (length out)) by lia.
    + rewrite <- app_assoc. simpl. now rewrite <- Hstep.
Qed.

Lemma merge_inv_left (v0 pre L R post : list elt) (i j k : Z) (w : list elt) (x : elt) :
  merge_inv v0 pre L R post i j k w -> incl L v0 ->
  nth_error L (Z.to_nat i) = Some x ->
  (j = Z.of_nat (length R) \/
   exists y, nth_error R (Z.to_nat j) = Some y /\ key x <= key y) ->
  merge_inv v0 pre L R post (i + 1) j (k + 1) (upd w k x).
Proof.
  intros Hinv HL Hx Hy.
  assert (Hi : (Z.to_nat i < length L)%nat) by (apply nth_error_Some; congruence).
  assert (Hr : 0 <= i /\ 0 <= j <= Z.of_nat (length R)) by (split; apply Hinv).
  apply merge_inv_write with (i := i) (j := j); auto; try lia.
  - apply HL. eapply nth_error_In; eauto.
  - replace (Z.to_nat (i + 1)) with (S (Z.to_nat i)) by lia.
    rewrite (skipn_nth_error _ _ Hx).
    destruct Hy as [->|(y & Hy & Hle)].
    + now rewrite Nat2Z.id, skipn_all, !merge_lists_nil_r.
    + rewrite (skipn_nth_error _ _ Hy), merge_lists_cons.
      destruct (Z.leb_spec (key x) (key y)); [reflexivity|lia].
Qed.

Lemma merge_inv_right (v0 pre L R post : list elt) (i j k : Z) (w : list elt) (y : elt) :
  merge_inv v0 pre L R post i j k w -> incl R v0 ->
  nth_error R (Z.to_nat j) = Some y ->
  (i = Z.of_nat (length L) \/
   exists x, nth_error L (Z.to_nat i) = Some x /\ key y < key x) ->
  merge_inv v0 pre L R post i (j + 1) (k + 1) (upd w k y).
Proof.
  intros Hinv HR Hy Hx.
  assert (Hj : (Z.to_nat j < length R)%nat) by (apply nth_error_Some; congruence).
  assert (Hr : 0 <= j /\ 0 <= i <= Z.of_nat (length L)) by (split; apply Hinv).
  apply merge_inv_write with (i := i) (j := j); auto; try lia.
  - apply HR. eapply nth_error_In; eauto.
  - replace (Z.to_nat (j + 1)) with (S (Z.to_nat j)) by lia.
    rewrite (skipn_nth_error _ _ Hy).
    destruct Hx as [->|(x & Hx & Hlt)].
    + now rewrite Nat2Z.id, skipn_all, !merge_lists_nil_l.
    + rewrite (skipn_nth_error _ _ Hx), merge_lists_cons.
      destruct (Z.leb_spec (key x) (key y)); [lia|reflexivity].
Qed.

Lemma merge_inv_init (v0 pre L R post : list elt) :
  length (pre ++ L ++ R ++ post) = length v0 -> incl (pre ++ L ++ R ++ post) v0 ->
  merge_inv v0 pre L R post 0 0 (Z.of_nat (length pre)) (pre ++ L ++ R ++ post).
Proof.
  intros Hl Hin. unfold merge_inv; splits; auto; try lia.
  exists []. simpl. splits; auto. now rewrite <- app_assoc.
Qed.

Lemma merge_inv_done (v0 pre L R post : list elt) (k : Z) (w : list elt) :
  merge_inv v0 pre L R post (Z.of_nat (length L)) (Z.of_nat (length R)) k w ->
  w = pre ++ merge_lists L R ++ post.
Proof.
  intros (_ & _ & _ & _ & _ & out & Ho & -> & Hm).
  rewrite !Nat2Z.id, !skipn_all, merge_lists_nil_l, app_nil_r in Hm. subst out.
  rewrite skipn_all2 by (rewrite length_app; lia). reflexivity.
Qed.

Lemma merge_spec (a : ref) (v0 pre L R post : list elt) (fuel : nat)
    (left mid right : Z) :
  left = Z.of_nat (length pre) ->
  mid = left + Z.of_nat (length L) ->
  right = mid + Z.of_nat (length R) ->
  length (pre ++ L ++ R ++ post) = length v0 ->
  incl (pre ++ L ++ R ++ post) v0 ->
  (length L + length R < fuel)%nat ->
  spec a (pre ++ L ++ R ++ post) (merge fuel a left mid right)
    (fun _ w t => w = pre ++ merge_lists L R ++ post /\
                  Forall (frame_ok (Z.of_nat (length v0)) (incl_of v0)) t).
Proof.
  intros Hleft Hmid Hright Hlen Hincl Hfuel.
  set (n := Z.of_nat (length v0)).
  assert (HL : incl L v0).
  { intros z Hz. apply Hincl. rewrite !in_app_iff. auto. }
  assert (HR : incl R v0).
  { intros z Hz. apply Hincl. rewrite !in_app_iff. auto. }
  assert (Hn : Z.of_nat (length pre) + Z.of_nat (length L) + Z.of_nat (length R) <= n).
  { unfold n. rewrite <- Hlen, !length_app. lia. }
  unfold merge.
  step. rewrite slice_segment by auto.
  step. rewrite (app_assoc pre L), slice_segment, <- app_assoc
    by (rewrite ?length_app; lia).
  apply spec_bind. eapply spec_weaken.
  { apply spec_while with
      (I := fun '(i, j, k) w t =>
              merge_inv v0 pre L R post i j k w /\ Forall (frame_ok n (incl_of v0)) t)
      (mu := fun '(i, j, k) =>
              Z.to_nat (Z.of_nat (length L) - i + (Z.of_nat (length R) - j)))
      (Q := fun '(i, j, k) w t =>
              (merge_inv v0 pre L R post i j k w /\
               (i = Z.of_nat (length L) \/ j = Z.of_nat (length R))) /\
              Forall (frame_ok n (incl_of v0)) t)
      (t := []).
    - intros [[i j] k] w t [Hinv HF]. step. splits; auto.
      assert (Hr : 0 <= i <= Z.of_nat (length L) /\ 0 <= j <= Z.of_nat (length R) /\
                   k = Z.of_nat (length pre) + i + j) by (splits; apply Hinv).
      assert (Hw : Z.of_nat (length w) = n)
        by (destruct Hinv as (_ & _ & _ & Hlw & _); rewrite Hlw; auto).
      assert (Hiw : incl w v0) by apply Hinv.
      destruct (Z.ltb_spec i (Z.of_nat (length L))) as [Hi|Hi];
        destruct (Z.ltb_spec j (Z.of_nat (length R))) as [Hj|Hj]; simpl;
        try (splits; auto; lia).
      step. step as x Hx; [lia|]. step as y Hy; [lia|].
      assert (Hxin : In x v0) by (apply HL; eapply nth_error_In; eauto).
      assert (Hyin : In y v0) by (apply HR; eapply nth_error_In; eauto).
      destruct (Z.leb_spec (key x) (key y)) as [Hle|Hlt].
      + apply spec_bind. step; [lia|]. step. cbv beta iota zeta.
        step. step. split; [split|lia].
        * apply merge_inv_left; eauto.
        * forall_frames.
      + apply spec_bind. step; [lia|]. step. cbv beta iota zeta.
        step. step. split; [split|lia].
        * apply merge_inv_right; eauto.
        * forall_frames.
    - simpl. lia.
    - split; auto. rewrite Hleft. now apply merge_inv_init. }
  intros [[i1 j] k1] w1 t1 [[Hinv1 Hor1] HF1]. cbv beta iota zeta. simpl in HF1.
  apply spec_bind. eapply spec_weaken.
  { apply spec_while with
      (I := fun '(i, k) w t =>
              (merge_inv v0 pre L R post i j k w /\
               (i = Z.of_nat (length L) \/ j = Z.of_nat (length R))) /\
              Forall (frame_ok n (incl_of v0)) t)
      (mu := fun '(i, k) => Z.to_nat (Z.of_nat (length L) - i))
      (Q := fun '(i, k) w t =>
              merge_inv v0 pre L R post (Z.of_nat (length L)) j k w /\
              Forall (frame_ok n (incl_of v0)) t)
      (t := t1).
    - intros [i k] w t [[Hinv Hor] HF]. step. splits; auto.
      assert (Hr : 0 <= i <= Z.of_nat (length L) /\ 0 <= j <= Z.of_nat (length R) /\
                   k = Z.of_nat (length pre) + i + j) by (splits; apply Hinv).
      assert (Hw : Z.of_nat (length w) = n)
        by (destruct Hinv as (_ & _ & _ & Hlw & _); rewrite Hlw; auto).
      assert (Hiw : incl w v0) by apply Hinv.
      destruct (Z.ltb_spec i (Z.of_nat (length L))) as [Hi|Hi].
      + step as x Hx; [lia|].
        assert (Hxin : In x v0) by (apply HL; eapply nth_error_In; eauto).
        step; [lia|]. step. step. split; [split; [split|]|lia].
        * apply merge_inv_left; auto. left; lia.
        * right; lia.
        * forall_frames.
      + split; auto. replace (Z.of_nat (length L)) with i by lia. exact Hinv.
    - destruct Hinv1 as (Hi & _). lia.
    - splits; auto. }
  intros [i2 k2] w2 t2 [Hinv2 HF2]. cbv beta iota zeta.
  apply spec_bind. eapply spec_weaken.
  { apply spec_while with
      (I := fun '(j, k) w t =>
              merge_inv v0 pre L R post (Z.of_nat (length L)) j k w /\
              Forall (frame_ok n (incl_of v0)) t)
      (mu := fun '(j, k) => Z.to_nat (Z.of_nat (length R) - j))
      (Q := fun '(j, k) w t =>
              merge_inv v0 pre L R post (Z.of_nat (length L)) (Z.of_nat (length R)) k w /\
              Forall (frame_ok n (incl_of v0)) t)
      (t := t1 ++ t2).
    - intros [j' k] w t [Hinv HF]. step. splits; auto.
      assert (Hr : 0 <= j' <= Z.of_nat (length R) /\
                   k = Z.of_nat (length pre) + Z.of_nat (length L) + j')
        by (splits; apply Hinv).
      assert (Hw : Z.of_nat (length w) = n)
        by (destruct Hinv as (_ & _ & _ & Hlw & _); rewrite Hlw; auto).
      assert (Hiw : incl w v0) by apply Hinv.
      destruct (Z.ltb_spec j' (Z.of_nat (length R))) as [Hj|Hj].
      + step as y Hy; [lia|].
        assert (Hyin : In y v0) by (apply HR; eapply nth_error_In; eauto).
        step; [lia|]. step. step. split; [split|lia].
        * apply merge_inv_right; auto.
        * forall_frames.
      + split; auto. replace (Z.of_nat (length R)) with j' by lia. exact Hinv.
    - destruct Hinv1 as (_ & Hj & _). lia.
    - splits; auto. }
  intros [j3 k3] w3 t3 [Hinv3 HF3]. cbv beta iota zeta. step. split.
  - eapply merge_inv_done; eauto.
  - simpl. rewrite app_nil_r. rewrite app_assoc. exact HF3.
Qed.

Lemma stable_sort_short (seg : list elt) :
  (length seg <= 1)%nat -> stable_sort seg = seg.
Proof.
  destruct seg as [|x [|y seg]]; simpl; auto; lia.
Qed.

Lemma sort_rec_spec (a : ref) (v0 : list elt) (fuel : nat) :
  forall (depth : nat) (pre seg post : list elt) (left right : Z),
    left = Z.of_nat (length pre) -> right = left + Z.of_nat (length seg) ->
    length (pre ++ seg ++ post) = length v0 -> incl (pre ++ seg ++ post) v0 ->
    (length seg < depth)%nat -> (length seg < fuel)%nat ->
    spec a (pre ++ seg ++ post) (sort_rec fuel depth a left right)
      (fun _ w t => w = pre ++ stable_sort seg ++ post /\
                    Forall (frame_ok (Z.of_nat (length v0)) (incl_of v0)) t).
Proof.
  induction depth as [|depth IH]; intros pre seg post left right Hl Hr Hlen Hin Hd Hf;
    [lia|].
  simpl. destruct (Z.leb_spec (right - left) 1) as [Hle|Hgt].
  - step. rewrite stable_sort_short by lia. auto.
  - pose proof (Z.div_mod (left + right) 2 ltac:(lia)) as Hdm.
    pose proof (Z.mod_pos_bound (left + right) 2 ltac:(lia)) as Hmb.
    set (mid := (left + right) / 2) in *.
    set (seg1 := firstn (Z.to_nat (mid - left)) seg).
    set (seg2 := skipn (Z.to_nat (mid - left)) seg).
    assert (Hseg : seg = seg1 ++ seg2) by (symmetry; apply firstn_skipn).
    assert (H1 : length seg1 = Z.to_nat (mid - left))
      by (unfold seg1; rewrite length_firstn; lia).
    assert (H2 : length seg2 = Z.to_nat (right - mid))
      by (unfold seg2; rewrite length_skipn; lia).
    clearbody seg1 seg2. subst seg.
    rewrite !length_app in *. rewrite <- app_assoc in Hin.
    assert (I1 : forall z, In z (stable_sort seg1) -> In z seg1)
      by (intros z; apply Permutation_in, stable_sort_perm).
    assert (I2 : forall z, In z (stable_sort seg2) -> In z seg2)
      by (intros z; apply Permutation_in, stable_sort_perm).
    assert (P1 : Permutation (stable_sort seg1) seg1) by apply stable_sort_perm.
    assert (P2 : Permutation (stable_sort seg2) seg2) by apply stable_sort_perm.
    assert (L1 := stable_sort_length seg1). assert (L2 := stable_sort_length seg2).
    apply spec_bind. rewrite <- app_assoc.
    eapply spec_weaken; [apply (IH pre seg1 (seg2 ++ post) left mid); auto; try lia|].
    { rewrite !length_app; lia. }
    intros [] w1 t1 [-> HF1]. cbv beta.
    apply spec_bind. rewrite (app_assoc pre).
    eapply spec_weaken;
      [apply (IH (pre ++ stable_sort seg1) seg2 post mid right); auto; try lia|].
    { rewrite length_app; lia. }
    { rewrite !length_app; lia. }
    { intros z Hz. apply Hin. rewrite !in_app_iff in *. intuition auto. }
    intros [] w2 t2 [-> HF2]. cbv beta.
    rewrite <- (app_assoc pre).
    eapply spec_weaken;
      [apply (@merge_spec a v0 pre (stable_sort seg1) (stable_sort seg2) post
                fuel left mid right); auto; try lia|].
    { rewrite !length_app; lia. }
    { intros z Hz. apply Hin. rewrite !in_app_iff in *. intuition auto. }
    intros [] w3 t3 [-> HF3]. cbv beta. split.
    + now rewrite merge_stable_sort.
    + forall_frames.
Qed.

Lemma merge_sort_spec (v0 : list elt) (fuel : nat) :
  (length v0 < fuel)%nat ->
  gen_spec (merge_sort fuel) v0
    (fun fs => sort_post (incl_of v0) v0 fs /\ stable_post v0 fs).
Proof.
  intros Hfuel. unfold merge_sort. apply gen_intro. intros a.
  step. set (n := Z.of_nat (length v0)).
  destruct (Z.eqb_spec n 0) as [Hn0|Hn0].
  - assert (v0 = []) by (destruct v0; simpl in *; [auto|lia]). subst v0.
    step. split.
    + exists [], [], []. simpl. splits; auto; [congruence|constructor].
    + exists []. reflexivity.
  - step. apply spec_bind.
    assert (E : v0 = [] ++ v0 ++ []) by (simpl; now rewrite app_nil_r).
    rewrite E at 1.
    eapply spec_weaken; [apply (@sort_rec_spec a v0 fuel fuel [] v0 [] 0 n); auto|].
    { now rewrite <- E. }
    { rewrite <- E. apply incl_refl. }
    intros [] w t [-> HF]. cbv beta. simpl. rewrite app_nil_r. step. split.
    + exists [(v0, info [] [])], t, (stable_sort v0). splits; auto.
      * apply stable_sort_perm.
      * apply stable_sort_sorted.
    + exists ([(v0, info [] [])] ++ t). reflexivity.
Qed.

(** ** More fuel changes nothing *)

Lemma extends_refl (A : Type) (m : Gen A) : extends m m.
Proof. intros h r E; exact E. Qed.

Lemma extends_bind (A B : Type) (m m' : Gen A) (f f' : A -> Gen B) :
  extends m m' -> (forall x, extends (f x) (f' x)) ->
  extends (bind m f) (bind m' f').
Proof.
  intros Hm Hf h r. unfold bind.
  destruct (m h) as [[[x h1] t1]| |] eqn:E; try discriminate.
  rewrite (Hm _ _ E).
  destruct (f x h1) as [[[y h2] t2]| |] eqn:E2; try discriminate.
  now rewrite (Hf x _ _ E2).
Qed.

Lemma extends_for_fold (S : Type) (l : list Z) (body body' : Z -> S -> Gen S) :
  (forall j s, extends (body j s) (body' j s)) ->
  forall s, extends (for_fold l s body) (for_fold l s body').
Proof.
  intros Hb. induction l as [|j l IH]; intros s; simpl.
  - apply extends_refl.
  - apply extends_bind; auto.
Qed.

Lemma extends_while (S : Type) (cond : S -> Gen bool) (body body' : S -> Gen S) :
  (forall s, extends (body s) (body' s)) ->
  forall (fuel fuel' : nat) s, (fuel <= fuel')%nat ->
    extends (while fuel cond body s) (while fuel' cond body' s).
Proof.
  intros Hb fuel. induction fuel as [|fuel IH]; intros fuel' s Hle.
  - intros h r E. discriminate.
  - destruct fuel' as [|fuel']; [lia|]. simpl.
    apply extends_bind; [apply extends_refl|].
    intros [|]; [|apply extends_refl].
    apply extends_bind; auto. intros s'. apply IH. lia.
Qed.

Ltac extends_tac :=
  repeat first
    [ apply extends_refl
    | apply extends_bind; [|intros ?]
    | apply extends_while; [intros ?|lia]
    | apply extends_for_fold; intros ? ?
    | match goal with
      | |- extends (let (_, _) := ?x in _) _ => destruct x
      | |- extends (if ?b then _ else _) _ => destruct b
      end ].

Lemma merge_fuel_mono (fuel fuel' : nat) (a : ref) (left mid right : Z) :
  (fuel <= fuel')%nat ->
  extends (merge fuel a left mid right) (merge fuel' a left mid right).
Proof. intros Hle. unfold merge. extends_tac. Qed.

Lemma sort_rec_fuel_mono (fuel fuel' : nat) (a : ref) :
  (fuel <= fuel')%nat ->
  forall (depth depth' : nat) (left right : Z), (depth <= depth')%nat ->
    extends (sort_rec fuel depth a left right) (sort_rec fuel' depth' a left right).
Proof.
  intros Hle depth. induction depth as [|depth IH]; intros depth' left right Hd.
  - intros h r E. discriminate.
  - destruct depth' as [|depth']; [lia|]. simpl.
    destruct (right - left <=? 1); [apply extends_refl|].
    apply extends_bind; [apply IH; lia|intros _].
    apply extends_bind; [apply IH; lia|intros _].
    now apply merge_fuel_mono.
Qed.

Lemma generator_fuel_mono (alg : algorithm) (fuel fuel' : nat) (arr : ref) :
  (fuel <= fuel')%nat ->
  extends (generator alg fuel arr) (generator alg fuel' arr).
Proof.
  intros Hle. destruct alg; simpl; try apply extends_refl.
  - unfold insertion_sort, for_each. extends_tac.
  - unfold merge_sort. extends_tac. now apply sort_rec_fuel_mono.
  - unfold quick_sort, quick_loop. extends_tac.
Qed.

Lemma run_fuel_mono (alg : algorithm) (fuel fuel' : nat) (input : list elt)
    (fs : list Frame) :
  (fuel <= fuel')%nat ->
  run (generator alg fuel) input = Ok fs -> run (generator alg fuel') input = Ok fs.
Proof.
  intros Hle. unfold run.
  destruct (generator alg fuel 0%nat [input]) as [[[x h] tr]| |] eqn:E; try discriminate.
  now rewrite (@generator_fuel_mono alg fuel fuel' 0%nat Hle _ _ E).
Qed.

(** ** The five generators together *)

Lemma sort_post_weaken (R R' : list elt -> Prop) (v0 : list elt) (fs : list Frame) :
  (forall arr, R arr -> R' arr) -> sort_post R v0 fs -> sort_post R' v0 fs.
Proof.
  intros HR (pre & mid & vf & E & Hpre & Hne & HF & HP & HS).
  exists pre, mid, vf. splits; auto.
  eapply Forall_impl; [|exact HF]. intros f (Hl & Ha & Hr).
  unfold frame_ok; splits; auto.
Qed.

Lemma gen_spec_weaken (g : ref -> Gen unit) (v0 : list elt) (Q Q' : list Frame -> Prop) :
  gen_spec g v0 Q -> (forall fs, Q fs -> Q' fs) -> gen_spec g v0 Q'.
Proof.
  intros Hg HQ h arr Harr. destruct (Hg h arr Harr) as (h' & tr & E & F & H).
  exists h', tr. auto.
Qed.

Lemma generator_spec (alg : algorithm) (v0 : list elt) (fuel : nat) :
  (2 * length v0 + 2 <= fuel)%nat ->
  gen_spec (generator alg fuel) v0 (sort_post (frame_rel alg v0) v0).
Proof.
  intros Hfuel. destruct alg; simpl.
  - apply bubble_sort_spec.
  - apply selection_sort_spec.
  - apply insertion_sort_spec. lia.
  - eapply gen_spec_weaken; [apply merge_sort_spec; lia|]. now intros fs [H _].
  - now apply quick_sort_spec.
Qed.

Lemma run_spec (g : ref -> Gen unit) (v0 : list elt) (Q : list Frame -> Prop) :
  gen_spec g v0 Q -> exists fs, run g v0 = Ok fs /\ Q fs.
Proof.
  intros Hg. destruct (Hg [v0] 0%nat eq_refl) as (h' & tr & E & _ & HQ).
  exists (frames tr). unfold run. now rewrite E.
Qed.

Lemma frame_rel_incl (alg : algorithm) (v0 arr : list elt) :
  frame_rel alg v0 arr -> incl arr v0.
Proof.
  destruct alg; simpl; auto; intros HP z Hz; eapply Permutation_in; eauto.
Qed.

Lemma sort_post_all (R : list elt -> Prop) (v0 : list elt) (fs : list Frame) :
  (forall arr, Permutation arr v0 -> R arr) ->
  sort_post R v0 fs -> Forall (frame_ok (Z.of_nat (length v0)) R) fs.
Proof.
  intros HR (pre & mid & vf & -> & Hpre & _ & HF & HP & _).
  apply Forall_app; split; [|apply Forall_app; split; auto].
  - destruct Hpre as [->| ->]; repeat constructor; simpl; auto.
  - repeat constructor; simpl; auto.
    now rewrite (Permutation_length HP).
Qed.

Lemma sort_post_last (R : list elt -> Prop) (v0 : list elt) (fs : list Frame) :
  sort_post R v0 fs ->
  exists init vf,
    fs = init ++ [(vf, info [] (range 0 (Z.of_nat (length v0))))] /\
    Permutation vf v0 /\ StronglySorted le_key vf.
Proof.
  intros (pre & mid & vf & -> & _ & _ & _ & HP & HS).
  exists (pre ++ mid), vf. now rewrite <- app_assoc.
Qed.

Lemma sort_post_first (R : list elt -> Prop) (v0 : list elt) (fs : list Frame) :
  sort_post R v0 fs -> v0 <> [] -> exists rest, fs = (v0, info [] []) :: rest.
Proof.
  intros (pre & mid & vf & -> & _ & Hne & _) H0. rewrite (Hne H0). simpl. eauto.
Qed.

(** ** The claims *)

(** C1: for each of the five generators and every input list, the empty and
    the one-element lists included, the array of the last frame yielded is
    sorted in non-decreasing order (of keys) and is a permutation of the
    input. *)
Theorem final_frame_sorted_permutation (alg : algorithm) (input : list elt) (fuel : nat) :
  (2 * length input + 2 <= fuel)%nat ->
  exists fs last,
    run (generator alg fuel) input = Ok (fs ++ [last]) /\
    StronglySorted le_key (fst last) /\
    Permutation (fst last) input.
Proof.
  intros Hfuel.
  destruct (run_spec (generator_spec alg Hfuel)) as (fs & E & Hpost).
  destruct (sort_post_last Hpost) as (init & vf & -> & HP & HS).
  exists init, (vf, info [] (range 0 (Z.of_nat (length input)))). auto.
Qed.

(** C3: for each generator, on a non-empty input the first frame shows the
    input itself with empty active and sorted sets; on every input the last
    frame has an empty active set and the whole index range as its sorted
    set; and every frame's array has the length of the input. *)
Theorem first_and_last_frames (alg : algorithm) (input : list elt) (fuel : nat) :
  (2 * length input + 2 <= fuel)%nat ->
  exists fs,
    run (generator alg fuel) input = Ok fs /\
    (input <> [] -> exists rest, fs = (input, mkInfo [] (Some []) None) :: rest) /\
    (exists init arr,
       fs = init ++ [(arr, mkInfo [] (Some (range 0 (Z.of_nat (length input)))) None)]) /\
    Forall (fun f => length (fst f) = length input) fs.
Proof.
  intros Hfuel.
  destruct (run_spec (generator_spec alg Hfuel)) as (fs & E & Hpost).
  exists fs. splits; auto.
  - apply (sort_post_first Hpost).
  - destruct (sort_post_last Hpost) as (init & vf & -> & _). eauto.
  - eapply Forall_impl; [|apply (sort_post_all (R := fun _ => True)); eauto].
    + intros f (Hl & _). apply Nat2Z.inj. exact Hl.
    + eapply sort_post_weaken; [|exact Hpost]. auto.
Qed.

(** C8: every index in the active set of any frame yielded by any of the
    generators is a valid index of the input list. *)
Theorem active_indices_in_range (alg : algorithm) (input : list elt) (fuel : nat) :
  (2 * length input + 2 <= fuel)%nat ->
  exists fs,
    run (generator alg fuel) input = Ok fs /\
    Forall (fun f => Forall (fun idx => 0 <= idx < Z.of_nat (length input))
                       (active (snd f))) fs.
Proof.
  intros Hfuel.
  destruct (run_spec (generator_spec alg Hfuel)) as (fs & E & Hpost).
  exists fs. split; auto.
  eapply Forall_impl; [|apply (sort_post_all (R := fun _ => True)); eauto].
  - intros f (_ & Ha & _). exact Ha.
  - eapply sort_post_weaken; [|exact Hpost]. auto.
Qed.

(** C10: each generator works on a copy of the list it is given: once it has
    run to exhaustion, the caller's list object, like every other object the
    caller's store held, is what it was. *)
Theorem input_list_unchanged (alg : algorithm) (h : heap) (arr : ref)
    (input : list elt) (fuel : nat) :
  nth_error h arr = Some input ->
  (2 * length input + 2 <= fuel)%nat ->
  exists h' tr,
    generator alg fuel arr h = Ok (tt, h', tr) /\
    nth_error h' arr = Some input /\
    forall r, (r < length h)%nat -> nth_error h' r = nth_error h r.
Proof.
  intros Harr Hfuel.
  destruct (generator_spec alg Hfuel h arr Harr) as (h' & tr & E & F & _).
  exists h', tr. splits; auto.
  rewrite F; auto. apply nth_error_Some. congruence.
Qed.

(** C9: every generator, on every input, yields a finite list of frames and
    returns: there is one list of frames that the run produces whenever its
    loops are given enough fuel ([2 * n + 2] iterations suffice), so no loop
    runs forever and nothing raises.  In particular the [while stack:] loop
    of [quick_sort], started on the whole range, returns with an empty
    stack. *)
Theorem generators_terminate (input : list elt) :
  (forall alg, exists fs, forall fuel,
     (2 * length input + 2 <= fuel)%nat ->
     run (generator alg fuel) input = Ok fs) /\
  (forall fuel h a,
     (2 * length input + 2 <= fuel)%nat -> nth_error h a = Some input ->
     exists h' tr,
       quick_loop fuel a [(0, Z.of_nat (length input) - 1)] h = Ok ([], h', tr)).
Proof.
  split.
  - intros alg.
    destruct (run_spec (generator_spec alg (le_n (2 * length input + 2))))
      as (fs & E & _).
    exists fs. intros fuel Hfuel. eapply run_fuel_mono; eauto.
  - intros fuel h a Hfuel Ha.
    destruct (quick_loop_spec a Hfuel h Ha) as (st & w & h' & tr & E & _ & _ & -> & _).
    eauto.
Qed.

(** C4: [merge_sort] is stable.  Its final frame shows the stable sort of the
    input (elements of equal key in their input order), for every input; and
    a call of [merge] on two adjacent runs [L] and [R] leaves in their place
    the merge of the two that takes from [L] whenever the heads tie. *)
Theorem merge_sort_stable (input : list elt) (fuel : nat) :
  (2 * length input + 2 <= fuel)%nat ->
  (exists fs,
     run (merge_sort fuel) input =
       Ok (fs ++ [(stable_sort input, info [] (range 0 (Z.of_nat (length input))))])) /\
  (forall h a pre L R post,
     nth_error h a = Some (pre ++ L ++ R ++ post) ->
     length (pre ++ L ++ R ++ post) = length input ->
     exists h' tr,
       merge fuel a (Z.of_nat (length pre))
         (Z.of_nat (length pre) + Z.of_nat (length L))
         (Z.of_nat (length pre) + Z.of_nat (length L) + Z.of_nat (length R)) h
       = Ok (tt, h', tr) /\
       nth_error h' a = Some (pre ++ merge_lists L R ++ post)).
Proof.
  intros Hfuel. split.
  - destruct (@run_spec (merge_sort fuel) input _
                (@merge_sort_spec input fuel ltac:(lia)))
      as (fs & E & _ & (t & ->)).
    eauto.
  - intros h a pre L R post Ha Hlen.
    destruct (@merge_spec a (pre ++ L ++ R ++ post) pre L R post fuel
                (Z.of_nat (length pre))
                (Z.of_nat (length pre) + Z.of_nat (length L))
                (Z.of_nat (length pre) + Z.of_nat (length L) + Z.of_nat (length R))
                eq_refl eq_refl eq_refl eq_refl (incl_refl _)) with (h := h)
      as ([] & w & h' & tr & E & Hw & _ & -> & _); auto.
    + rewrite !length_app in Hlen. lia.
    + eauto.
Qed.

(** *** Bubble sort on a sorted input *)

Lemma range_snoc (lo hi : Z) : lo <= hi -> range lo (hi + 1) = range lo hi ++ [hi].
Proof.
  intros H; unfold range.
  replace (Z.to_nat (hi + 1 - lo)) with (Z.to_nat (hi - lo) + 1)%nat by lia.
  rewrite seq_app, map_app. simpl. do 2 f_equal. lia.
Qed.

Lemma StronglySorted_sorted_on (v : list elt) :
  StronglySorted le_key v -> sorted_on v 0 (Z.of_nat (length v)).
Proof.
  induction 1 as [|x v Hs IH Hx]; intros i j Hi Hij Hj; [simpl in Hj; lia|].
  destruct (Z.eq_dec i 0) as [->|Hi0].
  - destruct (Z.eq_dec j 0) as [->|Hj0]; [lia|].
    replace j with (j - 1 + 1) by lia. rewrite kget_cons by lia.
    change (kget (x :: v) 0) with (key x).
    unfold kget. destruct (nth_error v (Z.to_nat (j - 1))) as [y|] eqn:E.
    + rewrite Forall_forall in Hx. apply Hx. eapply nth_error_In; eauto.
    + apply nth_error_None in E. simpl length in Hj. lia.
  - replace i with (i - 1 + 1) by lia. replace j with (j - 1 + 1) by lia.
    rewrite !kget_cons by lia. apply IH; simpl length in Hj; lia.
Qed.

Lemma le_key_trans : Relation_Definitions.transitive elt le_key.
Proof. unfold le_key; intros x y z; lia. Qed.

Lemma bubble_sorted_spec (v0 : list elt) :
  v0 <> [] -> sorted_on v0 0 (Z.of_nat (length v0)) ->
  gen_spec bubble_sort v0 (fun fs =>
    fs = (v0, info [] []) ::
         map (fun j => (v0, info [j; j + 1] [])) (range 0 (Z.of_nat (length v0) - 1)) ++
         [(v0, info [] (range 0 (Z.of_nat (length v0))))]).
Proof.
  intros Hne Hs. unfold bubble_sort. apply gen_intro. intros a.
  step. set (n := Z.of_nat (length v0)) in *.
  assert (Hn : 0 < n) by (destruct v0; [congruence|simpl length in n; lia]).
  destruct (Z.eqb_spec n 0) as [Hn0|_]; [lia|].
  step. apply spec_bind.
  rewrite (range_cons (lo := 0) (hi := n)) by lia. simpl for_break.
  apply spec_bind. apply spec_bind. eapply spec_weaken.
  { apply spec_for_fold with
      (I := fun j s w t => s = false /\ w = v0 /\
              t = map (fun j => (v0, info [j; j + 1] [])) (range 0 j))
      (lo0 := 0) (k := Z.to_nat (n - 0 - 1 - 0)) (t := []); try lia.
    2:{ splits; auto. }
    intros j s w t Hj (-> & -> & ->).
    step. step as x Hx; [fold n; lia|]. step as y Hy; [fold n; lia|].
    apply nth_kget in Hx, Hy. rewrite <- Hx, <- Hy.
    destruct (Z.gtb_spec (kget v0 j) (kget v0 (j + 1))) as [Hgt|Hle].
    - specialize (Hs j (j + 1)). lia.
    - step. splits; auto.
      rewrite range_snoc, map_app by lia. simpl.
      rewrite (range_nil (lo := n - 0) (hi := n)) by lia. reflexivity. }
  intros s w t (-> & -> & Ht). cbv beta. simpl in Ht. subst t.
  step. simpl. step. step. simpl.
  rewrite !app_nil_r. replace (n - 0 - 1) with (n - 1) by lia. reflexivity.
Qed.

(** C6: on an input of length [n >= 1] that is already sorted, [bubble_sort]
    makes one pass and stops: it yields the before-frame, one comparison
    frame for each of the [n - 1] adjacent pairs (none swapped, the array
    shown is the input), and the final frame: [n + 1] frames in all. *)
Theorem bubble_sorted_input_one_pass (input : list elt) :
  input <> [] -> Sorted le_key input ->
  exists fs,
    run bubble_sort input = Ok fs /\
    fs = (input, info [] []) ::
         map (fun j => (input, info [j; j + 1] []))
             (range 0 (Z.of_nat (length input) - 1)) ++
         [(input, info [] (range 0 (Z.of_nat (length input))))] /\
    length fs = (length input + 1)%nat.
Proof.
  intros Hne Hs.
  apply (Sorted_StronglySorted le_key_trans) in Hs.
  apply StronglySorted_sorted_on in Hs.
  destruct (run_spec (bubble_sorted_spec Hne Hs)) as (fs & E & ->).
  eexists; splits; eauto.
  simpl. rewrite length_app, length_map, length_range. simpl.
  destruct input; [congruence|simpl length; lia].
Qed.

(** *** The partition steps of a run of quick_sort *)

Lemma quick_reach_inv (a : ref) (v0 : list elt) (h0 : heap) (st : list (Z * Z))
    (h : heap) :
  nth_error h0 a = Some v0 ->
  quick_reach a (Z.of_nat (length v0)) h0 st h ->
  exists w, nth_error h a = Some w /\ length w = length v0 /\
    forall lo hi, In (lo, hi) st -> 0 <= lo /\ hi < Z.of_nat (length v0).
Proof.
  intros H0 Hr. induction Hr as [|st st' h h' tr Hr IH Hne Hstep].
  - exists v0. splits; auto. intros lo hi [E|[]]. injection E as <- <-. lia.
  - destruct IH as (w & Hw & Hl & Hb).
    destruct st as [|[low high] rest]; [discriminate|].
    destruct (Z_lt_dec low high) as [Hlh|Hlh].
    + assert (Hlow : 0 <= low /\ high < Z.of_nat (length v0)) by (apply Hb; now left).
      destruct (@quick_step_spec a w w low high rest (state_ok_refl w)) with (h := h)
        as (x & w' & h2 & tr2 & E & Hw' & _ & i & t0 & -> & _ & _ & [Hl' _] & _ & Hp);
        auto; try lia.
      rewrite E in Hstep. injection Hstep as <- <- <-.
      exists w'. splits; auto; try congruence.
      destruct Hp as (Hi & _).
      intros lo hi [E'|[E'|Hin]].
      * injection E' as <- <-. lia.
      * injection E' as <- <-. lia.
      * apply Hb. now right.
    + unfold quick_step in Hstep.
      destruct (Z.geb_spec low high) as [_|Hlt]; [|lia].
      injection Hstep as <- <- _.
      exists w. splits; auto. intros lo hi Hin. apply Hb. now right.
Qed.

(** C5: in a run of [quick_sort], whenever the loop pops a range
    [(low, high)] with [low < high], the step ends with the frame labelled
    "pivot placed", with [active = [i; high]], showing the list as the step
    leaves it: every key at a position in [low, i) is strictly less than the
    key at [i] (the pivot), and every key at a position in [i, high] is
    greater than or equal to it.  The step pushes [(low, i - 1)] and then
    [(i + 1, high)]. *)
Theorem partition_places_pivot (a : ref) (input : list elt) (h0 h : heap)
    (low high : Z) (stack : list (Z * Z)) :
  nth_error h0 a = Some input ->
  quick_reach a (Z.of_nat (length input)) h0 ((low, high) :: stack) h ->
  low < high ->
  exists i h' tr before w,
    quick_step a ((low, high) :: stack) h
      = Ok ((i + 1, high) :: (low, i - 1) :: stack, h', tr) /\
    frames tr = before ++ [(w, info_label [i; high] "pivot placed")] /\
    nth_error h' a = Some w /\
    low <= i <= high /\
    (forall p, low <= p < i -> kget w p < kget w i) /\
    (forall p, i <= p <= high -> kget w i <= kget w p).
Proof.
  intros H0 Hr Hlh.
  destruct (quick_reach_inv H0 Hr) as (v & Hv & Hl & Hb).
  assert (Hlow : 0 <= low /\ high < Z.of_nat (length input)) by (apply Hb; now left).
  destruct (@quick_step_spec a v v low high stack (state_ok_refl v)) with (h := h)
    as (x & w & h' & tr & E & Hw & _ & i & t0 & -> & Ht & _ & _ & _ & Hi & Hlt & Hge);
    auto; try lia.
  exists i, h', tr, t0, w. splits; auto; lia.
Qed.

(** C7: what each generator yields on the empty list.  [bubble_sort],
    [merge_sort] and [quick_sort] return after one frame; [selection_sort]
    and [insertion_sort], which have no guard for the empty list, yield the
    before-frame and then the final frame, two frames. *)
Theorem empty_input_frames (fuel : nat) :
  run bubble_sort [] = Ok [([], info [] [])] /\
  run (merge_sort fuel) [] = Ok [([], info [] [])] /\
  run (quick_sort fuel) [] = Ok [([], info [] [])] /\
  run selection_sort [] = Ok [([], info [] []); ([], info [] [])] /\
  run (insertion_sort fuel) [] = Ok [([], info [] []); ([], info [] [])].
Proof. repeat split; reflexivity. Qed.

(** ** Further properties of the generators *)

(** *** Snapshots are copies *)

Lemma ascending_weaken (lo lo' : nat) (tr : list Snapshot) :
  (lo' <= lo)%nat -> ascending lo tr -> ascending lo' tr.
Proof. destruct tr; simpl; auto. intros H [H1 H2]; split; auto; lia. Qed.

Lemma ascending_app (lo mid : nat) (t1 t2 : list Snapshot) :
  ascending lo t1 -> Forall (fun s => (snap_ref s < mid)%nat) t1 ->
  ascending mid t2 -> (lo <= mid)%nat -> ascending lo (t1 ++ t2).
Proof.
  revert lo; induction t1 as [|s t1 IH]; intros lo H1 HF H2 Hle; simpl.
  - eapply ascending_weaken; eauto.
  - destruct H1 as [Hs H1]. inversion HF as [|? ? Hm HF']; subst.
    split; [exact Hs|]. apply IH; auto.
Qed.

Lemma ascending_NoDup (lo : nat) (tr : list Snapshot) :
  ascending lo tr ->
  NoDup (map snap_ref tr) /\ Forall (fun s => (lo <= snap_ref s)%nat) tr.
Proof.
  revert lo; induction tr as [|s tr IH]; intros lo H; simpl.
  - split; constructor.
  - destruct H as [Hs H]. destruct (IH _ H) as [ND HF]. split.
    + constructor; auto. intros Hin. apply in_map_iff in Hin as (s' & E & Hin).
      rewrite Forall_forall in HF. specialize (HF _ Hin). lia.
    + constructor; auto. eapply Forall_impl; [|exact HF]. simpl; intros; lia.
Qed.

Lemma yields_copies_ret (A : Type) (a : ref) (x : A) : yields_copies a (ret x).
Proof.
  intros h y h' tr Ha E. injection E as <- <- <-. simpl. auto.
Qed.

Lemma yields_copies_bind (A B : Type) (a : ref) (m : Gen A) (f : A -> Gen B) :
  yields_copies a m -> (forall x, yields_copies a (f x)) ->
  yields_copies a (bind m f).
Proof.
  intros Hm Hf h y h' tr Ha E. unfold bind in E.
  destruct (m h) as [[[x h1] t1]| |] eqn:E1; try discriminate.
  destruct (f x h1) as [[[y' h2] t2]| |] eqn:E2; try discriminate.
  injection E as <- <- <-.
  destruct (Hm _ _ _ _ Ha E1) as (L1 & F1 & A1 & R1).
  assert (Ha1 : (a < length h1)%nat) by lia.
  destruct (Hf x _ _ _ _ Ha1 E2) as (L2 & F2 & A2 & R2).
  splits.
  - lia.
  - intros r Hr Hra. rewrite F2, F1; auto; lia.
  - eapply ascending_app; eauto.
    eapply Forall_impl; [|exact R1]. simpl; tauto.
  - apply Forall_app; split; auto.
    destruct (ascending_NoDup _ _ A1) as [_ Hlo].
    rewrite Forall_forall in *. intros s Hs.
    destruct (R1 s Hs) as [Hlt Hret]. specialize (Hlo s Hs). split; [lia|].
    unfold retained in *. rewrite F2; auto; lia.
Qed.

Lemma yields_copies_pure (A : Type) (a : ref) (m : Gen A) :
  (forall h x h' tr, m h = Ok (x, h', tr) -> h' = h /\ tr = []) ->
  yields_copies a m.
Proof.
  intros Hm h x h' tr Ha E. destruct (Hm _ _ _ _ E) as [-> ->]. simpl. auto.
Qed.

Lemma yields_copies_len (a : ref) : yields_copies a (len a).
Proof.
  apply yields_copies_pure. intros h x h' tr E. unfold len in E.
  destruct (nth_error h a); try discriminate. injection E as <- <- <-. auto.
Qed.

Lemma yields_copies_getitem (a : ref) (i : Z) : yields_copies a (getitem a i).
Proof.
  apply yields_copies_pure. intros h x h' tr E. unfold getitem in E.
  destruct (nth_error h a) as [v|]; try discriminate.
  destruct (index (length v) i) as [k|]; try discriminate.
  destruct (nth_error v k); try discriminate. injection E as <- <- <-. auto.
Qed.

Lemma yields_copies_getslice (a : ref) (lo hi : Z) : yields_copies a (getslice a lo hi).
Proof.
  apply yields_copies_pure. intros h x h' tr E. unfold getslice in E.
  destruct (nth_error h a); try discriminate. injection E as <- <- <-. auto.
Qed.

Lemma yields_copies_item (a : ref) (L : list elt) (i : Z) : yields_copies a (item L i).
Proof.
  apply yields_copies_pure. intros h x h' tr E. unfold item in E.
  destruct (index (length L) i) as [k|]; try discriminate.
  destruct (nth_error L k); try discriminate. injection E as <- <- <-. auto.
Qed.

Lemma yields_copies_raise (A : Type) (a : ref) : yields_copies a (@raise A).
Proof. intros h x h' tr _ E. discriminate. Qed.

Lemma yields_copies_setitem (a : ref) (i : Z) (x : elt) : yields_copies a (setitem a i x).
Proof.
  intros h y h' tr Ha E. unfold setitem in E.
  destruct (nth_error h a) as [v|]; try discriminate.
  destruct (index (length v) i) as [k|]; try discriminate.
  injection E as <- <- <-. rewrite length_replace_nth. splits; simpl; auto.
  intros r _ Hr. now apply nth_error_replace_nth_neq.
Qed.

Lemma yields_copies_yield_copy (a : ref) (i : Info) : yields_copies a (yield_copy a i).
Proof.
  intros h y h' tr Ha E. unfold yield_copy, bind, list_copy, yield in E.
  destruct (nth_error h a) as [v|]; try discriminate.
  rewrite nth_error_app2, Nat.sub_diag in E by lia. simpl in E.
  injection E as <- <- <-. rewrite length_app. simpl. splits; auto; try lia.
  - intros r Hr _. now apply nth_error_app1.
  - repeat constructor; simpl; try lia.
    unfold retained; simpl. now rewrite nth_error_app2, Nat.sub_diag by lia.
Qed.

Lemma yields_copies_swap (a : ref) (p q : Z) : yields_copies a (swap a p q).
Proof.
  unfold swap.
  repeat (apply yields_copies_bind; [|intros ?]);
    auto using yields_copies_getitem, yields_copies_setitem.
Qed.

Lemma yields_copies_for_fold (S : Type) (a : ref) (l : list Z) (body : Z -> S -> Gen S) :
  (forall j s, yields_copies a (body j s)) ->
  forall s, yields_copies a (for_fold l s body).
Proof.
  intros Hb. induction l as [|j l IH]; intros s; simpl.
  - apply yields_copies_ret.
  - apply yields_copies_bind; auto.
Qed.

Lemma yields_copies_for_break (a : ref) (l : list Z) (body : Z -> Gen bool) :
  (forall j, yields_copies a (body j)) -> yields_copies a (for_break l body).
Proof.
  intros Hb. induction l as [|j l IH]; simpl.
  - apply yields_copies_ret.
  - apply yields_copies_bind; auto. intros [|]; auto. apply yields_copies_ret.
Qed.

Lemma yields_copies_while (S : Type) (a : ref) (cond : S -> Gen bool) (body : S -> Gen S) :
  (forall s, yields_copies a (cond s)) -> (forall s, yields_copies a (body s)) ->
  forall (fuel : nat) s, yields_copies a (while fuel cond body s).
Proof.
  intros Hc Hb fuel. induction fuel as [|fuel IH]; intros s; simpl.
  - intros h x h' tr _ E. discriminate.
  - apply yields_copies_bind; auto. intros [|].
    + apply yields_copies_bind; auto.
    + apply yields_copies_ret.
Qed.

Ltac copies_tac :=
  repeat first
    [ apply yields_copies_ret
    | apply yields_copies_raise
    | apply yields_copies_len
    | apply yields_copies_getitem
    | apply yields_copies_getslice
    | apply yields_copies_item
    | apply yields_copies_setitem
    | apply yields_copies_yield_copy
    | apply yields_copies_swap
    | apply yields_copies_bind; [|intros ?]
    | apply yields_copies_while; intros ?
    | apply yields_copies_for_fold; intros ? ?
    | apply yields_copies_for_break; intros ?
    | match goal with
      | |- yields_copies _ (let (_, _) := ?x in _) => destruct x
      | |- yields_copies _ (if ?b then _ else _) => destruct b
      | |- yields_copies _ (match ?l with [] => _ | _ :: _ => _ end) => destruct l
      end ].

Lemma merge_yields_copies (fuel : nat) (a : ref) (left mid right : Z) :
  yields_copies a (merge fuel a left mid right).
Proof. unfold merge. copies_tac. Qed.

Lemma sort_rec_yields_copies (fuel depth : nat) (a : ref) :
  forall left right, yields_copies a (sort_rec fuel depth a left right).
Proof.
  induction depth as [|depth IH]; intros left right; simpl.
  - intros h x h' tr _ E. discriminate.
  - destruct (right - left <=? 1); [apply yields_copies_ret|].
    apply yields_copies_bind; [apply IH|intros _].
    apply yields_copies_bind; [apply IH|intros _].
    apply merge_yields_copies.
Qed.

Lemma quick_step_yields_copies (a : ref) (stack : list (Z * Z)) :
  yields_copies a (quick_step a stack).
Proof. unfold quick_step. copies_tac. Qed.

Lemma generator_snapshots (alg : algorithm) (fuel : nat) (arr : ref) (v0 : list elt)
    (h h' : heap) (tr : list Snapshot) :
  nth_error h arr = Some v0 ->
  generator alg fuel arr h = Ok (tt, h', tr) ->
  ascending (length h) tr /\ Forall (retained h') tr /\
  (v0 <> [] -> ascending (Datatypes.S (length h)) tr).
Proof.
  intros Harr E.
  assert (Hgen : forall rest : ref -> Gen unit,
    bind (list_copy arr) rest h = Ok (tt, h', tr) ->
    rest (length h) (h ++ [v0]) = Ok (tt, h', tr)).
  { intros rest Hr. unfold bind, list_copy in Hr. rewrite Harr in Hr.
    destruct (rest (length h) (h ++ [v0])) as [[[[] h2] t2]| |]; try discriminate.
    exact Hr. }
  assert (Hlen : forall (k : Z -> Gen unit),
    bind (len (length h)) k (h ++ [v0]) = Ok (tt, h', tr) ->
    k (Z.of_nat (length v0)) (h ++ [v0]) = Ok (tt, h', tr)).
  { intros k Hk. unfold bind, len in Hk.
    rewrite nth_error_app2, Nat.sub_diag in Hk by lia. simpl in Hk.
    destruct (k (Z.of_nat (length v0)) (h ++ [v0])) as [[[[] h2] t2]| |];
      try discriminate.
    exact Hk. }
  assert (Hcopies : forall m : Gen unit,
    yields_copies (length h) m -> m (h ++ [v0]) = Ok (tt, h', tr) ->
    ascending (length h) tr /\ Forall (retained h') tr /\
    (v0 <> [] -> ascending (Datatypes.S (length h)) tr)).
  { intros m Hm Em.
    destruct (Hm (h ++ [v0]) tt h' tr) as (_ & _ & Ha & Hr); auto.
    { rewrite length_app; simpl; lia. }
    rewrite length_app in Ha. simpl in Ha.
    replace (length h + 1)%nat with (Datatypes.S (length h)) in Ha by lia.
    splits; auto.
    - eapply ascending_weaken; [|exact Ha]. lia.
    - eapply Forall_impl; [|exact Hr]. simpl; tauto. }
  assert (Hguard : forall (i : Info) (m : Gen unit),
    yields_copies (length h) m ->
    (if Z.of_nat (length v0) =? 0 then yield (length h) i else m) (h ++ [v0])
      = Ok (tt, h', tr) ->
    ascending (length h) tr /\ Forall (retained h') tr /\
    (v0 <> [] -> ascending (Datatypes.S (length h)) tr)).
  { intros i m Hm Em. destruct (Z.eqb_spec (Z.of_nat (length v0)) 0) as [H0|H0].
    - unfold yield in Em. rewrite nth_error_app2, Nat.sub_diag in Em by lia.
      simpl in Em. injection Em as <- <-. splits.
      + simpl; auto.
      + repeat constructor. unfold retained; simpl.
        now rewrite nth_error_app2, Nat.sub_diag by lia.
      + intros Hne. destruct v0; [congruence|simpl in H0; lia].
    - apply (Hcopies m); auto. }
  assert (Hfin : forall m : Gen unit,
    (yields_copies (length h) m \/
     exists i m', yields_copies (length h) m' /\
       m = if Z.of_nat (length v0) =? 0 then yield (length h) i else m') ->
    m (h ++ [v0]) = Ok (tt, h', tr) ->
    ascending (length h) tr /\ Forall (retained h') tr /\
    (v0 <> [] -> ascending (Datatypes.S (length h)) tr)).
  { intros m [Hm|(i & m' & Hm & ->)] Em; eauto. }
  destruct alg; simpl in E; apply Hgen, Hlen in E; cbv beta in E;
    (eapply Hfin; [|exact E]).
  - right. do 2 eexists. split; [|reflexivity]. copies_tac.
  - left. unfold for_each. copies_tac.
  - left. unfold for_each. copies_tac.
  - right. do 2 eexists. split; [|reflexivity].
    copies_tac. apply sort_rec_yields_copies.
  - right. do 2 eexists. split; [|reflexivity].
    unfold quick_loop. copies_tac. apply quick_step_yields_copies.
Qed.

(** X1: the snapshots a generator yields are objects of their own.  Each is
    allocated during the call (its reference is none of the caller's store),
    no two frames share an object, and at the end of the run each still holds
    the array it showed when it was yielded; on a non-empty input none is the
    working list itself (the object [length h], the first one allocated). *)
Theorem snapshots_are_copies (alg : algorithm) (h : heap) (arr : ref)
    (input : list elt) (fuel : nat) :
  nth_error h arr = Some input ->
  (2 * length input + 2 <= fuel)%nat ->
  exists h' tr,
    generator alg fuel arr h = Ok (tt, h', tr) /\
    Forall (fun s => (length h <= snap_ref s)%nat /\
                     nth_error h' (snap_ref s) = Some (snap_arr s)) tr /\
    NoDup (map snap_ref tr) /\
    (input <> [] -> Forall (fun s => (length h < snap_ref s)%nat) tr).
Proof.
  intros Harr Hfuel.
  destruct (generator_spec alg Hfuel h arr Harr) as (h' & tr & E & _ & _).
  exists h', tr. split; auto.
  destruct (generator_snapshots _ _ _ _ Harr E) as (Ha & Hr & Hne).
  destruct (ascending_NoDup _ _ Ha) as [ND Hlo]. splits; auto.
  - rewrite Forall_forall in *. intros s Hs. split; auto. apply Hr; auto.
  - intros H0. destruct (ascending_NoDup _ _ (Hne H0)) as [_ Hlo'].
    eapply Forall_impl; [|exact Hlo']. simpl; intros; lia.
Qed.

(** *** The final keys do not depend on the algorithm *)

Lemma sorted_keys_unique (k1 k2 : list Z) :
  StronglySorted Z.le k1 -> StronglySorted Z.le k2 -> Permutation k1 k2 -> k1 = k2.
Proof.
  intros H1; revert k2; induction H1 as [|x k1 Hs1 IH Hx]; intros k2 H2 HP.
  - now apply Permutation_nil in HP.
  - destruct H2 as [|y k2 Hs2 Hy].
    { symmetry in HP. now apply Permutation_nil in HP. }
    assert (Hxy : x = y).
    { assert (Hin1 : In x (y :: k2)) by (eapply Permutation_in; [exact HP|now left]).
      assert (Hin2 : In y (x :: k1))
        by (eapply Permutation_in; [symmetry; exact HP|now left]).
      rewrite Forall_forall in Hx, Hy.
      destruct Hin1 as [->|Hin1]; auto. destruct Hin2 as [->|Hin2]; auto.
      specialize (Hx _ Hin2). specialize (Hy _ Hin1). lia. }
    subst y. f_equal. apply IH; auto. eapply Permutation_cons_inv; eauto.
Qed.

Lemma StronglySorted_map_key (l : list elt) :
  StronglySorted le_key l -> StronglySorted Z.le (map key l).
Proof.
  induction 1 as [|x l Hs IH Hx]; simpl; constructor; auto.
  apply Forall_map. exact Hx.
Qed.

Lemma sorted_perm_keys (l1 l2 : list elt) :
  StronglySorted le_key l1 -> StronglySorted le_key l2 -> Permutation l1 l2 ->
  map key l1 = map key l2.
Proof.
  intros H1 H2 HP. apply sorted_keys_unique; auto using StronglySorted_map_key.
  now apply Permutation_map.
Qed.

Lemma kget_map_key (l : list elt) (p : Z) :
  kget l p = nth (Z.to_nat p) (map key l) 0.
Proof.
  unfold kget. revert l; induction (Z.to_nat p) as [|k IH]; intros [|x l]; simpl; auto.
Qed.

(** X2: whatever the algorithm, the final frame shows the same sequence of
    keys, that of the stable sort of the input; on plain numbers the five
    generators end on the same array. *)
Theorem final_keys_agree (alg : algorithm) (input : list elt) (fuel : nat) :
  (2 * length input + 2 <= fuel)%nat ->
  exists fs last,
    run (generator alg fuel) input = Ok (fs ++ [last]) /\
    map key (fst last) = map key (stable_sort input).
Proof.
  intros Hfuel.
  destruct (run_spec (generator_spec alg Hfuel)) as (fs & E & Hpost).
  destruct (sort_post_last Hpost) as (init & vf & -> & HP & HS).
  exists init, (vf, info [] (range 0 (Z.of_nat (length input)))). split; auto.
  apply sorted_perm_keys; auto using stable_sort_sorted.
  eapply perm_trans; [exact HP|]. symmetry. apply stable_sort_perm.
Qed.

(** *** Adjacent swaps of different keys keep the order within each key *)

Lemma replace_nth_comm (A : Type) (k k' : nat) (x y : A) (l : list A) :
  k <> k' ->
  replace_nth k x (replace_nth k' y l) = replace_nth k' y (replace_nth k x l).
Proof.
  revert k k'; induction l as [|z l IH]; intros [|k] [|k'] H; simpl; auto;
    try congruence.
  f_equal. apply IH. lia.
Qed.

Lemma adjacent_split (v : list elt) (j : nat) (x y : elt) :
  nth_error v j = Some x -> nth_error v (Datatypes.S j) = Some y ->
  exists l1 l2, v = l1 ++ x :: y :: l2 /\ length l1 = j.
Proof.
  revert j; induction v as [|z v IH]; intros [|j] Hx Hy; simpl in *; try discriminate.
  - injection Hx as ->. destruct v as [|z' v]; simpl in Hy; try discriminate.
    injection Hy as ->. exists [], v. auto.
  - destruct (IH j Hx Hy) as (l1 & l2 & -> & Hl).
    exists (z :: l1), l2. simpl. auto.
Qed.

Lemma filt_eq_swap_adjacent (v0 v : list elt) (j : Z) (x y : elt) :
  0 <= j ->
  nth_error v (Z.to_nat j) = Some x -> nth_error v (Z.to_nat (j + 1)) = Some y ->
  key x <> key y ->
  filt_eq v0 v -> filt_eq v0 (vswap v j (j + 1)).
Proof.
  intros Hj Hx Hy Hne Hf k. rewrite <- (Hf k).
  unfold vswap, upd. rewrite Hx, Hy.
  replace (Z.to_nat (j + 1)) with (Datatypes.S (Z.to_nat j)) in * by lia.
  destruct (adjacent_split _ _ Hx Hy) as (l1 & l2 & -> & Hl).
  rewrite <- Hl.
  rewrite <- (Nat.add_0_r (length l1)) at 2. rewrite replace_nth_app_r.
  replace (Datatypes.S (length l1)) with (length l1 + 1)%nat by lia.
  rewrite replace_nth_app_r. simpl.
  rewrite !key_filter_app, !key_filter_cons.
  destruct (Z.eqb_spec (key x) k), (Z.eqb_spec (key y) k); auto. congruence.
Qed.

(** *** bubble_sort: stability and the sorted tail *)

Lemma bubble_mark_intro (v0 : list elt) (n m : Z) (w : list elt) (act : list Z) :
  filt_eq v0 w -> state_ok v0 w -> 0 <= m <= n -> tail_ok n w m ->
  bubble_mark v0 n (w, info act (range m n)).
Proof.
  intros Hf [_ HP] Hm Ht. unfold bubble_mark; simpl. splits; auto. exists m. auto.
Qed.

Lemma bubble_sort_marks (v0 : list elt) :
  gen_spec bubble_sort v0 (Forall (bubble_mark v0 (Z.of_nat (length v0)))).
Proof.
  unfold bubble_sort. apply gen_intro. intros a.
  step. set (n := Z.of_nat (length v0)).
  assert (Hfirst : bubble_mark v0 n (v0, info [] [])).
  { rewrite <- (range_nil (lo := n) (hi := n)) by lia.
    apply bubble_mark_intro; auto using state_ok_refl; try (unfold n; lia).
    - intros k; reflexivity.
    - unfold tail_ok, sorted_on. split; intros; lia. }
  destruct (Z.eqb_spec n 0) as [Hn0|Hn0].
  - step. repeat first [apply Forall_nil|apply Forall_cons]. apply Hfirst.
  - step. apply spec_bind.
    eapply spec_weaken.
    { apply spec_for_break with
        (I := fun i v t => bubble_outer_inv v0 n i v [] /\ filt_eq v0 v /\
                           Forall (bubble_mark v0 n) t)
        (D := fun v t => bubble_done v0 n v [] /\ filt_eq v0 v /\
                         Forall (bubble_mark v0 n) t)
        (lo0 := 0) (k := Z.to_nat (n - 0)) (t := []); try lia.
      2:{ splits; auto.
          - unfold bubble_outer_inv, tail_ok, sorted_on; splits;
              auto using state_ok_refl; intros; lia.
          - intros k; reflexivity. }
      intros i v t Hi ((Hst & Htl & _) & Hfl & HF).
      apply spec_bind. eapply spec_weaken.
      { apply spec_for_fold with
          (I := fun j s w t' => bubble_inner_inv v0 n (n - i) j s w [] /\
                                filt_eq v0 w /\ Forall (bubble_mark v0 n) t')
          (lo0 := 0) (k := Z.to_nat (n - i - 1 - 0)) (t := t); try lia.
        2:{ splits; auto. unfold bubble_inner_inv; splits; auto.
            - intros p Hp. replace p with 0 by lia. lia.
            - intros _ p q Hp Hpq Hq. replace p with 0 by lia.
              replace q with 0 by lia. lia. }
        intros j s w t1 Hj (Hinv & Hfw & HF1).
        assert (Hw : Z.of_nat (length w) = n)
          by (destruct Hinv as ([Hl _] & _); rewrite Hl; reflexivity).
        assert (Hsw : state_ok v0 w) by apply Hinv.
        assert (Htw : tail_ok n w (n - i)) by apply Hinv.
        step. step as x Hx; [lia|]. step as y Hy; [lia|].
        assert (Hkx := nth_kget _ _ Hx). assert (Hky := nth_kget _ _ Hy).
        rewrite <- Hkx, <- Hky.
        destruct (Z.gtb_spec (kget w j) (kget w (j + 1))) as [Hgt|Hle].
        * step; [lia|lia|]. step. step.
          assert (Hinv' : bubble_inner_inv v0 n (n - i) (j + 1) true
                            (vswap w j (j + 1)) [])
            by (apply bubble_inner_swap with (s := s); auto; lia).
          assert (Hf' : filt_eq v0 (vswap w j (j + 1)))
            by (eapply filt_eq_swap_adjacent; eauto; lia).
          splits; auto.
          apply Forall_app; split; auto. simpl.
          repeat first [apply Forall_nil|apply Forall_cons];
            apply bubble_mark_intro; auto; try lia; apply Hinv'.
        * step. splits; auto.
          -- apply bubble_inner_keep; auto; lia.
          -- apply Forall_app; split; auto. simpl.
             repeat first [apply Forall_nil|apply Forall_cons];
               apply bubble_mark_intro; auto; lia. }
      intros s w t1 (Hinv & Hfw & HF1). cbv beta. step.
      rewrite app_nil_r.
      pose proof (@bubble_pass_end v0 n i s w [] eq_refl Hi Hinv) as Hend.
      destruct (negb s); splits; auto. }
    intros [] v t HD. cbv beta in HD. step.
    assert (Hfin : bubble_done v0 n v [] /\ filt_eq v0 v /\ Forall (bubble_mark v0 n) t).
    { destruct HD as [HD|((Hst & [Hs _] & _) & Hf & HF)]; auto.
      unfold bubble_done; splits; auto. now replace (n - n) with 0 in Hs by lia. }
    destruct Hfin as ((Hst & Hs & _) & Hf & HF).
    simpl in HF. simpl. constructor; auto.
    apply Forall_app; split; auto.
    repeat first [apply Forall_nil|apply Forall_cons].
    apply bubble_mark_intro; auto; try lia.
    unfold tail_ok. split; auto. intros; lia.
Qed.

(** *** Cells marked sorted hold their final keys *)

Lemma stable_sort_id (l : list elt) : StronglySorted le_key l -> stable_sort l = l.
Proof.
  intros Hs. apply sorted_filter_unique; auto using stable_sort_sorted.
  intros k. apply stable_sort_filter.
Qed.

Lemma merge_lists_le (A B : list elt) :
  (forall x y, In x A -> In y B -> key x <= key y) -> merge_lists A B = A ++ B.
Proof.
  revert B; induction A as [|x A IH]; intros B H.
  - apply merge_lists_nil_l.
  - destruct B as [|y B].
    + now rewrite merge_lists_nil_r, app_nil_r.
    + rewrite merge_lists_cons.
      destruct (Z.leb_spec (key x) (key y)) as [_|Hlt].
      * simpl. f_equal. apply IH. intros x' y' Hx' Hy'. apply H; simpl; auto.
      * specialize (H x y (or_introl eq_refl) (or_introl eq_refl)). lia.
Qed.

Lemma kget_skipn (v : list elt) (m i : Z) :
  0 <= m -> 0 <= i -> kget (skipn (Z.to_nat m) v) i = kget v (m + i).
Proof.
  intros Hm Hi. unfold kget. rewrite nth_error_skipn.
  now replace (Z.to_nat (m + i)) with (Z.to_nat m + Z.to_nat i)%nat by lia.
Qed.

Lemma kget_firstn (v : list elt) (m i : Z) :
  0 <= i < m -> kget (firstn (Z.to_nat m) v) i = kget v i.
Proof.
  intros Hi. unfold kget. rewrite nth_error_firstn.
  destruct (Nat.ltb_spec (Z.to_nat i) (Z.to_nat m)); auto. lia.
Qed.

Lemma kget_app_r (A B : list elt) (p : Z) :
  Z.of_nat (length A) <= p -> kget (A ++ B) p = kget B (p - Z.of_nat (length A)).
Proof.
  intros Hp. unfold kget. rewrite nth_error_app2 by lia.
  now replace (Z.to_nat p - length A)%nat with (Z.to_nat (p - Z.of_nat (length A))) by lia.
Qed.

Lemma kget_app_l (A B : list elt) (p : Z) :
  0 <= p < Z.of_nat (length A) -> kget (A ++ B) p = kget A p.
Proof.
  intros Hp. unfold kget. now rewrite nth_error_app1 by lia.
Qed.

Lemma kget_same_keys (l1 l2 : list elt) (p : Z) :
  map key l1 = map key l2 -> kget l1 p = kget l2 p.
Proof. intros H. now rewrite !kget_map_key, H. Qed.

(** The stable sort of a list cut in two parts, the first dominated by the
    second, sorts the two parts on their own. *)
Lemma stable_sort_split (v : list elt) (m : Z) :
  0 <= m <= Z.of_nat (length v) ->
  (forall p q, 0 <= p < m -> m <= q < Z.of_nat (length v) -> kget v p <= kget v q) ->
  stable_sort v =
    stable_sort (firstn (Z.to_nat m) v) ++ stable_sort (skipn (Z.to_nat m) v).
Proof.
  intros Hm Hd.
  rewrite <- (firstn_skipn (Z.to_nat m) v) at 1.
  rewrite <- merge_stable_sort. apply merge_lists_le.
  intros x y Hx Hy.
  apply (Permutation_in _ (stable_sort_perm _)) in Hx, Hy.
  destruct (kget_In _ _ Hx) as (i & Hi & <-).
  destruct (kget_In _ _ Hy) as (j & Hj & <-).
  rewrite length_firstn in Hi. rewrite length_skipn in Hj.
  rewrite kget_firstn, kget_skipn by lia. apply Hd; lia.
Qed.

Lemma marked_tail_final (v vf : list elt) (m : Z) :
  Permutation v vf -> StronglySorted le_key vf ->
  0 <= m <= Z.of_nat (length v) -> tail_ok (Z.of_nat (length v)) v m ->
  forall p, m <= p < Z.of_nat (length v) -> kget v p = kget vf p.
Proof.
  intros HP HS Hm [Hs Hd] p Hp.
  rewrite (@kget_same_keys vf (stable_sort v)).
  2:{ apply sorted_perm_keys; auto using stable_sort_sorted.
      eapply perm_trans; [symmetry; exact HP|]. symmetry. apply stable_sort_perm. }
  rewrite (stable_sort_split v Hm Hd).
  assert (HT : StronglySorted le_key (skipn (Z.to_nat m) v)).
  { apply sorted_on_StronglySorted. intros i j Hi Hij Hj.
    rewrite length_skipn in Hj. rewrite !kget_skipn by lia. apply Hs; lia. }
  rewrite (stable_sort_id HT).
  rewrite kget_app_r; rewrite stable_sort_length, length_firstn; try lia.
  rewrite kget_skipn by lia. f_equal. lia.
Qed.

Lemma marked_prefix_final (v vf : list elt) (m : Z) :
  Permutation v vf -> StronglySorted le_key vf ->
  0 <= m <= Z.of_nat (length v) -> sorted_on v 0 m ->
  (forall p q, 0 <= p < m -> m <= q < Z.of_nat (length v) -> kget v p <= kget v q) ->
  forall p, 0 <= p < m -> kget v p = kget vf p.
Proof.
  intros HP HS Hm Hs Hd p Hp.
  rewrite (@kget_same_keys vf (stable_sort v)).
  2:{ apply sorted_perm_keys; auto using stable_sort_sorted.
      eapply perm_trans; [symmetry; exact HP|]. symmetry. apply stable_sort_perm. }
  rewrite (stable_sort_split v Hm Hd).
  assert (HT : StronglySorted le_key (firstn (Z.to_nat m) v)).
  { apply sorted_on_StronglySorted. intros i j Hi Hij Hj.
    rewrite length_firstn in Hj. rewrite !kget_firstn by lia. apply Hs; lia. }
  rewrite (stable_sort_id HT).
  rewrite kget_app_l by (rewrite length_firstn; lia).
  now rewrite kget_firstn.
Qed.

Lemma run_inj (g : ref -> Gen unit) (input : list elt) (fs fs' : list Frame) :
  run g input = Ok fs -> run g input = Ok fs' -> fs = fs'.
Proof. intros E E'. rewrite E in E'. now injection E'. Qed.

Lemma Forall_last (P : Frame -> Prop) (init : list Frame) (f : Frame) :
  Forall P (init ++ [f]) -> P f.
Proof. intros H. apply Forall_app in H as [_ H]. now apply Forall_inv in H. Qed.

(** X3: [bubble_sort] is stable: it swaps two neighbours only when the left
    one is strictly greater, so its final frame shows the stable sort of the
    input, elements of equal key in their input order. *)
Theorem bubble_sort_stable (input : list elt) :
  exists fs,
    run bubble_sort input =
      Ok (fs ++ [(stable_sort input, info [] (range 0 (Z.of_nat (length input))))]).
Proof.
  destruct (run_spec (@bubble_sort_spec input)) as (fs & E & Hpost).
  destruct (run_spec (@bubble_sort_marks input)) as (fs' & E' & Hmarks).
  rewrite (run_inj _ _ E' E) in Hmarks. clear E' fs'.
  destruct (sort_post_last Hpost) as (init & vf & -> & HP & HS).
  apply Forall_last in Hmarks. destruct Hmarks as (Hf & _).
  exists init. rewrite E. do 4 f_equal.
  apply sorted_filter_unique; auto using stable_sort_sorted.
  intros k. simpl in Hf. now rewrite Hf, stable_sort_filter.
Qed.

(** X4: in every frame of [bubble_sort], each index in the sorted set shows
    the key that the final frame shows at that index: what is marked sorted
    is in its final place. *)
Theorem bubble_sort_marks_final (input : list elt) :
  exists fs last,
    run bubble_sort input = Ok (fs ++ [last]) /\
    Forall (fun f => forall srt idx, sorted (snd f) = Some srt -> In idx srt ->
                     kget (fst f) idx = kget (fst last) idx) (fs ++ [last]).
Proof.
  destruct (run_spec (@bubble_sort_spec input)) as (fs & E & Hpost).
  destruct (run_spec (@bubble_sort_marks input)) as (fs' & E' & Hmarks).
  rewrite (run_inj _ _ E' E) in Hmarks. clear E' fs'.
  destruct (sort_post_last Hpost) as (init & vf & -> & HP & HS).
  exists init, (vf, info [] (range 0 (Z.of_nat (length input)))). split; auto.
  eapply Forall_impl; [|exact Hmarks].
  intros f (_ & HPf & m & Hm & Hsrt & Ht) srt idx Hs Hin. simpl.
  rewrite Hsrt in Hs. injection Hs as <-. apply in_range_iff in Hin.
  assert (Hl : length (fst f) = length input) by now apply Permutation_length.
  apply marked_tail_final with (m := m); auto; rewrite ?Hl; auto.
  eapply perm_trans; [exact HPf|]. now symmetry.
Qed.

(** *** selection_sort: the sorted prefix *)

Lemma sel_mark_intro (v0 : list elt) (n m : Z) (w : list elt) (act : list Z) :
  sel_outer v0 n m w -> 0 <= m <= n -> sel_mark v0 n (w, info act (range 0 m)).
Proof.
  intros ([_ HP] & Hs & Hd) Hm. unfold sel_mark; simpl. split; auto.
  exists m. auto.
Qed.

Lemma selection_sort_marks (v0 : list elt) :
  gen_spec selection_sort v0 (Forall (sel_mark v0 (Z.of_nat (length v0)))).
Proof.
  unfold selection_sort. apply gen_intro. intros a.
  step. set (n := Z.of_nat (length v0)).
  assert (H0 : sel_outer v0 n 0 v0).
  { unfold sel_outer, sorted_on; splits; auto using state_ok_refl; intros; lia. }
  step. apply spec_bind. eapply spec_weaken.
  { apply spec_for_each with
      (I := fun i v t => sel_outer v0 n i v /\ Forall (sel_mark v0 n) t)
      (lo := 0) (t := []); try (unfold n; lia).
    2:{ split; auto. }
    intros i v t Hi [Hout HF].
    assert (Hv : Z.of_nat (length v) = n)
      by (destruct Hout as ([Hl _] & _); rewrite Hl; reflexivity).
    apply spec_bind. eapply spec_weaken.
    { apply spec_for_fold with
        (I := fun j m w t' => w = v /\ sel_inner n i j m v /\
                              Forall (sel_mark v0 n) t')
        (lo0 := i + 1) (k := Z.to_nat (n - (i + 1))) (t := t); try lia.
      2:{ unfold sel_inner; splits; auto; try lia.
          intros p Hp. replace p with i by lia. lia. }
      intros j m w t1 Hj (-> & (Hm & Hmn & Hmin) & HF1).
      step. step as x Hx; [lia|]. step as y Hy; [lia|].
      apply nth_kget in Hx, Hy. rewrite <- Hx, <- Hy.
      destruct (Z.ltb_spec (kget v j) (kget v m)) as [Hlt|Hge].
      - step. step. unfold sel_inner; splits; auto; try lia.
        + intros p Hp. destruct (Z.eq_dec p j) as [->|]; [lia|].
          specialize (Hmin p). lia.
        + apply Forall_app; split; auto. simpl.
          repeat first [apply Forall_nil|apply Forall_cons];
            apply sel_mark_intro; auto; lia.
      - step. unfold sel_inner; splits; auto; try lia.
        + intros p Hp. destruct (Z.eq_dec p j) as [->|]; [lia|].
          apply Hmin; lia.
        + apply Forall_app; split; auto. simpl.
          repeat first [apply Forall_nil|apply Forall_cons];
            apply sel_mark_intro; auto; lia. }
    intros m w t1 (-> & Hin & HF1). cbv beta.
    destruct (Z.eqb_spec i m) as [<-|Him]; simpl.
    - step. rewrite app_nil_r. split; auto.
      rewrite <- (vswap_same v i). apply sel_outer_next; auto.
    - assert (Hmr : i <= m < n) by (destruct Hin as (? & ? & _); lia).
      assert (Hnext : sel_outer v0 n (i + 1) (vswap v i m))
        by (apply sel_outer_next; auto).
      step; [lia|lia|]. step. split; auto.
      apply Forall_app in HF1 as [HFa HFb].
      apply Forall_app; split; auto. apply Forall_app; split; auto. simpl.
      repeat first [apply Forall_nil|apply Forall_cons].
      apply sel_mark_intro; auto; lia. }
  intros [] v t [Hout HF]. cbv beta. step. simpl in *.
  constructor.
  - rewrite <- (range_nil (lo := 0) (hi := 0)) by lia.
    apply sel_mark_intro; auto. unfold n; lia.
  - apply Forall_app; split; auto.
    repeat first [apply Forall_nil|apply Forall_cons].
    apply sel_mark_intro; auto. unfold n; lia.
Qed.

(** X5: in every frame of [selection_sort], each index in the sorted set
    shows the key that the final frame shows at that index. *)
Theorem selection_sort_marks_final (input : list elt) :
  exists fs last,
    run selection_sort input = Ok (fs ++ [last]) /\
    Forall (fun f => forall srt idx, sorted (snd f) = Some srt -> In idx srt ->
                     kget (fst f) idx = kget (fst last) idx) (fs ++ [last]).
Proof.
  destruct (run_spec (@selection_sort_spec input)) as (fs & E & Hpost).
  destruct (run_spec (@selection_sort_marks input)) as (fs' & E' & Hmarks).
  rewrite (run_inj _ _ E' E) in Hmarks. clear E' fs'.
  destruct (sort_post_last Hpost) as (init & vf & -> & HP & HS).
  exists init, (vf, info [] (range 0 (Z.of_nat (length input)))). split; auto.
  eapply Forall_impl; [|exact Hmarks].
  intros f (HPf & m & Hm & Hsrt & Hs' & Hd) srt idx Hs Hin. simpl.
  rewrite Hsrt in Hs. injection Hs as <-. apply in_range_iff in Hin.
  assert (Hl : length (fst f) = length input) by now apply Permutation_length.
  apply marked_prefix_final with (m := m); auto; rewrite ?Hl; auto.
  eapply perm_trans; [exact HPf|]. now symmetry.
Qed.

(** *** insertion_sort: stability and the untouched tail *)

Lemma hole_shift_swap (w : list elt) (j : Z) (x keyv : elt) :
  0 <= j -> j + 1 < Z.of_nat (length w) ->
  nth_error w (Z.to_nat j) = Some x ->
  upd (upd w (j + 1) x) j keyv = vswap (upd w (j + 1) keyv) j (j + 1).
Proof.
  intros Hj Hlt Hx. unfold vswap, upd.
  rewrite nth_error_replace_nth_neq by lia. rewrite Hx.
  rewrite nth_error_replace_nth_eq by lia.
  rewrite !(@replace_nth_comm _ (Z.to_nat j) (Z.to_nat (j + 1))) by lia.
  now rewrite replace_nth_twice.
Qed.

Lemma untouched_upd (v0 w : list elt) (i k : Z) (x : elt) :
  0 <= k < i -> untouched v0 i w -> untouched v0 i (upd w k x).
Proof.
  intros Hk Hu p Hp. unfold upd. rewrite nth_error_replace_nth_neq by lia. now apply Hu.
Qed.

Lemma ins_mark_intro (v0 : list elt) (n m : Z) (w : list elt) (act : list Z) :
  0 <= m -> untouched v0 m w -> ins_mark v0 n (w, info act (range m n)).
Proof.
  intros Hm Hu. exists m. simpl. splits; auto. intros p Hp. apply Hu. lia.
Qed.

Lemma insertion_sort_marks (v0 : list elt) (fuel : nat) :
  (length v0 <= fuel)%nat ->
  gen_spec (insertion_sort fuel) v0 (fun fs =>
    exists init last, fs = init ++ [last] /\
      Forall (ins_mark v0 (Z.of_nat (length v0))) init /\
      filt_eq v0 (fst last)).
Proof.
  intros Hfuel. unfold insertion_sort. apply gen_intro. intros a.
  step. set (n := Z.of_nat (length v0)).
  step. apply spec_bind.
  assert (Hloop : spec a v0
    (for_each (range 1 n) (fun i =>
       keyv <- getitem a i ;;
       j <- while fuel
              (fun j => if j >=? 0 then x <- getitem a j ;; ret (key x >? key keyv)
                        else ret false)
              (fun j =>
                 yield_copy a (info [j; j + 1] (range (i + 1) n)) ;;
                 x <- getitem a j ;;
                 setitem a (j + 1) x ;;
                 let j := j - 1 in
                 yield_copy a (info [j + 1] (range (i + 1) n)) ;;
                 ret j)
              (i - 1) ;;
       setitem a (j + 1) keyv ;;
       yield_copy a (info [j + 1] (range (i + 1) n))))
    (fun _ v t => filt_eq v0 v /\ Forall (ins_mark v0 n) t)).
  { destruct (Z_le_dec 1 n) as [Hn|Hn].
    2:{ rewrite range_nil by lia. unfold for_each; simpl. step. split; auto.
        intros k; reflexivity. }
    eapply spec_weaken.
    { apply spec_for_each with
        (I := fun i v t => ins_outer v0 i v /\ filt_eq v0 v /\ untouched v0 i v /\
                           Forall (ins_mark v0 n) t)
        (lo := 1) (t := []); try lia.
      2:{ splits; auto.
          - unfold ins_outer, sorted_on; splits; auto using state_ok_refl.
            intros i j ? ? ?. replace i with 0 by lia. replace j with 0 by lia. lia.
          - intros k; reflexivity.
          - intros p _; reflexivity. }
      intros i v t Hi (Hout & Hfv & Huv & HF).
      assert (Hv : Z.of_nat (length v) = n)
        by (destruct Hout as ([Hl _] & _); rewrite Hl; reflexivity).
      step as keyv Hk; [lia|].
      apply spec_bind. eapply spec_weaken.
      { apply spec_while with
          (I := fun j w t' => ins_hole v0 i keyv j w /\
                              filt_eq v0 (upd w (j + 1) keyv) /\
                              untouched v0 (i + 1) w /\
                              Forall (ins_mark v0 n) t')
          (mu := fun j => Z.to_nat (j + 1))
          (Q := fun j w t' => (ins_hole v0 i keyv j w /\
                               (j < 0 \/ kget w j <= key keyv)) /\
                              filt_eq v0 (upd w (j + 1) keyv) /\
                              untouched v0 (i + 1) w /\
                              Forall (ins_mark v0 n) t')
          (t := t); try lia.
        2:{ splits; auto.
            - apply ins_hole_init; auto.
            - unfold upd. replace (i - 1 + 1) with i by lia.
              now rewrite replace_nth_same.
            - intros p Hp. apply Huv. lia. }
        intros j w t1 (Hh & Hfw & Huw & HF1).
        assert (Hw : Z.of_nat (length w) = n)
          by (destruct Hh as (_ & Hl & _); rewrite Hl; reflexivity).
        assert (Hjr : -1 <= j < i) by apply Hh.
        destruct (Z.geb_spec j 0) as [Hj|Hj].
        - step as x Hx; [lia|]. step. splits; auto.
          destruct (Z.gtb_spec (key x) (key keyv)) as [Hgt|Hle].
          + step. step as x' Hx'; [lia|].
            assert (x' = x) by congruence. subst x'.
            step; [lia|]. step. step. split; [|lia]. splits.
            * apply ins_hole_shift; auto; fold n; lia.
            * replace (j - 1 + 1) with j by lia.
              rewrite hole_shift_swap by (auto; lia).
              eapply filt_eq_swap_adjacent; eauto; try lia.
              -- unfold upd. rewrite nth_error_replace_nth_neq by lia. exact Hx.
              -- unfold upd. apply nth_error_replace_nth_eq. lia.
              -- lia.
            * apply untouched_upd; auto; lia.
            * apply Forall_app; split; auto. simpl.
              repeat first [apply Forall_nil|apply Forall_cons];
                apply ins_mark_intro; auto; try lia.
              apply untouched_upd; auto; lia.
          + splits; auto. right. rewrite (nth_kget _ _ Hx). lia.
        - step. splits; auto. }
      intros j w t1 ([Hh Hex] & Hfw & Huw & HF1). cbv beta.
      assert (Hjr : -1 <= j < i) by apply Hh.
      assert (Hw : Z.of_nat (length w) = n)
        by (destruct Hh as (_ & Hl & _); rewrite Hl; reflexivity).
      step; [lia|]. step. splits; auto.
      + apply ins_hole_place; auto. fold n; lia.
      + apply untouched_upd; auto; lia.
      + apply Forall_app in HF1 as [HFa HFb].
        simpl. apply Forall_app; split; auto. apply Forall_app; split; auto.
        repeat first [apply Forall_nil|apply Forall_cons].
        apply ins_mark_intro; auto; try lia. apply untouched_upd; auto; lia. }
    intros [] v t (Hout & Hfv & _ & HF). cbv beta. split; auto. }
  eapply spec_weaken; [exact Hloop|].
  intros [] v t [Hfv HF]. cbv beta. step. clear Hloop.
  exists ([(v0, info [] [])] ++ t), (v, info [] (range 0 n)). splits; auto.
  simpl. apply Forall_cons; auto.
  rewrite <- (range_nil (lo := n) (hi := n)) by lia.
  apply ins_mark_intro; [unfold n; lia|]. intros p _; reflexivity.
Qed.

(** X6: [insertion_sort] is stable: it shifts an element only past strictly
    greater ones, so its final frame shows the stable sort of the input. *)
Theorem insertion_sort_stable (input : list elt) (fuel : nat) :
  (length input <= fuel)%nat ->
  exists fs,
    run (insertion_sort fuel) input =
      Ok (fs ++ [(stable_sort input, info [] (range 0 (Z.of_nat (length input))))]).
Proof.
  intros Hfuel.
  destruct (run_spec (@insertion_sort_spec input fuel Hfuel)) as (fs & E & Hpost).
  destruct (run_spec (@insertion_sort_marks input fuel Hfuel))
    as (fs' & E' & init' & last' & -> & _ & Hf).
  destruct (sort_post_last Hpost) as (init & vf & -> & HP & HS).
  apply (run_inj _ _ E') in E. apply app_inj_tail in E as [-> ->].
  exists init. rewrite E'. do 4 f_equal.
  apply sorted_filter_unique; auto using stable_sort_sorted.
  intros k. simpl in Hf. now rewrite Hf, stable_sort_filter.
Qed.

(** X7: in every frame of [insertion_sort] but the last, the cells at the
    indices in the sorted set are the cells of the input: the set marks the
    part of the list not reached yet, not a part already in order. *)
Theorem insertion_sort_marks_untouched (input : list elt) (fuel : nat) :
  (length input <= fuel)%nat ->
  exists fs last,
    run (insertion_sort fuel) input = Ok (fs ++ [last]) /\
    Forall (fun f => forall srt idx, sorted (snd f) = Some srt -> In idx srt ->
                     nth_error (fst f) (Z.to_nat idx) = nth_error input (Z.to_nat idx))
           fs.
Proof.
  intros Hfuel.
  destruct (run_spec (@insertion_sort_marks input fuel Hfuel))
    as (fs & E & init & last & -> & HF & _).
  exists init, last. split; auto.
  eapply Forall_impl; [|exact HF].
  intros f (m & Hm & Hsrt & Hu) srt idx Hs Hin.
  rewrite Hsrt in Hs. injection Hs as <-. apply in_range_iff in Hin. now apply Hu.
Qed.

(** *** The nested [partition] and [quick_rec] *)

Lemma partition_spec (a : ref) (v : list elt) (low high : Z) :
  0 <= low -> low <= high -> high < Z.of_nat (length v) ->
  spec a v (partition a low high)
    (fun i w t => exists t0,
       t = t0 ++ [(w, info_label [i; high] "pivot swap")] /\
       Forall (frame_ok (Z.of_nat (length v)) (perm_of v)) t /\
       state_ok v w /\ within v w low high /\ partitioned w low i high).
Proof.
  intros Hl Hlh Hh. set (n := Z.of_nat (length v)) in *.
  unfold partition.
  step as pivot Hpiv; [lia|]. apply nth_kget in Hpiv.
  apply spec_bind. eapply spec_weaken.
  { apply spec_for_fold with
      (I := fun j i w t => scan_inv v v low high (key pivot) j i w /\
                           Forall (frame_ok n (perm_of v)) t)
      (lo0 := low) (k := Z.to_nat (high - low)) (t := []); try lia.
    2:{ unfold scan_inv; splits; auto using within_refl, state_ok_refl; try lia;
        intros; lia. }
    intros j i w t Hj [Hsc HF].
    assert (Hw : Z.of_nat (length w) = n)
      by (destruct Hsc as (_ & [Hlw _] & _); rewrite Hlw; auto).
    assert (Hpw : perm_of v w) by apply Hsc.
    assert (Hij : low <= i <= j) by apply Hsc.
    step. step as x Hx; [lia|]. apply nth_kget in Hx. rewrite <- Hx.
    destruct (Z.ltb_spec (kget w j) (key pivot)) as [Hlt|Hge].
    - step; [lia|lia|]. step. step. split.
      + apply scan_inv_swap; auto; lia.
      + forall_frames.
    - step. split.
      + apply scan_inv_keep; auto.
      + forall_frames. }
  intros i w t [Hsc HF]. cbv beta.
  assert (Hw : Z.of_nat (length w) = n)
    by (destruct Hsc as (_ & [Hlw _] & _); rewrite Hlw; auto).
  assert (Hpw : perm_of v w) by apply Hsc.
  assert (Hij : low <= i <= high) by apply Hsc.
  destruct (scan_inv_done (v0 := v) (v := v) (low := low) (high := high)
              (pk := key pivot) (i := i) (w := w)) as (Hst' & Hw' & Hpart); auto; try lia.
  step; [lia|lia|]. step. step.
  exists t. splits; auto.
  simpl in HF. forall_frames.
Qed.

Lemma length_slice (A : Type) (l : list A) (lo hi : Z) :
  0 <= lo -> lo <= hi -> hi <= Z.of_nat (length l) ->
  length (slice l lo hi) = Z.to_nat (hi - lo).
Proof.
  intros Hlo Hlh Hhi. unfold slice, clamp.
  destruct (Z.ltb_spec lo 0); [lia|]. destruct (Z.ltb_spec hi 0); [lia|].
  rewrite length_firstn, length_skipn. lia.
Qed.

Lemma item_last (L : list elt) :
  L <> [] -> exists x, item L (-1) = ret x.
Proof.
  intros HL. assert (Hlen : (0 < length L)%nat) by (destruct L; simpl; [congruence|lia]).
  unfold item, index.
  destruct (Z.leb_spec 0 (-1)); [lia|]. simpl.
  destruct (Z.leb_spec (- Z.of_nat (length L)) (-1)); [|lia].
  destruct (Z.ltb_spec (-1) 0); [|lia]. simpl.
  destruct (nth_error L (Z.to_nat (Z.of_nat (length L) + -1))) as [x|] eqn:E.
  - now exists x.
  - apply nth_error_None in E. lia.
Qed.

(** X8: the nested [partition(low, high)] of [quick_sort], on a range inside
    the list, ends with a 'pivot swap' frame and returns an index [i] such
    that the list, a rearrangement of the one it started from that differs
    from it only inside the range, has the smaller keys of the range left of
    [i] and the others right of it. *)
Theorem partition_returns_pivot_index (a : ref) (h : heap) (v : list elt) (low high : Z) :
  nth_error h a = Some v ->
  0 <= low -> low <= high -> high < Z.of_nat (length v) ->
  exists i w h' tr t0,
    partition a low high h = Ok (i, h', tr) /\
    nth_error h' a = Some w /\
    frames tr = t0 ++ [(w, info_label [i; high] "pivot swap")] /\
    Permutation w v /\ within v w low high /\ partitioned w low i high.
Proof.
  intros Hh Hl Hlh Hhi.
  destruct (@partition_spec a v low high Hl Hlh Hhi h Hh)
    as (i & w & h' & tr & E & Hw & _ & t0 & Ht & _ & [_ HP] & Hwi & Hpa).
  exists i, w, h', tr, t0. splits; auto.
Qed.

(** X9: the nested [quick_rec(low, high)] of [quick_sort] on a proper range
    inside the list does one [partition] and nothing more: it returns with
    the store and the frames of that [partition]. *)
Theorem quick_rec_is_one_partition (a : ref) (h : heap) (v : list elt) (low high : Z) :
  nth_error h a = Some v ->
  0 <= low -> low < high -> high < Z.of_nat (length v) ->
  exists i h' tr,
    partition a low high h = Ok (i, h', tr) /\
    quick_rec a low high h = Ok (tt, h', tr).
Proof.
  intros Hh Hl Hlh Hhi.
  destruct (@partition_spec a v low high Hl (Z.lt_le_incl _ _ Hlh) Hhi h Hh)
    as (i & w & h' & tr & E & Hw & _ & _ & _ & _ & [Hlen _] & _).
  exists i, h', tr. split; auto.
  unfold quick_rec. destruct (Z.ltb_spec low high) as [_|]; [|lia].
  unfold bind at 1. rewrite E.
  unfold bind at 1. unfold getslice. rewrite Hw.
  destruct (@item_last (slice w low (high + 1))) as [x Hx].
  { intros Hnil. apply (f_equal (@length elt)) in Hnil.
    rewrite length_slice in Hnil by lia. simpl in Hnil. lia. }
  unfold bind. rewrite Hx. unfold ret. now rewrite !app_nil_r.
Qed.

(** *** The generator table as the application calls it *)

Lemma new_generator_spec (alg : algorithm) (arr : list elt) :
  exists fs, new_generator alg arr = Ok fs /\ sort_post (frame_rel alg arr) arr fs.
Proof.
  unfold new_generator.
  exact (run_spec (generator_spec alg (le_n (2 * length arr + 2)))).
Qed.

(** *** Which frames of [insertion_sort] and [merge_sort] are rearrangements *)

Lemma Permutation_key_filter (k : Z) (l l' : list elt) :
  Permutation l l' -> length (key_filter k l) = length (key_filter k l').
Proof.
  induction 1 as [|x l l' _ IH|x y l|l l' l'' _ IH1 _ IH2]; auto.
  - rewrite !key_filter_cons. destruct (key x =? k); simpl; auto.
  - rewrite !key_filter_cons. destruct (key x =? k), (key y =? k); reflexivity.
  - congruence.
Qed.

Lemma key_filter_upd (w : list elt) (h : Z) (x y : elt) :
  0 <= h -> nth_error w (Z.to_nat h) = Some y -> key y <> key x ->
  length (key_filter (key x) (upd w h x)) =
    Datatypes.S (length (key_filter (key x) w)).
Proof.
  intros Hh Hy Hne.
  destruct (nth_error_split _ _ Hy) as (l1 & l2 & -> & Hl).
  unfold upd. rewrite <- Hl, <- (Nat.add_0_r (length l1)), replace_nth_app_r. simpl.
  rewrite !key_filter_app, !key_filter_cons, Z.eqb_refl.
  destruct (Z.eqb_spec (key y) (key x)); [contradiction|].
  rewrite !length_app. simpl. lia.
Qed.

(** With a hole that shows a key other than the one held out, the list is
    not a rearrangement of the input. *)
Lemma ins_hole_garbled (v0 : list elt) (i : Z) (keyv : elt) (j : Z) (w : list elt)
    (inf : Info) :
  i < Z.of_nat (length v0) ->
  ins_hole v0 i keyv j w -> key keyv < kget w (j + 1) ->
  garbled v0 (w, inf).
Proof.
  intros Hi (Hji & Hl & HP & Hin & Hk & _) Hlt. unfold garbled; simpl. splits; auto.
  intros HPw.
  destruct (@nth_error_in_range _ w (j + 1)) as [y Ey]; [lia|].
  rewrite (nth_kget _ _ Ey) in Hlt.
  assert (E := @key_filter_upd w (j + 1) keyv y ltac:(lia) Ey ltac:(lia)).
  apply (Permutation_key_filter (key keyv)) in HP, HPw. lia.
Qed.

Lemma concat_snoc (A : Type) (ls : list (list A)) (l : list A) :
  concat (ls ++ [l]) = concat ls ++ l.
Proof.
  induction ls as [|x ls IH]; simpl.
  - apply app_nil_r.
  - now rewrite IH, app_assoc.
Qed.

Lemma insertion_sort_episodes (v0 : list elt) (fuel : nat) :
  (length v0 <= fuel)%nat ->
  gen_spec (insertion_sort fuel) v0 (fun fs =>
    exists eps last,
      fs = (v0, info [] []) :: concat eps ++ [last] /\
      rearranged v0 last /\
      Forall2 (insertion_frames v0 (Z.of_nat (length v0)))
        (range 1 (Z.of_nat (length v0))) eps).
Proof.
  intros Hfuel. unfold insertion_sort. apply gen_intro. intros a.
  step. set (n := Z.of_nat (length v0)).
  step. apply spec_bind.
  assert (Hloop : spec a v0
    (for_each (range 1 n) (fun i =>
       keyv <- getitem a i ;;
       j <- while fuel
              (fun j => if j >=? 0 then x <- getitem a j ;; ret (key x >? key keyv)
                        else ret false)
              (fun j =>
                 yield_copy a (info [j; j + 1] (range (i + 1) n)) ;;
                 x <- getitem a j ;;
                 setitem a (j + 1) x ;;
                 let j := j - 1 in
                 yield_copy a (info [j + 1] (range (i + 1) n)) ;;
                 ret j)
              (i - 1) ;;
       setitem a (j + 1) keyv ;;
       yield_copy a (info [j + 1] (range (i + 1) n))))
    (fun _ v t => Permutation v v0 /\
       exists eps, t = concat eps /\ Forall2 (insertion_frames v0 n) (range 1 n) eps)).
  { destruct (Z_le_dec 1 n) as [Hn|Hn].
    2:{ rewrite range_nil by lia. unfold for_each; simpl. step. split; auto.
        exists []. split; auto. }
    eapply spec_weaken.
    { apply spec_for_each with
        (I := fun i v t => ins_outer v0 i v /\
                exists eps, t = concat eps /\
                  Forall2 (insertion_frames v0 n) (range 1 i) eps)
        (lo := 1) (t := []); try lia.
      2:{ split.
          - unfold ins_outer, sorted_on; splits; auto using state_ok_refl.
            intros i j ? ? ?. replace i with 0 by lia. replace j with 0 by lia. lia.
          - exists []. rewrite range_nil by lia. split; auto. }
      intros i v t Hi (Hout & eps & -> & Heps).
      assert (Hv : Z.of_nat (length v) = n)
        by (destruct Hout as ([Hl _] & _); rewrite Hl; reflexivity).
      assert (HPv : Permutation v v0) by apply Hout.
      step as keyv Hk; [lia|].
      apply spec_bind. eapply spec_weaken.
      { apply spec_while with
          (I := fun j w sh => ins_hole v0 i keyv j w /\
                  Forall (fun f => sorted (snd f) = Some (range (i + 1) n)) sh /\
                  ((j = i - 1 /\ sh = [] /\ w = v) \/
                   (key keyv < kget w (j + 1) /\
                    exists cmp mid, sh = cmp :: mid /\ mid <> [] /\
                      rearranged v0 cmp /\ active (snd cmp) = [i - 1; i] /\
                      Forall (garbled v0) mid)))
          (mu := fun j => Z.to_nat (j + 1))
          (Q := fun j w sh => (ins_hole v0 i keyv j w /\
                               (j < 0 \/ kget w j <= key keyv)) /\
                  Forall (fun f => sorted (snd f) = Some (range (i + 1) n)) sh /\
                  ((sh = [] /\ w = v) \/
                   (exists cmp mid, sh = cmp :: mid /\ mid <> [] /\
                      rearranged v0 cmp /\ active (snd cmp) = [i - 1; i] /\
                      Forall (garbled v0) mid)))
          (t := []); try lia.
        2:{ splits; auto. apply ins_hole_init; auto. }
        intros j w sh (Hh & Hsrt & Hph).
        assert (Hw : Z.of_nat (length w) = n)
          by (destruct Hh as (_ & Hl & _); rewrite Hl; reflexivity).
        assert (Hjr : -1 <= j < i) by apply Hh.
        destruct (Z.geb_spec j 0) as [Hj|Hj].
        - step as x Hx; [lia|]. step. splits; auto.
          destruct (Z.gtb_spec (key x) (key keyv)) as [Hgt|Hle].
          + step. step as x' Hx'; [lia|].
            assert (x' = x) by congruence. subst x'.
            step; [lia|]. step. step.
            assert (Hh' : ins_hole v0 i keyv (j - 1) (upd w (j + 1) x))
              by (apply ins_hole_shift; auto; fold n; lia).
            assert (Hk' : key keyv < kget (upd w (j + 1) x) (j - 1 + 1)).
            { replace (j - 1 + 1) with j by lia.
              rewrite kget_upd_neq by lia. rewrite (nth_kget _ _ Hx). lia. }
            assert (Hg' : forall inf, garbled v0 (upd w (j + 1) x, inf)).
            { intros inf. eapply ins_hole_garbled; eauto. fold n; lia. }
            split; [|lia]. splits; auto.
            * apply Forall_app; split; auto. simpl.
              repeat first [apply Forall_nil|apply Forall_cons]; reflexivity.
            * right. split; auto.
              destruct Hph as [(-> & -> & ->)|(Hkw & cmp & mid & -> & Hmid & Hc & Ha & HF)].
              -- exists (v, info [i - 1; i - 1 + 1] (range (i + 1) n)),
                   [(upd v (i - 1 + 1) x, info [i - 1 - 1 + 1] (range (i + 1) n))].
                 simpl. splits; auto; try discriminate;
                   try (now replace (i - 1 + 1) with i by lia);
                   repeat first [apply Forall_nil|apply Forall_cons]; apply Hg'.
              -- exists cmp,
                   (mid ++ [(w, info [j; j + 1] (range (i + 1) n));
                            (upd w (j + 1) x, info [j - 1 + 1] (range (i + 1) n))]).
                 simpl. splits; auto.
                 ++ intros E. apply app_eq_nil in E as [E _]. contradiction.
                 ++ apply Forall_app; split; auto.
                    repeat first [apply Forall_nil|apply Forall_cons]; auto.
                    eapply ins_hole_garbled; eauto. fold n; lia.
          + splits; auto.
            * right. rewrite (nth_kget _ _ Hx). lia.
            * destruct Hph as [(_ & -> & ->)|(_ & H)]; auto.
        - step. splits; auto.
          destruct Hph as [(_ & -> & ->)|(_ & H)]; auto. }
      intros j w sh ([Hh Hex] & Hsrt & Hph). cbv beta. cbn [app] in Hsrt, Hph.
      assert (Hjr : -1 <= j < i) by apply Hh.
      assert (Hw : Z.of_nat (length w) = n)
        by (destruct Hh as (_ & Hl & _); rewrite Hl; reflexivity).
      step; [lia|]. step. split.
      + apply ins_hole_place; auto. fold n; lia.
      + exists (eps ++ [sh ++ [(upd w (j + 1) keyv, info [j + 1] (range (i + 1) n))]]).
        split.
        * rewrite concat_snoc. reflexivity.
        * rewrite range_snoc by lia. apply Forall2_app; auto.
          repeat constructor.
          -- apply Forall_app; split; auto.
          -- exists (upd w (j + 1) keyv, info [j + 1] (range (i + 1) n)). split.
             ++ apply Hh.
             ++ destruct Hph as [(Esh & _)|(cmp & mid & Esh & H)]; subst sh;
                  [now left|right].
                exists cmp, mid. split; auto. }
    intros [] v t (Hout & eps & Et & Heps). cbv beta. cbn [app] in Et.
    split; [apply Hout|eauto]. }
  eapply spec_weaken; [exact Hloop|].
  intros [] v t (HPv & eps & -> & Heps). cbv beta. step. clear Hloop.
  exists eps, (v, info [] (range 0 n)). splits; auto.
Qed.

(** **** [merge]: the three phases of a call *)

Lemma key_filter_below (k : Z) (l : list elt) :
  Forall (fun y => key y < k) l -> key_filter k l = [].
Proof.
  induction 1 as [|y l Hy _ IH]; auto.
  rewrite key_filter_cons, IH. destruct (Z.eqb_spec (key y) k); auto; lia.
Qed.

Lemma key_filter_skipn (k : Z) (l : list elt) (d : nat) :
  (length (key_filter k (skipn d l)) <= length (key_filter k l))%nat.
Proof.
  rewrite <- (firstn_skipn d l) at 2. rewrite key_filter_app, length_app. lia.
Qed.

Lemma key_filter_skipn_le (k : Z) (l : list elt) (m m' : nat) :
  (m <= m')%nat ->
  (length (key_filter k (skipn m' l)) <= length (key_filter k (skipn m l)))%nat.
Proof.
  intros H. replace m' with ((m' - m) + m)%nat by lia.
  rewrite <- skipn_skipn. apply key_filter_skipn.
Qed.

Lemma Forall_firstn_kget (P : Z -> Prop) (l : list elt) (j : Z) :
  (forall q, 0 <= q < j -> P (kget l q)) ->
  Forall (fun y => P (key y)) (firstn (Z.to_nat j) l).
Proof.
  intros H. apply Forall_forall. intros y Hy.
  destruct (In_nth_error _ _ Hy) as [q Hq].
  assert (Hlt : (q < Z.to_nat j)%nat).
  { assert (Hs : nth_error (firstn (Z.to_nat j) l) q <> None) by congruence.
    apply nth_error_Some in Hs. rewrite length_firstn in Hs. lia. }
  rewrite nth_error_firstn in Hq.
  destruct (Nat.ltb_spec q (Z.to_nat j)); [|lia].
  specialize (H (Z.of_nat q) ltac:(lia)). unfold kget in H.
  now rewrite Nat2Z.id, Hq in H.
Qed.

(** After an element of [R] has been written and before [L] is used up, the
    list is not a rearrangement of the input: the next element of [L] is
    shown once less than the input has it. *)
Lemma merge_inv_garbled (v0 pre L R post : list elt) (i j k : Z) (w : list elt)
    (inf : Info) :
  Permutation (pre ++ L ++ R ++ post) v0 ->
  merge_inv v0 pre L R post i j k w ->
  0 < j -> i < Z.of_nat (length L) ->
  (forall q, 0 <= q < j -> kget R q < kget L i) ->
  garbled v0 (w, inf).
Proof.
  intros HP0 (Hi & Hj & Hk & Hl & Hin & out & Ho & Ew & Hm) Hj0 HiL Hkeys.
  unfold garbled; simpl. splits; auto. intros HPw.
  destruct (@nth_error_in_range _ L i) as [x Hx]; [lia|].
  rewrite (nth_kget _ _ Hx) in Hkeys.
  set (c := fun l => length (key_filter (key x) l)).
  assert (E1 : (c out + c (skipn (Z.to_nat (i + j)) (L ++ R)) = c L + c R)%nat).
  { assert (HPP : Permutation w (pre ++ L ++ R ++ post))
      by (eapply perm_trans; [exact HPw|now symmetry]).
    apply (Permutation_key_filter (key x)) in HPP. rewrite Ew in HPP.
    rewrite !key_filter_app, !length_app in HPP. unfold c. lia. }
  assert (E2 : (c out + (c (skipn (Z.to_nat i) L) + c (skipn (Z.to_nat j) R))
                = c L + c R)%nat).
  { apply (f_equal c) in Hm. unfold c in *.
    rewrite key_filter_app, length_app in Hm.
    rewrite (Permutation_key_filter (key x) (merge_lists_perm _ _)) in Hm.
    rewrite (Permutation_key_filter (key x) (merge_lists_perm L R)) in Hm.
    rewrite !key_filter_app, !length_app in Hm. exact Hm. }
  assert (E3 : (c L = c (firstn (Z.to_nat i) L) + c (skipn (Z.to_nat i) L))%nat).
  { unfold c. rewrite <- (firstn_skipn (Z.to_nat i) L) at 1.
    now rewrite key_filter_app, length_app. }
  assert (E4 : (c R = c (skipn (Z.to_nat j) R))%nat).
  { unfold c. rewrite <- (firstn_skipn (Z.to_nat j) R) at 1.
    rewrite key_filter_app, length_app.
    rewrite (@key_filter_below (key x) (firstn (Z.to_nat j) R)); [reflexivity|].
    apply (@Forall_firstn_kget (fun z => z < key x)). exact Hkeys. }
  assert (E5 : (c L + c R =
                c (firstn (Z.to_nat i) L) + c (skipn (Z.to_nat i) (L ++ R)))%nat).
  { assert (Ef : firstn (Z.to_nat i) (L ++ R) = firstn (Z.to_nat i) L).
    { rewrite firstn_app. replace (Z.to_nat i - length L)%nat with 0%nat by lia.
      simpl. apply app_nil_r. }
    assert (Ec : (c (L ++ R) = c L + c R)%nat)
      by (unfold c; now rewrite key_filter_app, length_app).
    assert (Ed : (c (L ++ R) = c (firstn (Z.to_nat i) (L ++ R))
                               + c (skipn (Z.to_nat i) (L ++ R)))%nat).
    { unfold c. rewrite <- (firstn_skipn (Z.to_nat i) (L ++ R)) at 1.
      now rewrite key_filter_app, length_app. }
    rewrite Ef in Ed. lia. }
  assert (E6 : (Datatypes.S (c (skipn (Z.to_nat (i + j)) (L ++ R)))
                <= c (skipn (Z.to_nat i) (L ++ R)))%nat).
  { assert (Hx' : nth_error (L ++ R) (Z.to_nat i) = Some x)
      by (rewrite nth_error_app1; [exact Hx|lia]).
    rewrite (skipn_nth_error _ _ Hx'). unfold c.
    rewrite key_filter_cons, Z.eqb_refl.
    assert (Hle := @key_filter_skipn_le (key x) (L ++ R)
                     (Datatypes.S (Z.to_nat i)) (Z.to_nat (i + j)) ltac:(lia)).
    cbn [length]. lia. }
  lia.
Qed.

Lemma merge_inv_left_done (v0 pre L R post : list elt) (j k : Z) (w : list elt) :
  merge_inv v0 pre L R post (Z.of_nat (length L)) j k w ->
  w = pre ++ merge_lists L R ++ post.
Proof.
  intros (_ & Hj & _ & _ & _ & out & Ho & -> & Hm).
  rewrite Nat2Z.id, skipn_all, merge_lists_nil_l in Hm.
  rewrite <- Hm, <- app_assoc. do 2 f_equal.
  replace (Z.to_nat (Z.of_nat (length L) + j)) with (length L + Z.to_nat j)%nat by lia.
  rewrite skipn_app, skipn_all2 by lia.
  replace (length L + Z.to_nat j - length L)%nat with (Z.to_nat j) by lia.
  reflexivity.
Qed.

Lemma merge_done_rearranged (v0 pre L R post : list elt) (inf : Info) :
  Permutation (pre ++ L ++ R ++ post) v0 ->
  rearranged v0 (pre ++ merge_lists L R ++ post, inf).
Proof.
  intros HP. unfold rearranged; simpl.
  eapply perm_trans; [|exact HP].
  apply Permutation_app_head. rewrite (app_assoc L R post).
  apply Permutation_app_tail, merge_lists_perm.
Qed.

Lemma merge_trace_nil (v0 L R w0 : list elt) (lbl : Info) (i j : Z) (w : list elt) :
  merge_trace v0 L R w0 lbl i j w [] -> i = 0 /\ j = 0.
Proof.
  intros [(Hj & _ & _ & [(Hi & _)|(f & t & E & _)])
         |[(_ & _ & _ & f & t & g & E & _)|(_ & _ & f & t & g & fin & E & _)]];
    try discriminate E; auto.
Qed.

Lemma merge_trace_nonempty (v0 L R w0 : list elt) (lbl : Info) (i j : Z)
    (w : list elt) (sh : list Frame) :
  merge_trace v0 L R w0 lbl i j w sh -> 0 < i \/ 0 < j -> sh <> [].
Proof.
  intros H Hij ->. apply merge_trace_nil in H. lia.
Qed.

Lemma merge_trace_start (v0 L R w0 : list elt) (lbl : Info) (i j : Z)
    (w : list elt) (sh : list Frame) :
  merge_trace v0 L R w0 lbl i j w sh -> j = 0 -> w = w0.
Proof.
  intros [(_ & E & _)|[(Hj & _)|(Hj & _)]] Hj0; auto; lia.
Qed.

(** A frame that shows the list as it is. *)
Lemma merge_trace_frame (v0 pre L R post : list elt) (lbl inf : Info) (i j k : Z)
    (w : list elt) (sh : list Frame) :
  Permutation (pre ++ L ++ R ++ post) v0 ->
  merge_inv v0 pre L R post i j k w ->
  merge_trace v0 L R (pre ++ L ++ R ++ post) lbl i j w sh ->
  (sh = [] -> inf = lbl) ->
  merge_trace v0 L R (pre ++ L ++ R ++ post) lbl i j w (sh ++ [(w, inf)]).
Proof.
  intros HP0 Hinv
    [(Hj & Ew & HF & Hhd)
    |[(Hj & Hi & Hk & f & t & g & E & Hl & HFi & HFg)
     |(Hj & Hi & f & t & g & fin & E & Hne & Hl & HFi & HFg & HFf)]] Hinf.
  - left. splits; auto.
    + apply Forall_app; split; auto. constructor; auto. now subst w.
    + right. destruct Hhd as [(_ & ->)|(f & t & -> & Hl)].
      * exists (w, inf), []. split; [reflexivity|simpl; auto].
      * exists f, (t ++ [(w, inf)]). split; auto.
  - right; left. splits; auto.
    exists f, t, (g ++ [(w, inf)]). subst sh. splits; auto.
    + now rewrite <- app_assoc.
    + apply Forall_app; split; auto. constructor; auto.
      eapply merge_inv_garbled; eauto.
  - right; right. splits; auto.
    exists f, t, g, (fin ++ [(w, inf)]). subst sh. splits; auto.
    + now rewrite <- !app_assoc.
    + intros E'. apply app_eq_nil in E' as [_ E']. discriminate.
    + apply Forall_app; split; auto. constructor; auto.
      subst i. rewrite (merge_inv_left_done Hinv).
      now apply merge_done_rearranged.
Qed.

(** A write of the next element of [L], and the frame after it. *)
Lemma merge_trace_left (v0 pre L R post : list elt) (lbl inf : Info) (i j k' : Z)
    (w w' : list elt) (sh : list Frame) :
  Permutation (pre ++ L ++ R ++ post) v0 ->
  sorted_on L 0 (Z.of_nat (length L)) ->
  merge_inv v0 pre L R post (i + 1) j k' w' ->
  merge_trace v0 L R (pre ++ L ++ R ++ post) lbl i j w sh ->
  sh <> [] -> 0 <= i < Z.of_nat (length L) -> (j = 0 -> w' = w) ->
  merge_trace v0 L R (pre ++ L ++ R ++ post) lbl (i + 1) j w' (sh ++ [(w', inf)]).
Proof.
  intros HP0 HS Hinv
    [(Hj & Ew & HF & Hhd)
    |[(Hj & Hi & Hk & f & t & g & E & Hl & HFi & HFg)
     |(Hj & Hi & f & t & g & fin & E & Hne & Hl & HFi & HFg & HFf)]] Hsh HiL Hw.
  - left. specialize (Hw Hj). subst w' w. splits; auto.
    + apply Forall_app; split; auto.
    + right. destruct Hhd as [(_ & ->)|(f & t & -> & Hl)]; [contradiction|].
      exists f, (t ++ [(pre ++ L ++ R ++ post, inf)]). split; auto.
  - destruct (Z_lt_dec (i + 1) (Z.of_nat (length L))) as [Hlt|Hge].
    + assert (Hk' : forall q, 0 <= q < j -> kget R q < kget L (i + 1)).
      { intros q Hq. specialize (Hk q Hq).
        assert (kget L i <= kget L (i + 1)) by (apply HS; lia). lia. }
      right; left. splits; auto.
      exists f, t, (g ++ [(w', inf)]). subst sh. splits; auto.
      * now rewrite <- app_assoc.
      * apply Forall_app; split; auto. constructor; auto.
        eapply merge_inv_garbled; eauto.
    + right; right. splits; auto; try lia.
      exists f, t, g, [(w', inf)]. subst sh. splits; auto.
      * now rewrite <- app_assoc.
      * discriminate.
      * constructor; auto.
        replace (i + 1) with (Z.of_nat (length L)) in Hinv by lia.
        rewrite (merge_inv_left_done Hinv). now apply merge_done_rearranged.
  - lia.
Qed.

(** A write of the next element of [R], and the frame after it. *)
Lemma merge_trace_right (v0 pre L R post : list elt) (lbl inf : Info) (i j k' : Z)
    (w w' : list elt) (sh : list Frame) :
  Permutation (pre ++ L ++ R ++ post) v0 ->
  merge_inv v0 pre L R post i (j + 1) k' w' ->
  merge_trace v0 L R (pre ++ L ++ R ++ post) lbl i j w sh ->
  sh <> [] -> 0 <= j -> 0 <= i <= Z.of_nat (length L) ->
  (i < Z.of_nat (length L) -> kget R j < kget L i) ->
  merge_trace v0 L R (pre ++ L ++ R ++ post) lbl i (j + 1) w' (sh ++ [(w', inf)]).
Proof.
  intros HP0 Hinv
    [(Hj & Ew & HF & Hhd)
    |[(Hj & Hi & Hk & f & t & g & E & Hl & HFi & HFg)
     |(Hj & Hi & f & t & g & fin & E & Hne & Hl & HFi & HFg & HFf)]] Hsh Hj0 HiL Hkey.
  - destruct Hhd as [(_ & ->)|(f & t & -> & Hl)]; [contradiction|].
    destruct (Z_lt_dec i (Z.of_nat (length L))) as [Hlt|Hge].
    + right; left. splits; auto; try lia.
      * intros q Hq. replace q with j by lia. auto.
      * exists f, t, [(w', inf)]. splits; auto. constructor; auto.
        eapply merge_inv_garbled; eauto; try lia.
        intros q Hq. replace q with j by lia. auto.
    + right; right. splits; auto; try lia.
      exists f, t, [], [(w', inf)]. splits; auto; try discriminate.
      constructor; auto.
      replace i with (Z.of_nat (length L)) in Hinv by lia.
      rewrite (merge_inv_left_done Hinv). now apply merge_done_rearranged.
  - assert (Hk' : forall q, 0 <= q < j + 1 -> kget R q < kget L i).
    { intros q Hq. destruct (Z.eq_dec q j) as [->|]; auto. apply Hk. lia. }
    right; left. splits; auto; try lia.
    exists f, t, (g ++ [(w', inf)]). subst sh. splits; auto.
    + now rewrite <- app_assoc.
    + apply Forall_app; split; auto. constructor; auto.
      eapply merge_inv_garbled; eauto; lia.
  - right; right. splits; auto; try lia.
    exists f, t, g, (fin ++ [(w', inf)]). subst sh. splits; auto.
    + now rewrite <- !app_assoc.
    + intros E'. apply app_eq_nil in E' as [_ E']. discriminate.
    + apply Forall_app; split; auto. constructor; auto.
      subst i. rewrite (merge_inv_left_done Hinv). now apply merge_done_rearranged.
Qed.

Lemma upd_same_left (pre L R post : list elt) (i : Z) (x : elt) :
  0 <= i -> nth_error L (Z.to_nat i) = Some x ->
  upd (pre ++ L ++ R ++ post) (Z.of_nat (length pre) + i) x = pre ++ L ++ R ++ post.
Proof.
  intros Hi Hx. unfold upd. apply replace_nth_same.
  replace (Z.to_nat (Z.of_nat (length pre) + i)) with (length pre + Z.to_nat i)%nat by lia.
  rewrite nth_error_app2 by lia.
  replace (length pre + Z.to_nat i - length pre)%nat with (Z.to_nat i) by lia.
  rewrite nth_error_app1; auto. apply nth_error_Some. congruence.
Qed.

Lemma merge_episode_spec (a : ref) (v0 pre L R post : list elt) (fuel : nat)
    (left mid right : Z) :
  left = Z.of_nat (length pre) ->
  mid = left + Z.of_nat (length L) ->
  right = mid + Z.of_nat (length R) ->
  Permutation (pre ++ L ++ R ++ post) v0 ->
  StronglySorted le_key L -> L <> [] -> R <> [] ->
  (length L + length R < fuel)%nat ->
  spec a (pre ++ L ++ R ++ post) (merge fuel a left mid right)
    (fun _ w t => w = pre ++ merge_lists L R ++ post /\ merge_frames v0 t).
Proof.
  intros Hleft Hmid Hright HP0 HSL HLne HRne Hfuel.
  set (n := Z.of_nat (length v0)).
  set (lbl := info_label [left] (merging_label left mid right)).
  assert (Hlen : length (pre ++ L ++ R ++ post) = length v0)
    by now apply Permutation_length.
  assert (Hincl : incl (pre ++ L ++ R ++ post) v0)
    by (intros z Hz; eapply Permutation_in; eauto).
  assert (HL : incl L v0).
  { intros z Hz. apply Hincl. rewrite !in_app_iff. auto. }
  assert (HR : incl R v0).
  { intros z Hz. apply Hincl. rewrite !in_app_iff. auto. }
  assert (Hn : Z.of_nat (length pre) + Z.of_nat (length L) + Z.of_nat (length R) <= n).
  { unfold n. rewrite <- Hlen, !length_app. lia. }
  assert (HLpos : 0 < Z.of_nat (length L)) by (destruct L; simpl; [congruence|lia]).
  assert (HRpos : 0 < Z.of_nat (length R)) by (destruct R; simpl; [congruence|lia]).
  assert (HS : sorted_on L 0 (Z.of_nat (length L)))
    by now apply StronglySorted_sorted_on.
  unfold merge.
  step. rewrite slice_segment by auto.
  step. rewrite (app_assoc pre L), slice_segment, <- app_assoc
    by (rewrite ?length_app; lia).
  apply spec_bind. eapply spec_weaken.
  { apply spec_while with
      (I := fun '(i, j, k) w t =>
              merge_inv v0 pre L R post i j k w /\
              merge_trace v0 L R (pre ++ L ++ R ++ post) lbl i j w t)
      (mu := fun '(i, j, k) =>
              Z.to_nat (Z.of_nat (length L) - i + (Z.of_nat (length R) - j)))
      (Q := fun '(i, j, k) w t =>
              (merge_inv v0 pre L R post i j k w /\
               (i = Z.of_nat (length L) \/ j = Z.of_nat (length R))) /\
              merge_trace v0 L R (pre ++ L ++ R ++ post) lbl i j w t)
      (t := []).
    - intros [[i j] k] w t [Hinv HT]. step. splits; auto.
      assert (Hr : 0 <= i <= Z.of_nat (length L) /\ 0 <= j <= Z.of_nat (length R) /\
                   k = Z.of_nat (length pre) + i + j) by (splits; apply Hinv).
      assert (Hw : Z.of_nat (length w) = n)
        by (destruct Hinv as (_ & _ & _ & Hlw & _); rewrite Hlw; auto).
      destruct (Z.ltb_spec i (Z.of_nat (length L))) as [Hi|Hi];
        destruct (Z.ltb_spec j (Z.of_nat (length R))) as [Hj|Hj]; simpl;
        try (splits; auto; lia).
      step. step as x Hx; [lia|]. step as y Hy; [lia|].
      assert (Hxin : In x v0) by (apply HL; eapply nth_error_In; eauto).
      assert (Hyin : In y v0) by (apply HR; eapply nth_error_In; eauto).
      assert (HT1 : merge_trace v0 L R (pre ++ L ++ R ++ post) lbl i j w
                      (t ++ [(w, info_label [k] (merging_label left mid right))])).
      { apply merge_trace_frame with (k := k); auto.
        intros ->. apply merge_trace_nil in HT as [-> ->].
        unfold lbl. do 2 f_equal. lia. }
      assert (Hne1 : t ++ [(w, info_label [k] (merging_label left mid right))] <> [])
        by (intros E; apply app_eq_nil in E as [_ E]; discriminate).
      destruct (Z.leb_spec (key x) (key y)) as [Hle|Hlt].
      + apply spec_bind. step; [lia|]. step. cbv beta iota zeta.
        step. step. split; [split|lia].
        * apply merge_inv_left; eauto.
        * cbn [app].
          match goal with
          | |- merge_trace _ _ _ _ _ _ _ _ (?t ++ [?f1; ?f2]) =>
              replace (t ++ [f1; f2]) with ((t ++ [f1]) ++ [f2])
                by (rewrite <- app_assoc; reflexivity)
          end.
          apply merge_trace_left with (pre := pre) (post := post) (k' := k + 1) (w := w);
            auto; try lia.
          -- apply merge_inv_left; eauto.
          -- intros Hj0. rewrite (merge_trace_start HT Hj0).
             replace k with (Z.of_nat (length pre) + i) by lia.
             apply upd_same_left; auto; lia.
      + apply spec_bind. step; [lia|]. step. cbv beta iota zeta.
        step. step. split; [split|lia].
        * apply merge_inv_right; eauto.
        * cbn [app].
          match goal with
          | |- merge_trace _ _ _ _ _ _ _ _ (?t ++ [?f1; ?f2]) =>
              replace (t ++ [f1; f2]) with ((t ++ [f1]) ++ [f2])
                by (rewrite <- app_assoc; reflexivity)
          end.
          apply merge_trace_right with (pre := pre) (post := post) (k' := k + 1) (w := w);
            auto; try lia.
          -- apply merge_inv_right; eauto.
          -- intros _. rewrite (nth_kget _ _ Hx), (nth_kget _ _ Hy). lia.
    - simpl. lia.
    - split; auto.
      + rewrite Hleft. now apply merge_inv_init.
      + left. splits; auto. }
  intros [[i1 j] k1] w1 t1 [[Hinv1 Hor1] HT1]. cbv beta iota zeta. cbn [app] in HT1.
  apply spec_bind. eapply spec_weaken.
  { apply spec_while with
      (I := fun '(i, k) w t =>
              (merge_inv v0 pre L R post i j k w /\
               (i = Z.of_nat (length L) \/ j = Z.of_nat (length R))) /\
              merge_trace v0 L R (pre ++ L ++ R ++ post) lbl i j w t)
      (mu := fun '(i, k) => Z.to_nat (Z.of_nat (length L) - i))
      (Q := fun '(i, k) w t =>
              merge_inv v0 pre L R post (Z.of_nat (length L)) j k w /\
              merge_trace v0 L R (pre ++ L ++ R ++ post) lbl (Z.of_nat (length L)) j w t)
      (t := t1).
    - intros [i k] w t [[Hinv Hor] HT]. step. splits; auto.
      assert (Hr : 0 <= i <= Z.of_nat (length L) /\ 0 <= j <= Z.of_nat (length R) /\
                   k = Z.of_nat (length pre) + i + j) by (splits; apply Hinv).
      assert (Hw : Z.of_nat (length w) = n)
        by (destruct Hinv as (_ & _ & _ & Hlw & _); rewrite Hlw; auto).
      destruct (Z.ltb_spec i (Z.of_nat (length L))) as [Hi|Hi].
      + step as x Hx; [lia|].
        assert (Hxin : In x v0) by (apply HL; eapply nth_error_In; eauto).
        assert (Hinv' : merge_inv v0 pre L R post (i + 1) j (k + 1) (upd w k x))
          by (apply merge_inv_left; auto; left; lia).
        step; [lia|]. step. step. split; [split; [split|]|lia]; auto.
        * right; lia.
        * cbn [app].
          apply merge_trace_left with (pre := pre) (post := post) (k' := k + 1) (w := w);
            auto; try lia.
          eapply merge_trace_nonempty; eauto; lia.
      + split; auto.
        * replace (Z.of_nat (length L)) with i by lia. exact Hinv.
        * replace (Z.of_nat (length L)) with i by lia. exact HT.
    - destruct Hinv1 as (Hi & _). lia.
    - splits; auto. }
  intros [i2 k2] w2 t2 [Hinv2 HT2]. cbv beta iota zeta.
  apply spec_bind. eapply spec_weaken.
  { apply spec_while with
      (I := fun '(j, k) w t =>
              merge_inv v0 pre L R post (Z.of_nat (length L)) j k w /\
              merge_trace v0 L R (pre ++ L ++ R ++ post) lbl (Z.of_nat (length L)) j w t)
      (mu := fun '(j, k) => Z.to_nat (Z.of_nat (length R) - j))
      (Q := fun '(j, k) w t =>
              merge_inv v0 pre L R post (Z.of_nat (length L)) (Z.of_nat (length R)) k w /\
              merge_trace v0 L R (pre ++ L ++ R ++ post) lbl
                (Z.of_nat (length L)) (Z.of_nat (length R)) w t)
      (t := t1 ++ t2).
    - intros [j' k] w t [Hinv HT]. step. splits; auto.
      assert (Hr : 0 <= j' <= Z.of_nat (length R) /\
                   k = Z.of_nat (length pre) + Z.of_nat (length L) + j')
        by (splits; apply Hinv).
      assert (Hw : Z.of_nat (length w) = n)
        by (destruct Hinv as (_ & _ & _ & Hlw & _); rewrite Hlw; auto).
      destruct (Z.ltb_spec j' (Z.of_nat (length R))) as [Hj|Hj].
      + step as y Hy; [lia|].
        assert (Hyin : In y v0) by (apply HR; eapply nth_error_In; eauto).
        assert (Hinv' : merge_inv v0 pre L R post (Z.of_nat (length L)) (j' + 1)
                          (k + 1) (upd w k y))
          by (apply merge_inv_right; auto).
        step; [lia|]. step. step. split; [split|lia]; auto.
        cbn [app].
        apply merge_trace_right with (pre := pre) (post := post) (k' := k + 1) (w := w);
          auto; try lia.
        eapply merge_trace_nonempty; eauto; lia.
      + split; auto.
        * replace (Z.of_nat (length R)) with j' by lia. exact Hinv.
        * replace (Z.of_nat (length R)) with j' by lia. exact HT.
    - destruct Hinv1 as (_ & Hj & _). lia.
    - splits; auto. }
  intros [j3 k3] w3 t3 [Hinv3 HT3]. cbv beta iota zeta. step. split.
  - eapply merge_inv_done; eauto.
  - simpl. rewrite app_nil_r. rewrite app_assoc.
    destruct HT3
      as [(Hj & _)
         |[(_ & Hi & _)
          |(_ & _ & f & t & g & fin & E & Hne & Hl & HFi & HFg & HFf)]]; try lia.
    exists left, mid, right, f, t, g, fin. splits; auto.
Qed.

Lemma sort_rec_episodes (a : ref) (v0 : list elt) (fuel : nat) :
  forall (depth : nat) (pre seg post : list elt) (left right : Z),
    left = Z.of_nat (length pre) -> right = left + Z.of_nat (length seg) ->
    Permutation (pre ++ seg ++ post) v0 ->
    (length seg < depth)%nat -> (length seg < fuel)%nat ->
    spec a (pre ++ seg ++ post) (sort_rec fuel depth a left right)
      (fun _ w t => w = pre ++ stable_sort seg ++ post /\
         exists eps, t = concat eps /\ Forall (merge_frames v0) eps /\
                     length eps = Nat.pred (length seg)).
Proof.
  induction depth as [|depth IH]; intros pre seg post left right Hl Hr HP Hd Hf;
    [lia|].
  simpl. destruct (Z.leb_spec (right - left) 1) as [Hle|Hgt].
  - step. rewrite stable_sort_short by lia. split; auto.
    exists []. splits; auto. simpl. lia.
  - pose proof (Z.div_mod (left + right) 2 ltac:(lia)) as Hdm.
    pose proof (Z.mod_pos_bound (left + right) 2 ltac:(lia)) as Hmb.
    set (mid := (left + right) / 2) in *.
    set (seg1 := firstn (Z.to_nat (mid - left)) seg).
    set (seg2 := skipn (Z.to_nat (mid - left)) seg).
    assert (Hseg : seg = seg1 ++ seg2) by (symmetry; apply firstn_skipn).
    assert (H1 : length seg1 = Z.to_nat (mid - left))
      by (unfold seg1; rewrite length_firstn; lia).
    assert (H2 : length seg2 = Z.to_nat (right - mid))
      by (unfold seg2; rewrite length_skipn; lia).
    clearbody seg1 seg2. subst seg.
    rewrite !length_app in *. rewrite <- app_assoc in HP.
    assert (P1 : Permutation (stable_sort seg1) seg1) by apply stable_sort_perm.
    assert (P2 : Permutation (stable_sort seg2) seg2) by apply stable_sort_perm.
    assert (L1 := stable_sort_length seg1). assert (L2 := stable_sort_length seg2).
    assert (HP1 : Permutation (pre ++ stable_sort seg1 ++ seg2 ++ post) v0).
    { eapply perm_trans; [|exact HP].
      apply Permutation_app_head, Permutation_app_tail, P1. }
    assert (HP2 : Permutation (pre ++ stable_sort seg1 ++ stable_sort seg2 ++ post) v0).
    { eapply perm_trans; [|exact HP1].
      apply Permutation_app_head, Permutation_app_head, Permutation_app_tail, P2. }
    apply spec_bind. rewrite <- app_assoc.
    eapply spec_weaken; [apply (IH pre seg1 (seg2 ++ post) left mid); auto; try lia|].
    intros [] w1 t1 (-> & eps1 & -> & HF1 & Hn1). cbv beta.
    apply spec_bind. rewrite (app_assoc pre).
    eapply spec_weaken;
      [apply (IH (pre ++ stable_sort seg1) seg2 post mid right); auto; try lia|].
    { rewrite length_app; lia. }
    { now rewrite <- app_assoc. }
    intros [] w2 t2 (-> & eps2 & -> & HF2 & Hn2). cbv beta.
    rewrite <- (app_assoc pre).
    eapply spec_weaken;
      [apply (@merge_episode_spec a v0 pre (stable_sort seg1) (stable_sort seg2) post
                fuel left mid right); auto; try lia|].
    { apply stable_sort_sorted. }
    { intros E. rewrite E in L1. simpl in L1. lia. }
    { intros E. rewrite E in L2. simpl in L2. lia. }
    intros [] w3 t3 [-> HF3]. cbv beta. split.
    + now rewrite merge_stable_sort.
    + exists (eps1 ++ eps2 ++ [t3]). splits.
      * rewrite !concat_app. simpl. now rewrite app_nil_r.
      * repeat (apply Forall_app; split); auto.
      * rewrite !length_app. simpl. lia.
Qed.

Lemma merge_sort_episodes (v0 : list elt) (fuel : nat) :
  (length v0 < fuel)%nat ->
  gen_spec (merge_sort fuel) v0 (fun fs =>
    (v0 = [] /\ fs = [(v0, info [] [])]) \/
    exists eps last,
      fs = (v0, info [] []) :: concat eps ++ [last] /\
      rearranged v0 last /\
      Forall (merge_frames v0) eps /\
      length eps = Nat.pred (length v0)).
Proof.
  intros Hfuel. unfold merge_sort. apply gen_intro. intros a.
  step. set (n := Z.of_nat (length v0)).
  destruct (Z.eqb_spec n 0) as [Hn0|Hn0].
  - assert (v0 = []) by (destruct v0; simpl in *; [auto|lia]). subst v0.
    step. now left.
  - step. apply spec_bind.
    assert (E : v0 = [] ++ v0 ++ []) by (simpl; now rewrite app_nil_r).
    rewrite E at 1.
    eapply spec_weaken; [apply (@sort_rec_episodes a v0 fuel fuel [] v0 [] 0 n); auto|].
    { now rewrite <- E. }
    intros [] w t (-> & eps & -> & HF & Hn). cbv beta. simpl. rewrite app_nil_r. step.
    right. exists eps, (stable_sort v0, info [] (range 0 n)). splits; auto.
    apply stable_sort_perm.
Qed.

(** C2, as amended: the generators that only swap ([bubble_sort],
    [selection_sort], [quick_sort]) show a permutation of the input in every
    frame.  [insertion_sort] and [merge_sort], which overwrite cells, show in
    every frame an array of the input's length made of values of the input,
    and a permutation of the input in every frame but those yielded while a
    write is pending, which are not permutations of the input.  In
    [insertion_sort] these are, within one insertion, the frames from the
    first shift on and before the frame that follows [a[j + 1] = key]; in
    [merge_sort], within one call of [merge], the frames from the first write
    of an element of the right run on and before the frame that follows the
    write of the last element of the left run. *)
Theorem frames_keep_the_values (alg : algorithm) (input : list elt) (fuel : nat) :
  (2 * length input + 2 <= fuel)%nat ->
  exists fs,
    run (generator alg fuel) input = Ok fs /\
    match alg with
    | Bubble | Selection | Quick =>
        Forall (fun f => Permutation (fst f) input) fs
    | Insertion =>
        Forall (fun f => length (fst f) = length input /\ incl (fst f) input) fs /\
        exists eps last,
          fs = (input, info [] []) :: concat eps ++ [last] /\
          Permutation (fst last) input /\
          Forall2 (insertion_frames input (Z.of_nat (length input)))
            (range 1 (Z.of_nat (length input))) eps
    | Merge =>
        Forall (fun f => length (fst f) = length input /\ incl (fst f) input) fs /\
        ((input = [] /\ fs = [(input, info [] [])]) \/
         exists eps last,
           fs = (input, info [] []) :: concat eps ++ [last] /\
           Permutation (fst last) input /\
           Forall (merge_frames input) eps /\
           length eps = Nat.pred (length input))
    end.
Proof.
  intros Hfuel.
  destruct (run_spec (generator_spec alg Hfuel)) as (fs & E & Hpost).
  exists fs. split; auto.
  assert (Hperm : frame_rel alg input = perm_of input ->
                  Forall (fun f => Permutation (fst f) input) fs).
  { intros HR. rewrite HR in Hpost.
    eapply Forall_impl; [|apply (sort_post_all (R := perm_of input)); eauto].
    intros f (_ & _ & Hf). exact Hf. }
  assert (Hincl : frame_rel alg input = incl_of input ->
    Forall (fun f => length (fst f) = length input /\ incl (fst f) input) fs).
  { intros HR. rewrite HR in Hpost.
    eapply Forall_impl; [|apply (sort_post_all (R := incl_of input)); eauto].
    - intros f (Hl & _ & Hf). split; auto. now apply Nat2Z.inj.
    - intros arr HP z Hz. eapply Permutation_in; eauto. }
  destruct alg; simpl in *; auto.
  - split; auto.
    assert (Hf : (length input <= fuel)%nat) by lia.
    destruct (run_spec (insertion_sort_episodes Hf))
      as (fs' & E' & eps & last & -> & HPl & HF2).
    rewrite (run_inj _ _ E E'). exists eps, last. splits; auto.
  - split; auto.
    assert (Hf : (length input < fuel)%nat) by lia.
    destruct (run_spec (merge_sort_episodes Hf))
      as (fs' & E' & [(-> & ->)|(eps & last & -> & HPl & HF & Hn)]);
      rewrite (run_inj _ _ E E'); [now left|right].
    exists eps, last. splits; auto.
Qed.

End Engine.

(** * The application: proofs *)

(** ** [draw_snapshot] *)

Lemma length_set_color (c : App.Color) (bars : list App.Color) (idx : Z) :
  length (App.set_color c bars idx) = length bars.
Proof.
  unfold App.set_color.
  destruct ((0 <=? idx) && (idx <? Z.of_nat (length bars))); auto.
  apply length_replace_nth.
Qed.

Lemma length_fold_set_color (c : App.Color) (l : list Z) (bars : list App.Color) :
  length (fold_left (App.set_color c) l bars) = length bars.
Proof.
  revert bars; induction l as [|idx l IH]; intros bars; simpl; auto.
  now rewrite IH, length_set_color.
Qed.

Lemma nth_set_color (c : App.Color) (bars : list App.Color) (idx : Z) (p : nat) :
  (p < length bars)%nat ->
  nth_error (App.set_color c bars idx) p =
    if idx =? Z.of_nat p then Some c else nth_error bars p.
Proof.
  intros Hp. unfold App.set_color.
  destruct (Z.eqb_spec idx (Z.of_nat p)) as [->|Hne].
  - destruct (Z.leb_spec 0 (Z.of_nat p)); [|lia].
    destruct (Z.ltb_spec (Z.of_nat p) (Z.of_nat (length bars))); [|lia]. simpl.
    rewrite Nat2Z.id. now apply nth_error_replace_nth_eq.
  - destruct ((0 <=? idx) && (idx <? Z.of_nat (length bars))) eqn:E; auto.
    apply andb_prop in E as [E1 E2]. apply Z.leb_le in E1.
    apply nth_error_replace_nth_neq. lia.
Qed.

Lemma nth_fold_set_color (c : App.Color) (l : list Z) (bars : list App.Color) (p : nat) :
  (p < length bars)%nat ->
  nth_error (fold_left (App.set_color c) l bars) p =
    if existsb (fun idx => idx =? Z.of_nat p) l then Some c else nth_error bars p.
Proof.
  revert bars; induction l as [|idx l IH]; intros bars Hp; simpl; auto.
  rewrite IH by now rewrite length_set_color.
  rewrite nth_set_color by auto.
  destruct (idx =? Z.of_nat p); simpl; auto.
  now destruct (existsb _ l).
Qed.

Lemma existsb_eqb_In (l : list Z) (p : Z) :
  existsb (fun idx => idx =? p) l = true <-> In p l.
Proof.
  rewrite existsb_exists. split.
  - intros (x & Hx & E). apply Z.eqb_eq in E. now subst.
  - intros H. exists p. split; auto. apply Z.eqb_refl.
Qed.

Section DrawProofs.

Variable algo : Type.
Variable ax_bar_ok : list Z -> bool.
Variable set_ylim_ok : Z -> bool.

Abbreviation draw := (@App.draw_snapshot algo ax_bar_ok set_ylim_ok).

Lemma draw_snapshot_accepted (name : algo) (x : Z) (rest : list Z) (i : Info) :
  ax_bar_ok (x :: rest) = true -> set_ylim_ok (App.list_max x rest) = true ->
  draw name (x :: rest, i) =
    Ok (App.mkChart
          (name, match label i with Some l => l | None => EmptyString end) (x :: rest)
          (fold_left (App.set_color App.green) (App.sorted_or_empty i)
             (fold_left (App.set_color App.red) (active i)
                (map (fun _ => App.skyblue) (x :: rest))))).
Proof. intros H1 H2. unfold App.draw_snapshot. now rewrite H1, H2. Qed.

Lemma draw_snapshot_inv (name : algo) (arr : list Z) (i : Info) (c : App.Chart algo) :
  draw name (arr, i) = Ok c ->
  exists x rest, arr = x :: rest /\
    ax_bar_ok arr = true /\ set_ylim_ok (App.list_max x rest) = true.
Proof.
  unfold App.draw_snapshot. intros E.
  destruct (ax_bar_ok arr) eqn:E1; [|discriminate].
  destruct arr as [|x rest]; [discriminate|].
  destruct (set_ylim_ok (App.list_max x rest)) eqn:E2; [|discriminate].
  exists x, rest. auto.
Qed.

Lemma draw_snapshot_colour_at (name : algo) (arr : list Z) (i : Info)
    (c : App.Chart algo) (p : nat) :
  draw name (arr, i) = Ok c -> (p < length arr)%nat ->
  nth_error (App.bar_colors c) p =
    Some (if existsb (fun idx => idx =? Z.of_nat p) (App.sorted_or_empty i) then App.green
          else if existsb (fun idx => idx =? Z.of_nat p) (active i) then App.red
          else App.skyblue).
Proof.
  intros E Hp. destruct (draw_snapshot_inv _ _ _ E) as (x & rest & -> & H1 & H2).
  rewrite (draw_snapshot_accepted name i H1 H2) in E. injection E as <-.
  cbn [App.bar_colors].
  change (App.skyblue :: map (fun _ : Z => App.skyblue) rest)
    with (map (fun _ : Z => App.skyblue) (x :: rest)).
  set (arr := x :: rest) in *.
  rewrite nth_fold_set_color by now rewrite length_fold_set_color, length_map.
  destruct (existsb _ (App.sorted_or_empty i)); auto.
  rewrite nth_fold_set_color by now rewrite length_map.
  destruct (existsb _ (active i)); auto.
  rewrite nth_error_map.
  destruct (nth_error arr p) eqn:En; auto. apply nth_error_None in En. lia.
Qed.

Lemma draw_snapshot_length (name : algo) (arr : list Z) (i : Info)
    (c : App.Chart algo) :
  draw name (arr, i) = Ok c ->
  App.bar_heights c = arr /\ length (App.bar_colors c) = length arr.
Proof.
  intros E. destruct (draw_snapshot_inv _ _ _ E) as (x & rest & -> & H1 & H2).
  rewrite (draw_snapshot_accepted name i H1 H2) in E. injection E as <-.
  cbn [App.bar_colors App.bar_heights].
  change (App.skyblue :: map (fun _ : Z => App.skyblue) rest)
    with (map (fun _ : Z => App.skyblue) (x :: rest)).
  set (arr := x :: rest) in *.
  split; auto. now rewrite !length_fold_set_color, length_map.
Qed.

(** X10: [draw_snapshot] raises on an empty array (from [max(arr)]), when
    [ax.bar] does not take the heights, and when [ax.set_ylim] does not take
    the maximum.  Otherwise it draws one bar per element, green where the
    index is in the sorted list, else red where it is in the active list,
    else sky blue (indices outside the array, negative ones included, colour
    nothing). *)
Theorem draw_snapshot_colours (name : algo) (arr : list Z) (i : Info) :
  (arr = [] -> draw name (arr, i) = Raise) /\
  (ax_bar_ok arr = false -> draw name (arr, i) = Raise) /\
  (forall x rest, arr = x :: rest ->
     set_ylim_ok (App.list_max x rest) = false -> draw name (arr, i) = Raise) /\
  (forall x rest, arr = x :: rest ->
     ax_bar_ok arr = true -> set_ylim_ok (App.list_max x rest) = true ->
     exists c, draw name (arr, i) = Ok c /\
       App.bar_heights c = arr /\ length (App.bar_colors c) = length arr /\
       forall p col, nth_error (App.bar_colors c) p = Some col ->
         let srt := App.sorted_or_empty i in
         (In (Z.of_nat p) srt -> col = App.green) /\
         (~ In (Z.of_nat p) srt -> In (Z.of_nat p) (active i) -> col = App.red) /\
         (~ In (Z.of_nat p) srt -> ~ In (Z.of_nat p) (active i) ->
          col = App.skyblue)).
Proof.
  splits.
  - intros ->. unfold App.draw_snapshot. now destruct (ax_bar_ok []).
  - intros E. unfold App.draw_snapshot. now rewrite E.
  - intros x rest -> E. unfold App.draw_snapshot. rewrite E.
    now destruct (ax_bar_ok (x :: rest)).
  - intros x rest -> H1 H2.
    pose proof (draw_snapshot_accepted name i H1 H2) as E.
    eexists. split; [exact E|].
    destruct (draw_snapshot_length _ _ _ E) as [Hh Hl].
    split; auto. split; auto. intros p col Hp. cbv zeta.
    assert (Hlt : (p < length (x :: rest))%nat).
    { rewrite <- Hl. apply nth_error_Some. congruence. }
    rewrite (draw_snapshot_colour_at _ _ _ E Hlt) in Hp.
    injection Hp as <-.
    destruct (existsb _ (App.sorted_or_empty i)) eqn:Es.
    + apply existsb_eqb_In in Es. splits; tauto.
    + assert (~ In (Z.of_nat p) (App.sorted_or_empty i)).
      { intros H. apply existsb_eqb_In in H. congruence. }
      destruct (existsb _ (active i)) eqn:Ea.
      * apply existsb_eqb_In in Ea. splits; tauto.
      * assert (~ In (Z.of_nat p) (active i)).
        { intros H'. apply existsb_eqb_In in H'. congruence. }
        splits; tauto.
Qed.

Lemma all_green (name : algo) (arr : list Z) (act : list Z) (c : App.Chart algo) :
  draw name (arr, info act (range 0 (Z.of_nat (length arr)))) = Ok c ->
  Forall (eq App.green) (App.bar_colors c).
Proof.
  intros E. destruct (draw_snapshot_length _ _ _ E) as [_ Hl].
  apply Forall_forall. intros col Hin.
  destruct (In_nth_error _ _ Hin) as [p Hp].
  assert (Hlt : (p < length arr)%nat).
  { rewrite <- Hl. apply nth_error_Some. congruence. }
  rewrite (draw_snapshot_colour_at _ _ _ E Hlt) in Hp.
  assert (Ex : existsb (fun idx => idx =? Z.of_nat p)
                 (range 0 (Z.of_nat (length arr))) = true).
  { apply existsb_eqb_In, in_range_iff. lia. }
  unfold App.sorted_or_empty in Hp. simpl in Hp. rewrite Ex in Hp. congruence.
Qed.

Lemma list_max_bounds (lo hi x : Z) (rest : list Z) :
  lo <= x <= hi -> Forall (fun y => lo <= y <= hi) rest ->
  lo <= App.list_max x rest <= hi.
Proof.
  unfold App.list_max. revert x; induction rest as [|y rest IH]; intros x Hx HF; auto.
  inversion HF; subst. simpl. apply IH; auto. lia.
Qed.

End DrawProofs.

(** ** [random_array] and the script *)

Section AppProofs.

Variables rng np_rng : Type.
Variable randint : Z -> Z -> rng -> Res (Z * rng).
Variable np_random_seed : Z -> np_rng -> Res np_rng.
Variable ax_bar_ok : list Z -> bool.
Variable set_ylim_ok : Z -> bool.

(** What [random.randint(lo, hi)] promises when [lo <= hi]. *)
Hypothesis randint_ok : forall lo hi g, lo <= hi ->
  exists x g', randint lo hi g = Ok (x, g') /\ lo <= x <= hi.

(** What is asked of matplotlib: that it draws bars of heights between 1 and
    100, the values the application puts into its arrays. *)
Hypothesis ax_bar_small : forall arr,
  Forall (fun x => 1 <= x <= 100) arr -> ax_bar_ok arr = true.
Hypothesis set_ylim_small : forall m, 1 <= m <= 100 -> set_ylim_ok m = true.

Abbreviation ALG := (@new_generator Z (fun x : Z => x)).
Abbreviation draw_snapshot := (@App.draw_snapshot algorithm ax_bar_ok set_ylim_ok).
Abbreviation script := (App.script randint np_random_seed ALG ax_bar_ok set_ylim_ok).
Abbreviation reruns := (App.reruns randint np_random_seed ALG ax_bar_ok set_ylim_ok).
Abbreviation animate := (@App.animate algorithm ax_bar_ok set_ylim_ok).
Abbreviation on_running := (@App.on_running algorithm ax_bar_ok set_ylim_ok).
Abbreviation session_ok := (App.session_ok ALG).

(** A snapshot that [draw_snapshot] draws: not empty, heights from 1 to 100. *)
Abbreviation small := (fun f : list Z * Info =>
  fst f <> [] /\ Forall (fun x => 1 <= x <= 100) (fst f)).

Lemma randints_ok (l : list Z) (low high : Z) (g : rng) :
  low <= high ->
  exists xs g', App.randints randint l low high g = Ok (xs, g') /\
    length xs = length l /\ Forall (fun x => low <= x <= high) xs.
Proof.
  intros Hlh. revert g; induction l as [|y l IH]; intros g; simpl.
  - exists [], g. auto.
  - destruct (randint_ok g Hlh) as (x & g1 & -> & Hx).
    destruct (IH g1) as (xs & g2 & -> & Hl & HF).
    exists (x :: xs), g2. simpl. auto.
Qed.

(** X11: [random_array(n, low, high)] with [low <= high] returns a list of
    [max(n, 0)] values, each between [low] and [high]; with [n <= 0] it
    returns the empty list without drawing a number, whatever the bounds. *)
Theorem random_array_in_bounds (n low high : Z) (g : rng) :
  (n <= 0 -> App.random_array randint n low high g = Ok ([], g)) /\
  (low <= high ->
   exists arr g', App.random_array randint n low high g = Ok (arr, g') /\
     Z.of_nat (length arr) = Z.max 0 n /\
     Forall (fun x => low <= x <= high) arr).
Proof.
  unfold App.random_array. split.
  - intros Hn. now rewrite range_nil by lia.
  - intros Hlh. destruct (randints_ok (range 0 n) g Hlh) as (xs & g' & E & Hl & HF).
    exists xs, g'. splits; auto. rewrite Hl, length_range. lia.
Qed.

Lemma random_array_bounds (size : Z) (g : rng) :
  exists arr g', App.random_array randint size 1 100 g = Ok (arr, g') /\
    Z.of_nat (length arr) = Z.max 0 size /\
    Forall (fun x => 1 <= x <= 100) arr.
Proof.
  unfold App.random_array.
  destruct (@randints_ok (range 0 size) 1 100 g) as (xs & g' & E & Hl & HF); [lia|].
  exists xs, g'. splits; auto. rewrite Hl, length_range. lia.
Qed.

Lemma ALG_frames (alg : algorithm) (arr : list Z) :
  exists fs, ALG alg arr = Ok fs /\
    Forall (fun f => length (fst f) = length arr /\ incl (fst f) arr) fs /\
    (arr <> [] -> exists rest, fs = (arr, info [] []) :: rest) /\
    exists init vf,
      fs = init ++ [(vf, info [] (range 0 (Z.of_nat (length arr))))] /\
      Permutation vf arr /\ StronglySorted Z.le vf.
Proof.
  destruct (new_generator_spec (fun x : Z => x) alg arr) as (fs & E & Hpost).
  exists fs. splits; auto.
  - eapply Forall_impl;
      [|apply (sort_post_all (key := fun x : Z => x) (R := incl_of arr)); eauto].
    + intros f (Hl & _ & Hi). split; [apply Nat2Z.inj; exact Hl|exact Hi].
    + intros arr' HP z Hz. eapply Permutation_in; eauto.
    + eapply sort_post_weaken; [|exact Hpost]. apply frame_rel_incl.
  - apply (sort_post_first Hpost).
  - destruct (sort_post_last Hpost) as (init & vf & -> & HP & HS). eauto.
Qed.

Lemma draw_snapshot_ok (name : algorithm) (f : list Z * Info) :
  small f -> exists c, draw_snapshot name f = Ok c.
Proof.
  destruct f as [arr i]. intros [H HF]. simpl in H, HF.
  destruct arr as [|x rest]; [congruence|].
  rewrite draw_snapshot_accepted; eauto.
  inversion HF; subst. apply set_ylim_small. now apply list_max_bounds.
Qed.

Lemma small_frame (arr : list Z) (f : list Z * Info) :
  arr <> [] -> Forall (fun x => 1 <= x <= 100) arr ->
  length (fst f) = length arr -> incl (fst f) arr -> small f.
Proof.
  intros Hne HF Hl Hi. split.
  - intros E. rewrite E in Hl. destruct arr; simpl in *; congruence.
  - rewrite Forall_forall in *. auto.
Qed.

Lemma small_frames (arr : list Z) (fs : list (list Z * Info)) :
  arr <> [] -> Forall (fun x => 1 <= x <= 100) arr ->
  Forall (fun f => length (fst f) = length arr /\ incl (fst f) arr) fs ->
  Forall small fs.
Proof.
  intros Hne HF H. eapply Forall_impl; [|exact H].
  intros f [Hl Hi]. eapply small_frame; eauto.
Qed.

Lemma last_cons (A : Type) (l : list A) (x d : A) : last (x :: l) d = last l x.
Proof.
  revert x d; induction l as [|y l IH]; intros x d; auto.
  change (last (x :: y :: l) d) with (last (y :: l) d). now rewrite (IH y d), (IH y x).
Qed.

Lemma animate_ok (w : App.Widgets algorithm) (s : App.Session) (gen : list (list Z * Info)) :
  App.running s = true -> Forall small gen ->
  exists charts,
    animate w s gen =
      Ok (App.mkSession (App.array s) None false (last gen (App.last_snapshot s)), charts) /\
    map Ok charts = map (draw_snapshot (App.algo_name w)) gen.
Proof.
  revert s; induction gen as [|f gen IH]; intros s Hrun HF.
  - exists []. auto.
  - inversion HF as [|? ? Hf HF']; subst. simpl.
    destruct (draw_snapshot_ok (App.algo_name w) Hf) as [c Ec]. rewrite Ec, Hrun. simpl.
    destruct (IH (App.mkSession (App.array s) (Some gen) true f) eq_refl HF')
      as (cs & E & Hm). simpl in E. rewrite E.
    exists (c :: cs). split.
    + do 3 f_equal. symmetry. apply last_cons.
    + simpl. now rewrite Hm.
Qed.


Lemma returns_ret (A : Type) (x : A) (Q : A -> Prop) :
  Q x -> App.returns (rng := rng) (np_rng := np_rng) (App.act_ret x) Q.
Proof. intros H world. exists x, world. auto. Qed.

Lemma returns_bind (A B : Type) (m : App.Act rng np_rng A) (f : A -> App.Act rng np_rng B)
    (P : A -> Prop) (Q : B -> Prop) :
  App.returns m P -> (forall x, P x -> App.returns (f x) Q) ->
  App.returns (App.act_bind m f) Q.
Proof.
  intros Hm Hf world. destruct (Hm world) as (x & w1 & E & HP).
  destruct (Hf x HP w1) as (y & w2 & E2 & HQ).
  exists y, w2. unfold App.act_bind. rewrite E. auto.
Qed.

Lemma returns_lift (A : Type) (r : Res A) (x : A) (Q : A -> Prop) :
  r = Ok x -> Q x -> App.returns (rng := rng) (np_rng := np_rng) (App.act_lift r) Q.
Proof. intros -> H world. exists x, world. auto. Qed.

Lemma session_ok_fresh (arr : list Z) :
  arr <> [] -> Forall (fun x => 1 <= x <= 100) arr ->
  session_ok (App.mkSession arr None false (arr, info [] [])).
Proof. intros H HF. unfold App.session_ok; simpl. splits; auto. discriminate. Qed.

Lemma session_ok_small (s : App.Session) : session_ok s -> small (App.last_snapshot s).
Proof.
  intros (H1 & _ & H3 & H4 & _). split; auto.
  intros E. rewrite E in H3. destruct (App.array s); simpl in *; congruence.
Qed.

Lemma regenerate_returns (size : Z) :
  1 <= size ->
  App.returns (np_rng := np_rng) (App.regenerate randint size)
    (fun s => session_ok s /\ Z.of_nat (length (App.array s)) = size).
Proof.
  intros Hs [g np]. unfold App.regenerate.
  destruct (random_array_bounds size g) as (arr & g' & E & Hl & HF).
  rewrite E. eexists _, _. split; [reflexivity|]. simpl. split; [|lia].
  apply session_ok_fresh; auto. intros ->. simpl in Hl. lia.
Qed.

Lemma reseed_returns (seed : Z) :
  seed = 0 \/ (forall np, exists np', np_random_seed seed np = Ok np') ->
  App.returns (rng := rng) (App.reseed np_random_seed seed) (fun _ => True).
Proof.
  intros H [g np]. unfold App.reseed.
  destruct (Z.eqb_spec seed 0) as [E|E]; simpl; [eauto|].
  destruct H as [H|H]; [contradiction|].
  destruct (H np) as [np' ->]. eauto.
Qed.

Lemma session_ok_gen (s : App.Session) (gen : list (list Z * Info)) :
  session_ok s -> App.generator s = Some gen ->
  Forall (fun f => length (fst f) = length (App.array s) /\
                   incl (fst f) (App.array s)) gen.
Proof.
  intros (_ & _ & _ & _ & Hg) E. destruct (Hg gen E) as (name & pre & Ep).
  destruct (ALG_frames name (App.array s)) as (fs & E' & HF & _).
  rewrite Ep in E'. injection E' as <-. now apply Forall_app in HF.
Qed.

Lemma init_session_returns (w : App.Widgets algorithm) (st : option App.Session) :
  1 <= App.size w ->
  App.seed w = 0 \/ (forall np, exists np', np_random_seed (App.seed w) np = Ok np') ->
  (forall s, st = Some s -> session_ok s) ->
  App.returns (App.init_session randint np_random_seed w st) session_ok.
Proof.
  intros Hs Hseed Hst. destruct st as [s|]; simpl.
  - apply returns_ret; auto.
  - eapply returns_bind; [apply reseed_returns; auto|]. intros _ _.
    intros world. destruct (regenerate_returns Hs world) as (s & w' & E & H & _). eauto.
Qed.

Lemma on_randomize_returns (w : App.Widgets algorithm) (s : App.Session) :
  1 <= App.size w ->
  App.seed w = 0 \/ (forall np, exists np', np_random_seed (App.seed w) np = Ok np') ->
  session_ok s ->
  App.returns (App.on_randomize randint np_random_seed w s) session_ok.
Proof.
  intros Hs Hseed Hst. unfold App.on_randomize. destruct (App.randomize w).
  - eapply returns_bind; [apply reseed_returns; auto|]. intros _ _.
    intros world. destruct (regenerate_returns Hs world) as (s' & w' & E & H & _). eauto.
  - apply returns_ret; auto.
Qed.

Lemma on_size_change_returns (w : App.Widgets algorithm) (s : App.Session) :
  1 <= App.size w -> session_ok s ->
  App.returns (np_rng := np_rng) (App.on_size_change randint w s)
    (fun s' => session_ok s' /\ Z.of_nat (length (App.array s')) = App.size w).
Proof.
  intros Hs Hst. unfold App.on_size_change.
  destruct (Z.eqb_spec (Z.of_nat (length (App.array s))) (App.size w)); simpl.
  - apply returns_ret; auto.
  - now apply regenerate_returns.
Qed.

Lemma on_start_returns (w : App.Widgets algorithm) (s : App.Session) :
  session_ok s ->
  App.returns (rng := rng) (np_rng := np_rng) (App.on_start ALG w s)
    (fun s' => session_ok s' /\ App.array s' = App.array s).
Proof.
  intros Hst. unfold App.on_start. destruct (App.start w).
  - destruct (ALG_frames (App.algo_name w) (App.array s)) as (fs & E & _).
    eapply returns_bind; [apply (returns_lift (fun gen => gen = fs) E eq_refl)|].
    intros gen ->. apply returns_ret. split; auto.
    destruct Hst as (H1 & H2 & H3 & H4 & _). unfold App.session_ok; simpl. splits; auto.
    intros gen [= <-]. exists (App.algo_name w), []. exact E.
  - apply returns_ret; auto.
Qed.

Lemma on_stop_ok (w : App.Widgets algorithm) (s : App.Session) :
  session_ok s -> session_ok (App.on_stop w s) /\ App.array (App.on_stop w s) = App.array s.
Proof.
  intros Hst. unfold App.on_stop. destruct (App.stop w); auto.
  destruct Hst as (H1 & H2 & H3 & H4 & _). unfold App.session_ok; simpl. splits; auto.
  discriminate.
Qed.

Lemma on_step_returns (w : App.Widgets algorithm) (s : App.Session) :
  session_ok s ->
  App.returns (rng := rng) (np_rng := np_rng) (App.on_step ALG w s)
    (fun s' => session_ok s' /\ App.array s' = App.array s).
Proof.
  intros Hst. unfold App.on_step. destruct (App.step_btn w); [|apply returns_ret; auto].
  assert (Hgen : exists gen name pre,
            ALG name (App.array s) = Ok (pre ++ gen) /\
            App.returns (rng := rng) (np_rng := np_rng)
              match App.generator s with
              | None => App.act_lift (ALG (App.algo_name w) (App.array s))
              | Some gen => App.act_ret gen
              end (fun g => g = gen)).
  { destruct (App.generator s) as [gen|] eqn:Eg.
    - destruct Hst as (_ & _ & _ & _ & Hg). destruct (Hg gen Eg) as (name & pre & E).
      exists gen, name, pre. split; auto. now apply returns_ret.
    - destruct (ALG_frames (App.algo_name w) (App.array s)) as (fs & E & _).
      exists fs, (App.algo_name w), []. split; auto.
      now apply (returns_lift (fun g => g = fs) E). }
  destruct Hgen as (gen & name & pre & E & Hret).
  eapply returns_bind; [exact Hret|]. intros ? ->.
  destruct (ALG_frames name (App.array s)) as (fs & E' & HF & _).
  rewrite E in E'. injection E' as <-. apply Forall_app in HF as [_ HF].
  destruct Hst as (H1 & H2 & H3 & H4 & _).
  destruct gen as [|f rest]; apply returns_ret; split; auto;
    unfold App.session_ok; simpl; splits; auto; try discriminate.
  - inversion HF as [|? ? [Hl _] _]; auto.
  - inversion HF as [|? ? [Hl Hi] _]; subst.
    apply (small_frame (arr := App.array s) f); auto.
  - intros gen [= <-]. exists name, (pre ++ [f]). now rewrite <- app_assoc.
Qed.

Lemma on_running_ok (w : App.Widgets algorithm) (s : App.Session) :
  session_ok s ->
  exists s' charts, on_running w s = Ok (s', charts) /\
    session_ok s' /\ App.array s' = App.array s.
Proof.
  intros Hst. unfold App.on_running.
  destruct (App.running s) eqn:Er; [|eauto].
  destruct (App.generator s) as [gen|] eqn:Eg; [|eauto].
  pose proof (session_ok_gen Hst Eg) as HF.
  destruct Hst as (H1 & H2 & H3 & H4 & _).
  destruct (@animate_ok w s gen Er) as (charts & E & _).
  { eapply small_frames; eauto. }
  rewrite E. eexists _, _. split; [reflexivity|]. split; auto.
  assert (Hlast : length (fst (last gen (App.last_snapshot s))) = length (App.array s) /\
                  Forall (fun x => 1 <= x <= 100) (fst (last gen (App.last_snapshot s)))).
  { destruct gen as [|f gen]; auto. rewrite last_cons.
    assert (Hin : In (last gen f) (f :: gen)).
    { destruct (exists_last (l := f :: gen)) as (l' & x & El); [discriminate|].
      rewrite <- (last_cons gen f f), El, last_last, <- El.
      rewrite El. apply in_or_app. right. now left. }
    rewrite Forall_forall in HF. destruct (HF _ Hin) as [Hl Hi]. split; auto.
    now apply (small_frame (arr := App.array s) (last gen f)). }
  unfold App.session_ok; simpl. splits; auto; try apply Hlast; discriminate.
Qed.

(** X12: a run of the script on widgets with a positive size, started with
    no session state or with one that satisfies [session_ok], returns, and
    the session state it leaves satisfies [session_ok] again, holds an array
    of [size] values, and its last snapshot is what the last chart shows.
    This assumes that matplotlib draws bars of heights from 1 to 100 and,
    for a seed other than 0, that [np.random.seed] accepts the seed. *)
Theorem script_keeps_session_ok (w : App.Widgets algorithm) (st : option App.Session)
    (world : App.World rng np_rng) :
  1 <= App.size w ->
  App.seed w = 0 \/ (forall np, exists np', np_random_seed (App.seed w) np = Ok np') ->
  (forall s, st = Some s -> session_ok s) ->
  exists s' charts c world',
    script w st world = Ok (s', charts ++ [c], world') /\
    session_ok s' /\
    Z.of_nat (length (App.array s')) = App.size w /\
    draw_snapshot (App.algo_name w) (App.last_snapshot s') = Ok c.
Proof.
  intros Hs Hseed Hst.
  assert (Hprep : App.returns
    (App.act_bind (App.init_session randint np_random_seed w st) (fun s =>
     App.act_bind (App.on_randomize randint np_random_seed w s) (fun s =>
     App.act_bind (App.on_size_change randint w s) (fun s =>
     App.act_bind (App.on_start ALG w s) (fun s =>
     App.on_step ALG w (App.on_stop w s))))))
    (fun s => session_ok s /\ Z.of_nat (length (App.array s)) = App.size w)).
  { eapply returns_bind; [now apply init_session_returns|]. intros s0 H0.
    eapply returns_bind; [now apply on_randomize_returns|]. intros s1 H1.
    eapply returns_bind; [now apply on_size_change_returns|]. intros s2 [H2 L2].
    eapply returns_bind; [now apply on_start_returns|]. intros s3 [H3 A3].
    destruct (on_stop_ok w H3) as [H4 A4].
    intros wd. destruct (on_step_returns w H4 wd) as (s5 & wd' & E & H5 & A5).
    exists s5, wd'. splits; auto. congruence. }
  destruct (Hprep world) as (s & world' & E & Hok & Hlen).
  destruct (on_running_ok w Hok) as (s' & charts & Er & Hok' & Ha).
  destruct (draw_snapshot_ok (App.algo_name w) (session_ok_small Hok')) as [c Ec].
  exists s', charts, c, world'. unfold App.script. rewrite E, Er, Ec.
  splits; auto. congruence.
Qed.

(** *** Start *)

(** X13: Start, pressed alone on a session whose array, of values from 1 to
    100, has the size asked for, shows every frame of the chosen generator in
    order and then the last one once more; that chart has the sorted array
    as its bars, all of them green.  The run leaves the array and the random
    states as they were, no generator, [running] false.  This assumes that
    matplotlib draws bars of heights from 1 to 100. *)
Theorem start_animates_to_sorted_chart (w : App.Widgets algorithm) (s : App.Session)
    (world : App.World rng np_rng) :
  App.array s <> [] ->
  Forall (fun x => 1 <= x <= 100) (App.array s) ->
  Z.of_nat (length (App.array s)) = App.size w ->
  App.randomize w = false -> App.start w = true ->
  App.stop w = false -> App.step_btn w = false ->
  exists fs vf charts c,
    ALG (App.algo_name w) (App.array s) = Ok fs /\
    map Ok (charts ++ [c]) = map (draw_snapshot (App.algo_name w)) fs /\
    script w (Some s) world =
      Ok (App.mkSession (App.array s) None false
            (vf, info [] (range 0 (App.size w))),
          (charts ++ [c]) ++ [c], world) /\
    App.bar_heights c = vf /\
    Permutation vf (App.array s) /\ StronglySorted Z.le vf /\
    Forall (eq App.green) (App.bar_colors c).
Proof.
  intros Hne Hsmall Hlen Hr Hst Hsp Hstep.
  destruct (ALG_frames (App.algo_name w) (App.array s))
    as (fs & E & HF & _ & init & vf & Efs & HP & HS).
  pose proof (small_frames Hne Hsmall HF) as Hfs.
  destruct (@animate_ok w (App.mkSession (App.array s) (Some fs) true (App.last_snapshot s))
              fs eq_refl Hfs) as (cs & Ea & Hm).
  cbn [App.array App.last_snapshot] in Ea.
  assert (Hlast : last fs (App.last_snapshot s) = (vf, info [] (range 0 (App.size w)))).
  { rewrite Efs, last_last, Hlen. reflexivity. }
  rewrite Hlast in Ea.
  assert (Hvf : length vf = length (App.array s)) by now apply Permutation_length.
  destruct (@draw_snapshot_ok (App.algo_name w) (vf, info [] (range 0 (App.size w))))
    as [c Ec].
  { rewrite Efs in Hfs. apply Forall_app in Hfs as [_ Hfs].
    apply Forall_inv in Hfs. exact Hfs. }
  assert (Hcs : exists cs0, cs = cs0 ++ [c]).
  { rewrite Efs, map_app in Hm. cbn [map] in Hm. rewrite Hlen in Hm.
    destruct (exists_last (l := cs)) as (cs0 & c0 & ->).
    { intros ->. cbn [map] in Hm. symmetry in Hm. now apply app_eq_nil in Hm as [_ Hm]. }
    rewrite map_app in Hm. cbn [map] in Hm. apply app_inj_tail in Hm as [_ Hm].
    rewrite Ec in Hm. injection Hm as ->. eauto. }
  destruct Hcs as [cs0 ->].
  exists fs, vf, cs0, c. splits; auto.
  - destruct world as [g np].
    unfold App.script, App.init_session, App.on_randomize, App.on_size_change,
      App.on_start, App.on_stop, App.on_step, App.on_running,
      App.act_bind, App.act_ret, App.act_lift.
    rewrite Hr, Hlen, Z.eqb_refl, Hst. simpl. rewrite E, Hsp, Hstep.
    cbn [App.running App.generator]. rewrite Ea.
    cbn [App.last_snapshot]. rewrite Ec. reflexivity.
  - now destruct (@draw_snapshot_length _ _ _ _ _ _ _ Ec).
  - rewrite <- Hlen, <- Hvf in Ec. now apply all_green in Ec.
Qed.

(** *** Step *)

Lemma script_step (w : App.Widgets algorithm) (s : App.Session)
    (world : App.World rng np_rng) (gen : list (list Z * Info)) :
  Z.of_nat (length (App.array s)) = App.size w ->
  App.randomize w = false -> App.start w = false ->
  App.stop w = false -> App.step_btn w = true ->
  App.running s = false ->
  match App.generator s with
  | Some gen' => gen' = gen
  | None => ALG (App.algo_name w) (App.array s) = Ok gen
  end ->
  script w (Some s) world =
    match gen with
    | f :: rest =>
        match draw_snapshot (App.algo_name w) f with
        | Ok c => Ok (App.mkSession (App.array s) (Some rest) false f, [c], world)
        | Raise => Raise
        | OutOfFuel => OutOfFuel
        end
    | [] =>
        match draw_snapshot (App.algo_name w) (App.last_snapshot s) with
        | Ok c => Ok (App.mkSession (App.array s) None false (App.last_snapshot s), [c], world)
        | Raise => Raise
        | OutOfFuel => OutOfFuel
        end
    end.
Proof.
  intros Hlen Hr Hst Hsp Hstep Hrun Hgen. destruct world as [g np].
  unfold App.script, App.init_session, App.on_randomize, App.on_size_change,
    App.on_start, App.on_stop, App.on_step, App.on_running,
    App.act_bind, App.act_ret, App.act_lift.
  rewrite Hr, Hlen, Z.eqb_refl, Hst. simpl. rewrite Hsp, Hstep.
  destruct (App.generator s) as [gen'|].
  - subst gen'. destruct gen as [|f rest]; simpl; rewrite ?Hrun; simpl;
      destruct (App.draw_snapshot _ _ _ _); reflexivity.
  - rewrite Hgen. destruct gen as [|f rest]; simpl; rewrite ?Hrun; simpl;
      destruct (App.draw_snapshot _ _ _ _); reflexivity.
Qed.

(** X14: Step, pressed alone again and again on a session that is not
    running and holds no generator, walks through the frames of the chosen
    generator: the press number [k + 1] shows frame [k] and nothing else and
    leaves the generator with the frames after it.  One more press after
    the last frame finds the generator exhausted, shows the last frame again
    and drops the generator, so that the next press starts over.  The
    session array holds values from 1 to 100, and matplotlib is assumed to
    draw bars of such heights. *)
Theorem step_walks_through_the_frames (w : App.Widgets algorithm) (s : App.Session)
    (world : App.World rng np_rng) :
  App.array s <> [] ->
  Forall (fun x => 1 <= x <= 100) (App.array s) ->
  Z.of_nat (length (App.array s)) = App.size w ->
  App.generator s = None -> App.running s = false ->
  App.randomize w = false -> App.start w = false ->
  App.stop w = false -> App.step_btn w = true ->
  exists fs init last c_last,
    ALG (App.algo_name w) (App.array s) = Ok fs /\ fs = init ++ [last] /\
    (forall k f, nth_error fs k = Some f ->
       exists c, draw_snapshot (App.algo_name w) f = Ok c /\
         reruns (Datatypes.S k) w s world =
           Ok (App.mkSession (App.array s) (Some (skipn (Datatypes.S k) fs)) false f,
               [c], world)) /\
    draw_snapshot (App.algo_name w) last = Ok c_last /\
    reruns (Datatypes.S (length fs)) w s world =
      Ok (App.mkSession (App.array s) None false last, [c_last], world).
Proof.
  intros Hne Hsmall Hlen Hg Hrun Hr Hst Hsp Hstep.
  destruct (ALG_frames (App.algo_name w) (App.array s))
    as (fs & E & HF & _ & init & vf & Efs & HP & HS).
  pose proof (small_frames Hne Hsmall HF) as Hfs.
  assert (Hdraw : forall f, In f fs ->
            exists c, draw_snapshot (App.algo_name w) f = Ok c).
  { intros f Hin. apply draw_snapshot_ok. rewrite Forall_forall in Hfs. auto. }
  assert (Hk : forall k f, nth_error fs k = Some f ->
    exists c, draw_snapshot (App.algo_name w) f = Ok c /\
      reruns (Datatypes.S k) w s world =
        Ok (App.mkSession (App.array s) (Some (skipn (Datatypes.S k) fs)) false f,
            [c], world)).
  { induction k as [|k IH]; intros f Hf.
    - destruct (Hdraw f (nth_error_In _ _ Hf)) as [c Ec]. exists c. split; auto.
      change (reruns 1 w s world)
        with (script w (Some s) world).
      rewrite (@script_step w s world fs Hlen Hr Hst Hsp Hstep Hrun)
        by (rewrite Hg; exact E).
      clear - Hf Ec. destruct fs as [|f0 rest]; [discriminate|].
      injection Hf as ->. rewrite Ec. reflexivity.
    - destruct (Hdraw f (nth_error_In _ _ Hf)) as [c Ec]. exists c. split; auto.
      destruct (nth_error fs k) as [f'|] eqn:Ef'.
      2:{ apply nth_error_None in Ef'.
          assert (nth_error fs (Datatypes.S k) <> None) by congruence.
          apply nth_error_Some in H. lia. }
      destruct (IH f' eq_refl) as (c' & _ & Er).
      change (reruns (Datatypes.S (Datatypes.S k)) w s world)
        with (match reruns (Datatypes.S k) w s world with
              | Ok (s', _, world') => script w (Some s') world'
              | Raise => Raise
              | OutOfFuel => OutOfFuel
              end).
      rewrite Er.
      rewrite (@script_step w _ world (skipn (Datatypes.S k) fs)) by (simpl; auto).
      rewrite (skipn_nth_error _ _ Hf), Ec. reflexivity. }
  destruct (Hdraw (vf, info [] (range 0 (Z.of_nat (length (App.array s))))))
    as [c_last Ec].
  { rewrite Efs. apply in_or_app. right. now left. }
  exists fs, init, (vf, info [] (range 0 (Z.of_nat (length (App.array s))))), c_last.
  splits; auto.
  assert (Hlast : nth_error fs (length init) =
            Some (vf, info [] (range 0 (Z.of_nat (length (App.array s)))))).
  { rewrite Efs, nth_error_app2, Nat.sub_diag by lia. reflexivity. }
  destruct (Hk _ _ Hlast) as (c & Ec' & Er).
  assert (Hlen_fs : length fs = Datatypes.S (length init)).
  { rewrite Efs, length_app. simpl. lia. }
  rewrite Hlen_fs.
  change (reruns
            (Datatypes.S (Datatypes.S (length init))) w s world)
    with (match reruns (Datatypes.S (length init)) w s world with
          | Ok (s', _, world') => script w (Some s') world'
          | Raise => Raise
          | OutOfFuel => OutOfFuel
          end).
  rewrite Er.
  rewrite (@script_step w _ world (skipn (Datatypes.S (length init)) fs)) by (simpl; auto).
  rewrite <- Hlen_fs, skipn_all. cbn [App.last_snapshot App.array].
  rewrite Ec. reflexivity.
Qed.

(** *** The seed *)

Lemma np_sim_ret (A : Type) (x : A) :
  App.np_sim (rng := rng) (np_rng := np_rng) (App.act_ret x) (App.act_ret x).
Proof. intros g np y g' np' [= <- <- <-] np0. reflexivity. Qed.

Lemma np_sim_lift (A : Type) (r : Res A) :
  App.np_sim (rng := rng) (np_rng := np_rng) (App.act_lift r) (App.act_lift r).
Proof.
  intros g np y g' np' H np0. unfold App.act_lift in *.
  destruct r; try discriminate. now injection H as <- <- <-.
Qed.

Lemma np_sim_bind (A B : Type) (m m0 : App.Act rng np_rng A)
    (f f0 : A -> App.Act rng np_rng B) :
  App.np_sim m m0 -> (forall x, App.np_sim (f x) (f0 x)) ->
  App.np_sim (App.act_bind m f) (App.act_bind m0 f0).
Proof.
  intros Hm Hf g np y g' np' H np0. unfold App.act_bind in *.
  destruct (m (g, np)) as [[x [g1 np1]]| |] eqn:E; try discriminate.
  rewrite (Hm _ _ _ _ _ E np0). exact (Hf _ _ _ _ _ _ H np0).
Qed.

Lemma np_sim_regenerate (size : Z) :
  App.np_sim (np_rng := np_rng) (App.regenerate randint size) (App.regenerate randint size).
Proof.
  intros g np y g' np' H np0. unfold App.regenerate in *.
  destruct (App.random_array randint size 1 100 g) as [[arr g1]| |]; try discriminate.
  now injection H as <- <- <-.
Qed.

Lemma np_sim_reseed (seed : Z) :
  App.np_sim (rng := rng) (App.reseed np_random_seed seed) (App.reseed np_random_seed 0).
Proof.
  intros g np y g' np' H np0. unfold App.reseed in *. simpl.
  destruct (negb (seed =? 0)).
  - destruct (np_random_seed seed np); try discriminate. now injection H as <- <- <-.
  - now injection H as <- <- <-.
Qed.

Lemma animate_algo_name (w w' : App.Widgets algorithm) (s : App.Session)
    (gen : list (list Z * Info)) :
  App.algo_name w = App.algo_name w' -> animate w s gen = animate w' s gen.
Proof.
  intros H. revert s; induction gen as [|f gen IH]; intros s; simpl; auto.
  rewrite H. destruct (App.draw_snapshot _ _ _ f); auto.
  destruct (negb (App.running s)); auto. now rewrite IH.
Qed.

(** X15: the seed typed into the form reaches numpy's generator and nothing
    else.  Whatever a run of the script returns with some seed, it returns
    with seed 0, for which numpy is not called: the same session state, the
    same charts, the same state of Python's [random], from which alone the
    arrays are drawn. *)
Theorem seed_only_reaches_numpy (name : algorithm) (size speed seed : Z)
    (randomize start stop step_btn : bool) (st : option App.Session)
    (g g' : rng) (np np' : np_rng) (s' : App.Session)
    (charts : list (App.Chart algorithm)) :
  script (App.mkWidgets name size speed seed randomize start stop step_btn) st (g, np) =
    Ok (s', charts, (g', np')) ->
  script (App.mkWidgets name size speed 0 randomize start stop step_btn) st (g, np) =
    Ok (s', charts, (g', np)).
Proof.
  set (w := App.mkWidgets name size speed seed randomize start stop step_btn).
  set (w0 := App.mkWidgets name size speed 0 randomize start stop step_btn).
  assert (Hsim : App.np_sim
    (App.act_bind (App.init_session randint np_random_seed w st) (fun s =>
     App.act_bind (App.on_randomize randint np_random_seed w s) (fun s =>
     App.act_bind (App.on_size_change randint w s) (fun s =>
     App.act_bind (App.on_start ALG w s) (fun s =>
     App.on_step ALG w (App.on_stop w s))))))
    (App.act_bind (App.init_session randint np_random_seed w0 st) (fun s =>
     App.act_bind (App.on_randomize randint np_random_seed w0 s) (fun s =>
     App.act_bind (App.on_size_change randint w0 s) (fun s =>
     App.act_bind (App.on_start ALG w0 s) (fun s =>
     App.on_step ALG w0 (App.on_stop w0 s))))))).
  { apply np_sim_bind.
    { unfold App.init_session. destruct st as [s|]; [apply np_sim_ret|].
      apply np_sim_bind; [apply np_sim_reseed|]. intros _. apply np_sim_regenerate. }
    intros s0. apply np_sim_bind.
    { unfold App.on_randomize; simpl. destruct randomize; [|apply np_sim_ret].
      apply np_sim_bind; [apply np_sim_reseed|]. intros _. apply np_sim_regenerate. }
    intros s1. apply np_sim_bind.
    { unfold App.on_size_change; simpl.
      destruct (negb _); [apply np_sim_regenerate|apply np_sim_ret]. }
    intros s2. apply np_sim_bind.
    { unfold App.on_start; simpl. destruct start; [|apply np_sim_ret].
      apply np_sim_bind; [apply np_sim_lift|]. intros gen. apply np_sim_ret. }
    intros s3. unfold App.on_step, App.on_stop; simpl.
    destruct step_btn; [|apply np_sim_ret].
    apply np_sim_bind.
    { destruct (App.generator _); [apply np_sim_ret|apply np_sim_lift]. }
    intros [|f rest]; apply np_sim_ret. }
  unfold App.script. intros H.
  match type of H with
  | match ?m (g, np) with _ => _ end = _ =>
      destruct (m (g, np)) as [[s1 [g1 np1]]| |] eqn:E; try discriminate
  end.
  rewrite (Hsim _ _ _ _ _ E np).
  change (App.algo_name w0) with (App.algo_name w).
  assert (Hrun : on_running w0 s1 = on_running w s1).
  { unfold App.on_running. destruct (App.running s1), (App.generator s1); auto.
    now apply animate_algo_name. }
  rewrite Hrun.
  destruct (on_running w s1) as [[s2 cs]| |]; try discriminate.
  destruct (draw_snapshot (App.algo_name w) (App.last_snapshot s2));
    try discriminate.
  now injection H as <- <- <- <-.
Qed.

End AppProofs.

(** ** The claims on concrete inputs

    Plain numbers are their own key; a tagged number is a pair compared by
    its first component. *)

Lemma final_frame_sorted_permutation_witness :
  (2 * length [3; 1; 2] + 2 <= 8)%nat /\
  exists fs last,
    run (generator (fun x : Z => x) Quick 8) [3; 1; 2] = Ok (fs ++ [last]) /\
    StronglySorted (le_key (fun x : Z => x)) (fst last) /\
    Permutation (fst last) [3; 1; 2].
Proof.
  assert (H : (2 * length [3; 1; 2] + 2 <= 8)%nat) by (simpl; lia).
  split; [exact H|].
  exact (final_frame_sorted_permutation (fun x : Z => x) Quick [3; 1; 2] H).
Defined.

(** The frame [insertion_sort] yields after its first shift on [[2; 1]] shows
    [[2; 2]], and the frame [merge_sort] yields after its first write shows
    [[1; 1]]: neither is a permutation of the input (C2 as stated). *)
Lemma intermediate_frame_not_permutation :
  (exists fs f,
     run (insertion_sort (fun x : Z => x) 6) [2; 1] = Ok fs /\ In f fs /\
     fst f = [2; 2] /\ ~ Permutation (fst f) [2; 1]) /\
  (exists fs f,
     run (merge_sort (fun x : Z => x) 6) [2; 1] = Ok fs /\ In f fs /\
     fst f = [1; 1] /\ ~ Permutation (fst f) [2; 1]).
Proof.
  split.
  - eexists. eexists. split; [vm_compute; reflexivity|].
    split; [right; right; left; reflexivity|]. split; [reflexivity|].
    simpl. intros HP.
    assert (Hin : In 1 [2; 2])
      by (eapply Permutation_in; [symmetry; exact HP|simpl; auto]).
    simpl in Hin. intuition discriminate.
  - eexists. eexists. split; [vm_compute; reflexivity|].
    split; [right; right; left; reflexivity|]. split; [reflexivity|].
    simpl. intros HP.
    assert (Hin : In 2 [1; 1])
      by (eapply Permutation_in; [symmetry; exact HP|simpl; auto]).
    simpl in Hin. intuition discriminate.
Qed.

Lemma frames_keep_the_values_witness :
  (2 * length [3; 1; 2] + 2 <= 8)%nat /\
  exists fs,
    run (generator (fun x : Z => x) Insertion 8) [3; 1; 2] = Ok fs /\
    Forall (fun f => length (fst f) = length [3; 1; 2] /\ incl (fst f) [3; 1; 2]) fs /\
    exists eps last,
      fs = ([3; 1; 2], info [] []) :: concat eps ++ [last] /\
      Permutation (fst last) [3; 1; 2] /\
      Forall2 (insertion_frames [3; 1; 2] (Z.of_nat (length [3; 1; 2])))
        (range 1 (Z.of_nat (length [3; 1; 2]))) eps.
Proof.
  assert (H : (2 * length [3; 1; 2] + 2 <= 8)%nat) by (simpl; lia).
  split; [exact H|].
  exact (frames_keep_the_values (fun x : Z => x) Insertion [3; 1; 2] H).
Defined.

Lemma first_and_last_frames_witness :
  (2 * length [3; 1; 2] + 2 <= 8)%nat /\
  exists fs,
    run (generator (fun x : Z => x) Merge 8) [3; 1; 2] = Ok fs /\
    ([3; 1; 2] <> [] -> exists rest, fs = ([3; 1; 2], mkInfo [] (Some []) None) :: rest) /\
    (exists init arr,
       fs = init ++ [(arr, mkInfo [] (Some (range 0 (Z.of_nat (length [3; 1; 2])))) None)]) /\
    Forall (fun f => length (fst f) = length [3; 1; 2]) fs.
Proof.
  assert (H : (2 * length [3; 1; 2] + 2 <= 8)%nat) by (simpl; lia).
  split; [exact H|].
  exact (first_and_last_frames (fun x : Z => x) Merge [3; 1; 2] H).
Defined.

Lemma merge_sort_stable_witness :
  (2 * length [(2, 0); (1, 1); (2, 2); (1, 3)] + 2 <= 10)%nat /\
  exists fs,
    run (merge_sort (fst : Z * Z -> Z) 10) [(2, 0); (1, 1); (2, 2); (1, 3)]
    = Ok (fs ++ [([(1, 1); (1, 3); (2, 0); (2, 2)], info [] [0; 1; 2; 3])]).
Proof.
  assert (H : (2 * length [(2, 0); (1, 1); (2, 2); (1, 3)] + 2 <= 10)%nat)
    by (simpl; lia).
  split; [exact H|].
  exact (proj1 (merge_sort_stable (fst : Z * Z -> Z) [(2, 0); (1, 1); (2, 2); (1, 3)] H)).
Defined.

Lemma partition_places_pivot_witness :
  nth_error [[3; 1; 2]] 0%nat = Some [3; 1; 2] /\
  quick_reach (fun x : Z => x) 0%nat 3 [[3; 1; 2]] [(0, 2)] [[3; 1; 2]] /\
  0 < 2 /\
  exists i h' tr before w,
    quick_step (fun x : Z => x) 0%nat [(0, 2)] [[3; 1; 2]]
      = Ok ([(i + 1, 2); (0, i - 1)], h', tr) /\
    frames tr = before ++ [(w, info_label [i; 2] "pivot placed")] /\
    nth_error h' 0%nat = Some w /\
    0 <= i <= 2 /\
    (forall p, 0 <= p < i -> kget (fun x : Z => x) w p < kget (fun x : Z => x) w i) /\
    (forall p, i <= p <= 2 -> kget (fun x : Z => x) w i <= kget (fun x : Z => x) w p).
Proof.
  assert (H0 : nth_error [[3; 1; 2]] 0%nat = Some [3; 1; 2]) by reflexivity.
  assert (Hr : quick_reach (fun x : Z => x) 0%nat 3 [[3; 1; 2]] [(0, 2)] [[3; 1; 2]])
    by exact (reach_start (fun x : Z => x) 0%nat 3 [[3; 1; 2]]).
  assert (Hlt : 0 < 2) by reflexivity.
  split; [exact H0|]. split; [exact Hr|]. split; [exact Hlt|].
  exact (partition_places_pivot (key := fun x : Z => x) (input := [3; 1; 2]) H0 Hr Hlt).
Defined.

Lemma bubble_sorted_input_one_pass_witness :
  [1; 2; 2; 3] <> [] /\ Sorted (le_key (fun x : Z => x)) [1; 2; 2; 3] /\
  exists fs,
    run (bubble_sort (fun x : Z => x)) [1; 2; 2; 3] = Ok fs /\
    fs = ([1; 2; 2; 3], info [] []) ::
         map (fun j => ([1; 2; 2; 3], info [j; j + 1] []))
             (range 0 (Z.of_nat (length [1; 2; 2; 3]) - 1)) ++
         [([1; 2; 2; 3], info [] (range 0 (Z.of_nat (length [1; 2; 2; 3]))))] /\
    length fs = (length [1; 2; 2; 3] + 1)%nat.
Proof.
  assert (Hne : [1; 2; 2; 3] <> ([] : list Z)) by discriminate.
  assert (Hs : Sorted (le_key (fun x : Z => x)) [1; 2; 2; 3])
    by (repeat constructor; unfold le_key; lia).
  split; [exact Hne|]. split; [exact Hs|].
  exact (bubble_sorted_input_one_pass (key := fun x : Z => x) Hne Hs).
Defined.

Lemma active_indices_in_range_witness :
  (2 * length [3; 1; 2] + 2 <= 8)%nat /\
  exists fs,
    run (generator (fun x : Z => x) Insertion 8) [3; 1; 2] = Ok fs /\
    Forall (fun f => Forall (fun idx => 0 <= idx < Z.of_nat (length [3; 1; 2]))
                       (active (snd f))) fs.
Proof.
  assert (H : (2 * length [3; 1; 2] + 2 <= 8)%nat) by (simpl; lia).
  split; [exact H|].
  exact (active_indices_in_range (fun x : Z => x) Insertion [3; 1; 2] H).
Defined.

Lemma generators_terminate_witness :
  (2 * length [3; 1; 2] + 2 <= 8)%nat /\
  nth_error [[3; 1; 2]] 0%nat = Some [3; 1; 2] /\
  (exists fs, forall fuel, (2 * length [3; 1; 2] + 2 <= fuel)%nat ->
     run (generator (fun x : Z => x) Quick fuel) [3; 1; 2] = Ok fs) /\
  (exists h' tr,
     quick_loop (fun x : Z => x) 8 0%nat [(0, Z.of_nat (length [3; 1; 2]) - 1)]
       [[3; 1; 2]] = Ok ([], h', tr)).
Proof.
  assert (H : (2 * length [3; 1; 2] + 2 <= 8)%nat) by (simpl; lia).
  assert (H0 : nth_error [[3; 1; 2]] 0%nat = Some [3; 1; 2]) by reflexivity.
  split; [exact H|]. split; [exact H0|]. split.
  - exact (proj1 (generators_terminate (fun x : Z => x) [3; 1; 2]) Quick).
  - exact (proj2 (generators_terminate (fun x : Z => x) [3; 1; 2])
             8%nat [[3; 1; 2]] 0%nat H H0).
Defined.

Lemma input_list_unchanged_witness :
  nth_error [[9]; [3; 1; 2]] 1%nat = Some [3; 1; 2] /\
  (2 * length [3; 1; 2] + 2 <= 8)%nat /\
  exists h' tr,
    generator (fun x : Z => x) Selection 8 1%nat [[9]; [3; 1; 2]] = Ok (tt, h', tr) /\
    nth_error h' 1%nat = Some [3; 1; 2] /\
    forall r, (r < length [[9]; [3; 1; 2]])%nat ->
      nth_error h' r = nth_error [[9]; [3; 1; 2]] r.
Proof.
  assert (H0 : nth_error [[9]; [3; 1; 2]] 1%nat = Some [3; 1; 2]) by reflexivity.
  assert (H : (2 * length [3; 1; 2] + 2 <= 8)%nat) by (simpl; lia).
  split; [exact H0|]. split; [exact H|].
  exact (input_list_unchanged (fun x : Z => x) Selection [[9]; [3; 1; 2]] 1%nat H0 H).
Defined.

(** ** The further properties on concrete inputs *)

Lemma lcg_randint_ok (lo hi g : Z) :
  lo <= hi ->
  exists x g', App.lcg_randint lo hi g = Ok (x, g') /\ lo <= x <= hi.
Proof.
  intros H. unfold App.lcg_randint. destruct (Z.leb_spec lo hi) as [_|]; [|lia].
  eexists _, _. split; [reflexivity|].
  pose proof (Z.mod_pos_bound g (hi - lo + 1)). lia.
Qed.

Lemma fits_int64_small (arr : list Z) :
  Forall (fun x => 1 <= x <= 100) arr -> App.fits_int64 arr = true.
Proof.
  intros HF. unfold App.fits_int64. apply forallb_forall. intros x Hx.
  rewrite Forall_forall in HF. specialize (HF x Hx).
  assert (E : 2 ^ 63 = 9223372036854775808) by reflexivity. rewrite E.
  apply andb_true_intro. split; [apply Z.leb_le|apply Z.ltb_lt]; lia.
Qed.

Lemma fits_float_small (m : Z) : 1 <= m <= 100 -> App.fits_float m = true.
Proof.
  intros H. unfold App.fits_float. apply Z.ltb_lt.
  assert (E : 100 < 2 ^ 1024) by (vm_compute; reflexivity).
  rewrite Z.abs_eq by lia. lia.
Qed.

Lemma snapshots_are_copies_witness :
  nth_error [[9]; [3; 1; 2]] 1%nat = Some [3; 1; 2] /\
  (2 * length [3; 1; 2] + 2 <= 8)%nat /\
  exists h' tr,
    generator (fun x : Z => x) Merge 8 1%nat [[9]; [3; 1; 2]] = Ok (tt, h', tr) /\
    Forall (fun s => (length [[9]; [3; 1; 2]] <= snap_ref s)%nat /\
                     nth_error h' (snap_ref s) = Some (snap_arr s)) tr /\
    NoDup (map (@snap_ref Z) tr) /\
    ([3; 1; 2] <> [] ->
     Forall (fun s => (length [[9]; [3; 1; 2]] < snap_ref s)%nat) tr).
Proof.
  assert (H0 : nth_error [[9]; [3; 1; 2]] 1%nat = Some [3; 1; 2]) by reflexivity.
  assert (H : (2 * length [3; 1; 2] + 2 <= 8)%nat) by (simpl; lia).
  split; [exact H0|]. split; [exact H|].
  exact (snapshots_are_copies (fun x : Z => x) Merge [[9]; [3; 1; 2]] 1%nat H0 H).
Defined.

Lemma final_keys_agree_witness :
  (2 * length [(2, 0); (1, 1); (2, 2)] + 2 <= 8)%nat /\
  exists fs last,
    run (generator (@fst Z Z) Selection 8) [(2, 0); (1, 1); (2, 2)] = Ok (fs ++ [last]) /\
    map fst (fst last) = map fst (stable_sort (@fst Z Z) [(2, 0); (1, 1); (2, 2)]).
Proof.
  assert (H : (2 * length [(2, 0); (1, 1); (2, 2)] + 2 <= 8)%nat) by (simpl; lia).
  split; [exact H|].
  exact (final_keys_agree (@fst Z Z) Selection [(2, 0); (1, 1); (2, 2)] H).
Defined.

Lemma insertion_sort_stable_witness :
  (length [(2, 0); (1, 1); (2, 2); (1, 3)] <= 4)%nat /\
  exists fs,
    run (insertion_sort (@fst Z Z) 4) [(2, 0); (1, 1); (2, 2); (1, 3)] =
      Ok (fs ++ [(stable_sort (@fst Z Z) [(2, 0); (1, 1); (2, 2); (1, 3)],
                  info [] (range 0 (Z.of_nat (length [(2, 0); (1, 1); (2, 2); (1, 3)]))))]).
Proof.
  assert (H : (length [(2, 0); (1, 1); (2, 2); (1, 3)] <= 4)%nat) by (simpl; lia).
  split; [exact H|].
  exact (insertion_sort_stable (@fst Z Z) [(2, 0); (1, 1); (2, 2); (1, 3)] H).
Defined.

Lemma insertion_sort_marks_untouched_witness :
  (length [3; 1; 2] <= 3)%nat /\
  exists fs last,
    run (insertion_sort (fun x : Z => x) 3) [3; 1; 2] = Ok (fs ++ [last]) /\
    Forall (fun f => forall srt idx, sorted (snd f) = Some srt -> In idx srt ->
                     nth_error (fst f) (Z.to_nat idx) = nth_error [3; 1; 2] (Z.to_nat idx))
           fs.
Proof.
  assert (H : (length [3; 1; 2] <= 3)%nat) by (simpl; lia).
  split; [exact H|].
  exact (insertion_sort_marks_untouched (fun x : Z => x) [3; 1; 2] H).
Defined.

Lemma partition_returns_pivot_index_witness :
  exists i w h' tr t0,
    partition (fun x : Z => x) 0%nat 1 3 [[5; 4; 1; 3; 2]] = Ok (i, h', tr) /\
    nth_error h' 0%nat = Some w /\
    frames tr = t0 ++ [(w, info_label [i; 3] "pivot swap")] /\
    Permutation w [5; 4; 1; 3; 2] /\
    within (fun x : Z => x) [5; 4; 1; 3; 2] w 1 3 /\
    partitioned (fun x : Z => x) w 1 i 3.
Proof.
  assert (H0 : nth_error [[5; 4; 1; 3; 2]] 0%nat = Some [5; 4; 1; 3; 2]) by reflexivity.
  assert (H1 : 0 <= 1) by lia.
  assert (H2 : 1 <= 3) by lia.
  assert (H3 : 3 < Z.of_nat (length [5; 4; 1; 3; 2])) by (simpl; lia).
  exact (partition_returns_pivot_index (fun x : Z => x) 0%nat [[5; 4; 1; 3; 2]] H0 H1 H2 H3).
Defined.

Lemma quick_rec_is_one_partition_witness :
  exists i h' tr,
    partition (fun x : Z => x) 0%nat 0 2 [[3; 1; 2]] = Ok (i, h', tr) /\
    quick_rec (fun x : Z => x) 0%nat 0 2 [[3; 1; 2]] = Ok (tt, h', tr).
Proof.
  assert (H0 : nth_error [[3; 1; 2]] 0%nat = Some [3; 1; 2]) by reflexivity.
  assert (H1 : 0 <= 0) by lia.
  assert (H2 : 0 < 2) by lia.
  assert (H3 : 2 < Z.of_nat (length [3; 1; 2])) by (simpl; lia).
  exact (quick_rec_is_one_partition (fun x : Z => x) 0%nat [[3; 1; 2]] H0 H1 H2 H3).
Defined.

Lemma random_array_in_bounds_witness :
  (5 <= 0 -> App.random_array App.lcg_randint 5 1 100 42 = Ok ([], 42)) /\
  (1 <= 100 ->
   exists arr g', App.random_array App.lcg_randint 5 1 100 42 = Ok (arr, g') /\
     Z.of_nat (length arr) = Z.max 0 5 /\
     Forall (fun x => 1 <= x <= 100) arr).
Proof.
  exact (@random_array_in_bounds Z App.lcg_randint lcg_randint_ok 5 1 100 42).
Defined.

Lemma script_keeps_session_ok_witness :
  exists s' charts c world',
    App.script App.lcg_randint App.seed_32bit (new_generator (fun x : Z => x))
      App.fits_int64 App.fits_float
      (App.mkWidgets Quick 5 10 0 false true false false) None (42, 0) =
      Ok (s', charts ++ [c], world') /\
    App.session_ok (new_generator (fun x : Z => x)) s' /\
    Z.of_nat (length (App.array s')) = 5 /\
    App.draw_snapshot App.fits_int64 App.fits_float Quick (App.last_snapshot s') = Ok c.
Proof.
  assert (H1 : 1 <= App.size (App.mkWidgets Quick 5 10 0 false true false false))
    by (simpl; lia).
  assert (H2 : App.seed (App.mkWidgets Quick 5 10 0 false true false false) = 0 \/
               (forall np, exists np',
                  App.seed_32bit
                    (App.seed (App.mkWidgets Quick 5 10 0 false true false false)) np =
                  Ok np'))
    by (left; reflexivity).
  assert (H3 : forall s, @None App.Session = Some s ->
                 App.session_ok (new_generator (fun x : Z => x)) s)
    by (intros s E; discriminate E).
  exact (@script_keeps_session_ok Z Z App.lcg_randint App.seed_32bit
           App.fits_int64 App.fits_float lcg_randint_ok fits_int64_small fits_float_small
           (App.mkWidgets Quick 5 10 0 false true false false) None (42, 0) H1 H2 H3).
Defined.

Lemma start_animates_to_sorted_chart_witness :
  exists fs vf charts c,
    new_generator (fun x : Z => x) Merge [3; 1; 2] = Ok fs /\
    map Ok (charts ++ [c]) =
      map (App.draw_snapshot App.fits_int64 App.fits_float Merge) fs /\
    App.script App.lcg_randint App.seed_32bit (new_generator (fun x : Z => x))
      App.fits_int64 App.fits_float
      (App.mkWidgets Merge 3 10 0 false true false false)
      (Some (App.mkSession [3; 1; 2] None false ([3; 1; 2], info [] []))) (42, 0) =
      Ok (App.mkSession [3; 1; 2] None false (vf, info [] (range 0 3)),
          (charts ++ [c]) ++ [c], (42, 0)) /\
    App.bar_heights c = vf /\
    Permutation vf [3; 1; 2] /\ StronglySorted Z.le vf /\
    Forall (eq App.green) (App.bar_colors c).
Proof.
  assert (H0 : [3; 1; 2] <> @nil Z) by discriminate.
  assert (H1 : Forall (fun x => 1 <= x <= 100) [3; 1; 2])
    by (repeat constructor; lia).
  exact (@start_animates_to_sorted_chart Z Z App.lcg_randint App.seed_32bit
           App.fits_int64 App.fits_float fits_int64_small fits_float_small
           (App.mkWidgets Merge 3 10 0 false true false false)
           (App.mkSession [3; 1; 2] None false ([3; 1; 2], info [] [])) (42, 0)
           H0 H1 eq_refl eq_refl eq_refl eq_refl eq_refl).
Defined.

Lemma step_walks_through_the_frames_witness :
  exists fs init last c_last,
    new_generator (fun x : Z => x) Bubble [2; 1] = Ok fs /\ fs = init ++ [last] /\
    (forall k f, nth_error fs k = Some f ->
       exists c, App.draw_snapshot App.fits_int64 App.fits_float Bubble f = Ok c /\
         App.reruns App.lcg_randint App.seed_32bit (new_generator (fun x : Z => x))
           App.fits_int64 App.fits_float
           (Datatypes.S k) (App.mkWidgets Bubble 2 10 0 false false false true)
           (App.mkSession [2; 1] None false ([2; 1], info [] [])) (42, 0) =
           Ok (App.mkSession [2; 1] (Some (skipn (Datatypes.S k) fs)) false f,
               [c], (42, 0))) /\
    App.draw_snapshot App.fits_int64 App.fits_float Bubble last = Ok c_last /\
    App.reruns App.lcg_randint App.seed_32bit (new_generator (fun x : Z => x))
      App.fits_int64 App.fits_float
      (Datatypes.S (length fs)) (App.mkWidgets Bubble 2 10 0 false false false true)
      (App.mkSession [2; 1] None false ([2; 1], info [] [])) (42, 0) =
      Ok (App.mkSession [2; 1] None false last, [c_last], (42, 0)).
Proof.
  assert (H0 : [2; 1] <> @nil Z) by discriminate.
  assert (H1 : Forall (fun x => 1 <= x <= 100) [2; 1])
    by (repeat constructor; lia).
  exact (@step_walks_through_the_frames Z Z App.lcg_randint App.seed_32bit
           App.fits_int64 App.fits_float fits_int64_small fits_float_small
           (App.mkWidgets Bubble 2 10 0 false false false true)
           (App.mkSession [2; 1] None false ([2; 1], info [] [])) (42, 0)
           H0 H1 eq_refl eq_refl eq_refl eq_refl eq_refl eq_refl eq_refl).
Defined.

Lemma seed_only_reaches_numpy_witness :
  exists s' charts g' np',
    App.script App.lcg_randint App.seed_32bit (new_generator (fun x : Z => x))
      App.fits_int64 App.fits_float
      (App.mkWidgets Insertion 3 10 7 true false false false) None (42, 0) =
      Ok (s', charts, (g', np')) /\
    App.script App.lcg_randint App.seed_32bit (new_generator (fun x : Z => x))
      App.fits_int64 App.fits_float
      (App.mkWidgets Insertion 3 10 0 true false false false) None (42, 0) =
      Ok (s', charts, (g', 0)).
Proof.
  destruct (App.script App.lcg_randint App.seed_32bit (new_generator (fun x : Z => x))
              App.fits_int64 App.fits_float
              (App.mkWidgets Insertion 3 10 7 true false false false) None (42, 0))
    as [[[s' charts] [g' np']]| |] eqn:E.
  - exists s', charts, g', np'. split; [reflexivity|].
    exact (@seed_only_reaches_numpy Z Z App.lcg_randint App.seed_32bit
             App.fits_int64 App.fits_float Insertion 3 10 7
             true false false false None 42 g' 0 np' s' charts E).
  - vm_compute in E. discriminate E.
  - vm_compute in E. discriminate E.
Defined.
